(** * CodeWisdom Analyzer: metric extraction, scoring model and ranking

    A shallow embedding of [Analyzer.cpp], [Parser.cpp] and [main.cpp].

    Conventions of the embedding.
    - [int] values are integers of [Z]; signed overflow is undefined
      behaviour in C++ and lies outside the model.  Unsigned 32-bit
      arithmetic (tree-sitter rows and byte offsets are [uint32_t]) wraps
      around, and the wrap-around is written out with [uint32].
    - [double] values are exact rationals of [Q]: the scoring formulas are
      read as formulas over the rationals, the decimal constants being the
      ones written in the source.  Every divisor of the scoring model is a
      non-zero constant or a count that the code has tested to be positive.
    - [std::string] is [string] (a sequence of bytes).
    - A [TSNode] is a handle on a node of an immutable syntax tree: the
      subtree found there together with the chain of its ancestors, which
      is what [ts_node_parent] walks.  The null node is [None].
    - The exception of [std::string::substr] is kept: functions that may
      throw return a [result].
    - The tree-sitter runtime and the file system are parameters of
      [Parser.cpp] and [main.cpp]; what the program writes to [std::cout]
      and [std::cerr] is left out.
    - [std::sort] is the routine of the GNU C++ library, the library of the
      first compiler that the README names; a vector is a list, an iterator
      a position in it, and leaving the vector is the result [None]. *)

From Stdlib Require Import Bool List String Ascii ZArith QArith Qabs Qminmax Lia Lqa.
From Stdlib Require Import Permutation Sorted ZifyNat.
Import ListNotations.

Local Open Scope string_scope.
Local Open Scope Z_scope.

(* ================================================================== *)
(** * Exceptions *)

Inductive exn : Type :=
| out_of_range   (* thrown by std::string::substr *)
| null_node.     (* a tree-sitter accessor applied to the null node *)

Inductive result (A : Type) : Type :=
| Ok (a : A)
| Throw (e : exn).

Arguments Ok {A} a.
Arguments Throw {A} e.

Definition bind {A B : Type} (r : result A) (k : A -> result B) : result B :=
  match r with
  | Ok a => k a
  | Throw e => Throw e
  end.

Notation "x <- r ;; k" := (bind r (fun x => k))
  (at level 61, r at next level, right associativity).

(* ================================================================== *)
(** * Machine arithmetic *)

(** Reduction of an integer to [uint32_t]. *)
Definition uint32 (z : Z) : Z := z mod 2 ^ 32.

(** Conversion of a [uint32_t] value to [int]. *)
Definition int_of_uint32 (z : Z) : Z :=
  if z <? 2 ^ 31 then z else z - 2 ^ 32.

(** [a < b] on [double]. *)
Definition Qltb (a b : Q) : bool := negb (Qle_bool b a).

(** [std::max(a, b)] is [(a < b) ? b : a]. *)
Definition std_max (a b : Q) : Q := if Qltb a b then b else a.

(** [std::min(a, b)] is [(b < a) ? b : a]. *)
Definition std_min (a b : Q) : Q := if Qltb b a then b else a.

(** [std::abs] on [double]. *)
Definition std_abs (a : Q) : Q := Qabs a.

(** The conversion [(double) n] of an [int]. *)
Definition double_of_int (n : Z) : Q := inject_Z n.

(** [s.substr(pos, n)]: throws when [pos > s.size()], otherwise the at most
    [n] bytes found from [pos] on. *)
Definition substr (s : string) (pos n : Z) : result string :=
  if Z.of_nat (String.length s) <? pos then Throw out_of_range
  else Ok (String.substring (Z.to_nat pos) (Z.to_nat n) s).

(** [std::find(v.begin(), v.end(), x) != v.end()] on a vector of strings. *)
Definition contains (v : list string) (x : string) : bool :=
  existsb (String.eqb x) v.

(* ================================================================== *)
(** * The syntax tree of tree-sitter *)

Record NodeInfo : Type := mkInfo {
  type : string;               (* ts_node_type *)
  field : option string;       (* the field of the parent this node fills *)
  start_byte : Z;              (* ts_node_start_byte *)
  end_byte : Z;                (* ts_node_end_byte *)
  start_row : Z;               (* ts_node_start_point(..).row *)
  end_row : Z                  (* ts_node_end_point(..).row *)
}.

#[local] Unset Elimination Schemes.

Inductive Tree : Type :=
| Node (info : NodeInfo) (children : list Tree).

#[local] Set Elimination Schemes.

(** Induction on trees: the property holds of a node when it holds of all
    its children. *)
Fixpoint Tree_ind (P : Tree -> Prop)
  (step : forall i cs, Forall P cs -> P (Node i cs)) (t : Tree) : P t :=
  match t with
  | Node i cs =>
      step i cs
        ((fix go (l : list Tree) : Forall P l :=
            match l with
            | [] => Forall_nil P
            | c :: l' => Forall_cons c (Tree_ind P step c) (go l')
            end) cs)
  end.

Definition info_of (t : Tree) : NodeInfo :=
  match t with Node i _ => i end.

Definition children_of (t : Tree) : list Tree :=
  match t with Node _ cs => cs end.

(** A non-null node handle: ancestors (nearest first) and the subtree. *)
Definition TSNode : Type := (list Tree * Tree)%type.

Definition ts_node_type (node : TSNode) : string := type (info_of (snd node)).

Definition ts_node_start_byte (node : TSNode) : Z := start_byte (info_of (snd node)).
Definition ts_node_end_byte (node : TSNode) : Z := end_byte (info_of (snd node)).
Definition ts_node_start_row (node : TSNode) : Z := start_row (info_of (snd node)).
Definition ts_node_end_row (node : TSNode) : Z := end_row (info_of (snd node)).

Definition ts_node_is_null (node : option TSNode) : bool :=
  match node with None => true | Some _ => false end.

Definition ts_node_parent (node : TSNode) : option TSNode :=
  match fst node with
  | [] => None
  | p :: anc => Some (anc, p)
  end.

Definition ts_node_child_count (node : TSNode) : nat :=
  List.length (children_of (snd node)).

Definition ts_node_child (node : TSNode) (i : nat) : option TSNode :=
  match nth_error (children_of (snd node)) i with
  | Some c => Some (snd node :: fst node, c)
  | None => None
  end.

(** The handles of all children, in order: what the loops
    [for (i = 0; i < ts_node_child_count(node); ++i) ... ts_node_child(node, i)]
    run over. *)
Definition ts_node_children (node : TSNode) : list TSNode :=
  map (fun c => (snd node :: fst node, c)) (children_of (snd node)).

Definition has_field (name : string) (c : Tree) : bool :=
  match field (info_of c) with
  | Some f => String.eqb f name
  | None => false
  end.

(** [ts_node_child_by_field_name]: the first child that fills the field. *)
Definition ts_node_child_by_field_name (node : TSNode) (name : string)
  : option TSNode :=
  match find (has_field name) (children_of (snd node)) with
  | Some c => Some (snd node :: fst node, c)
  | None => None
  end.

(* ================================================================== *)
(** * Metrics.h *)

Record FunctionMetric : Type := mkFunctionMetric {
  name : string;
  line_start : Z;
  line_end : Z;
  line_count : Z;
  complexity : Z
}.

Record FileMetrics : Type := mkFileMetrics {
  file_path : string;
  functions : list FunctionMetric;
  avg_function_length : Q;
  avg_function_complexity : Q;
  total_lines : Z;
  comment_lines : Z;
  comment_coverage_ratio : Q;
  naming_violations : Z;
  shit_mountain_index : Q
}.

(** The default-constructed [FileMetrics()]. *)
Definition FileMetrics_default : FileMetrics :=
  mkFileMetrics "" [] 0%Q 0%Q 0 0 0%Q 0 0%Q.

Definition set_file_path (m : FileMetrics) (p : string) : FileMetrics :=
  mkFileMetrics p (functions m) (avg_function_length m)
    (avg_function_complexity m) (total_lines m) (comment_lines m)
    (comment_coverage_ratio m) (naming_violations m) (shit_mountain_index m).

Definition set_functions (m : FileMetrics) (fs : list FunctionMetric)
  : FileMetrics :=
  mkFileMetrics (file_path m) fs (avg_function_length m)
    (avg_function_complexity m) (total_lines m) (comment_lines m)
    (comment_coverage_ratio m) (naming_violations m) (shit_mountain_index m).

Definition set_averages (m : FileMetrics) (len cplx : Q) : FileMetrics :=
  mkFileMetrics (file_path m) (functions m) len cplx (total_lines m)
    (comment_lines m) (comment_coverage_ratio m) (naming_violations m)
    (shit_mountain_index m).

Definition set_total_lines (m : FileMetrics) (n : Z) : FileMetrics :=
  mkFileMetrics (file_path m) (functions m) (avg_function_length m)
    (avg_function_complexity m) n (comment_lines m)
    (comment_coverage_ratio m) (naming_violations m) (shit_mountain_index m).

Definition set_comment_lines (m : FileMetrics) (n : Z) : FileMetrics :=
  mkFileMetrics (file_path m) (functions m) (avg_function_length m)
    (avg_function_complexity m) (total_lines m) n
    (comment_coverage_ratio m) (naming_violations m) (shit_mountain_index m).

Definition set_comment_coverage_ratio (m : FileMetrics) (r : Q) : FileMetrics :=
  mkFileMetrics (file_path m) (functions m) (avg_function_length m)
    (avg_function_complexity m) (total_lines m) (comment_lines m) r
    (naming_violations m) (shit_mountain_index m).

Definition set_naming_violations (m : FileMetrics) (n : Z) : FileMetrics :=
  mkFileMetrics (file_path m) (functions m) (avg_function_length m)
    (avg_function_complexity m) (total_lines m) (comment_lines m)
    (comment_coverage_ratio m) n (shit_mountain_index m).

Definition set_shit_mountain_index (m : FileMetrics) (x : Q) : FileMetrics :=
  mkFileMetrics (file_path m) (functions m) (avg_function_length m)
    (avg_function_complexity m) (total_lines m) (comment_lines m)
    (comment_coverage_ratio m) (naming_violations m) x.

(* ================================================================== *)
(** * Analyzer.cpp: helper functions *)

(** [getNodeText]: the source text a node spans; empty for the null node.
    [end - start] is a [uint32_t] subtraction. *)
Definition getNodeText (node : option TSNode) (source : string)
  : result string :=
  match node with
  | None => Ok ""
  | Some n =>
      let start := ts_node_start_byte n in
      let end_ := ts_node_end_byte n in
      substr source start (uint32 (end_ - start))
  end.

(** [findIdentifierRecursive]: the first node of type [identifier], in
    pre-order, of the subtree. *)
Fixpoint findIdentifierRecursive_at (anc : list Tree) (t : Tree)
  : option TSNode :=
  match t with
  | Node i cs =>
      if String.eqb (type i) "identifier" then Some (anc, t)
      else
        (fix loop (l : list Tree) : option TSNode :=
           match l with
           | [] => None
           | c :: l' =>
               match findIdentifierRecursive_at (t :: anc) c with
               | Some r => Some r
               | None => loop l'
               end
           end) cs
  end.

Definition findIdentifierRecursive (node : TSNode) : option TSNode :=
  findIdentifierRecursive_at (fst node) (snd node).

(** [hasChildOfTypeRecursive]: does the subtree hold a node of that type? *)
Fixpoint hasChildOfTypeRecursive_at (t : Tree) (ty : string) : bool :=
  match t with
  | Node i cs =>
      if String.eqb (type i) ty then true
      else
        (fix loop (l : list Tree) : bool :=
           match l with
           | [] => false
           | c :: l' =>
               if hasChildOfTypeRecursive_at c ty then true else loop l'
           end) cs
  end.

Definition hasChildOfTypeRecursive (node : TSNode) (ty : string) : bool :=
  hasChildOfTypeRecursive_at (snd node) ty.

(* ================================================================== *)
(** * LanguageStrategy.h and the strategies of Analyzer.cpp *)

(** The closed hierarchy of strategy classes.  [CppStrategy] inherits all
    of [CStrategy], [TSStrategy] all of [JSStrategy]. *)
Inductive LanguageStrategy : Type :=
| CStrategy
| CppStrategy
| PythonStrategy
| JavaStrategy
| RustStrategy
| GoStrategy
| JSStrategy
| TSStrategy.

(** [LanguageStrategy::isLogicalOperator], the default implementation. *)
Definition LanguageStrategy_isLogicalOperator (node : TSNode) : bool :=
  if String.eqb (ts_node_type node) "binary_expression" then
    match ts_node_child_by_field_name node "operator" with
    | Some op =>
        let opType := ts_node_type op in
        String.eqb opType "&&" || String.eqb opType "||"
    | None => false
    end
  else false.

(** [LanguageStrategy::isSpecialFunction], the default implementation. *)
Definition LanguageStrategy_isSpecialFunction (functionNode : TSNode) : bool :=
  false.

(** ** C and C++ *)

Definition CStrategy_isSpecialFunction (functionNode : TSNode) : bool :=
  let declarator :=
    match ts_node_child_by_field_name functionNode "declarator" with
    | Some d => Some d
    | None => ts_node_child_by_field_name functionNode "abstract_declarator"
    end in
  match declarator with
  | None => false
  | Some d =>
      hasChildOfTypeRecursive d "operator_name" ||
      hasChildOfTypeRecursive d "destructor_name"
  end.

Definition CStrategy_getFunctionDefinitionTypes : list string :=
  ["function_definition"].

Definition CStrategy_extractFunctionName (node : TSNode) (source : string)
  : result string :=
  match ts_node_child_by_field_name node "declarator" with
  | Some declaratorNode =>
      match findIdentifierRecursive declaratorNode with
      | Some identifierNode => getNodeText (Some identifierNode) source
      | None => Ok "[extraction_failed]"
      end
  | None => Ok "[extraction_failed]"
  end.

Definition CStrategy_getComplexityNodeTypes : list string :=
  ["if_statement"; "for_statement"; "while_statement"; "do_statement";
   "case_statement"; "catch_clause"; "conditional_expression"].

(** ** Python *)

Definition PythonStrategy_getFunctionDefinitionTypes : list string :=
  ["function_definition"].

Definition PythonStrategy_extractFunctionName (node : TSNode) (source : string)
  : result string :=
  getNodeText (ts_node_child_by_field_name node "name") source.

Definition PythonStrategy_getComplexityNodeTypes : list string :=
  ["if_statement"; "for_statement"; "while_statement"; "except_clause";
   "conditional_expression"; "elif_clause"].

Definition PythonStrategy_isLogicalOperator (node : TSNode) : bool :=
  String.eqb (ts_node_type node) "boolean_operator".

(** ** Java *)

Definition JavaStrategy_getFunctionDefinitionTypes : list string :=
  ["method_declaration"; "constructor_declaration"].

Definition JavaStrategy_extractFunctionName (node : TSNode) (source : string)
  : result string :=
  getNodeText (ts_node_child_by_field_name node "name") source.

Definition JavaStrategy_getComplexityNodeTypes : list string :=
  ["if_statement"; "for_statement"; "while_statement"; "do_statement";
   "switch_expression"; "catch_clause"; "ternary_expression"].

(** ** Rust *)

Definition RustStrategy_getFunctionDefinitionTypes : list string :=
  ["function_item"].

Definition RustStrategy_extractFunctionName (node : TSNode) (source : string)
  : result string :=
  getNodeText (ts_node_child_by_field_name node "name") source.

Definition RustStrategy_getComplexityNodeTypes : list string :=
  ["if_expression"; "for_expression"; "while_expression"; "match_arm";
   "loop_expression"].

(** ** Go *)

Definition GoStrategy_getFunctionDefinitionTypes : list string :=
  ["function_declaration"; "method_declaration"].

Definition GoStrategy_extractFunctionName (node : TSNode) (source : string)
  : result string :=
  getNodeText (ts_node_child_by_field_name node "name") source.

Definition GoStrategy_getComplexityNodeTypes : list string :=
  ["if_statement"; "for_statement"; "switch_statement"; "select_statement"].

(** ** JavaScript and TypeScript *)

Definition JSStrategy_getFunctionDefinitionTypes : list string :=
  ["function_declaration"; "function"; "arrow_function"; "method_definition"].

Definition JSStrategy_extractFunctionName (node : TSNode) (source : string)
  : result string :=
  let type_ := ts_node_type node in
  match ts_node_child_by_field_name node "name" with
  | Some nameNode => getNodeText (Some nameNode) source
  | None =>
      if String.eqb type_ "arrow_function" then
        match ts_node_parent node with
        | Some parent =>
            if String.eqb (ts_node_type parent) "variable_declarator" then
              getNodeText (ts_node_child_by_field_name parent "name") source
            else Ok "[anonymous function]"
        | None => Ok "[anonymous function]"
        end
      else Ok "[anonymous function]"
  end.

Definition JSStrategy_getComplexityNodeTypes : list string :=
  ["if_statement"; "for_statement"; "for_in_statement"; "while_statement";
   "do_statement"; "switch_case"; "catch_clause"; "ternary_expression"].

(** ** Virtual dispatch *)

Definition getFunctionDefinitionTypes (s : LanguageStrategy) : list string :=
  match s with
  | CStrategy | CppStrategy => CStrategy_getFunctionDefinitionTypes
  | PythonStrategy => PythonStrategy_getFunctionDefinitionTypes
  | JavaStrategy => JavaStrategy_getFunctionDefinitionTypes
  | RustStrategy => RustStrategy_getFunctionDefinitionTypes
  | GoStrategy => GoStrategy_getFunctionDefinitionTypes
  | JSStrategy | TSStrategy => JSStrategy_getFunctionDefinitionTypes
  end.

Definition extractFunctionName (s : LanguageStrategy) (node : TSNode)
  (source : string) : result string :=
  match s with
  | CStrategy | CppStrategy => CStrategy_extractFunctionName node source
  | PythonStrategy => PythonStrategy_extractFunctionName node source
  | JavaStrategy => JavaStrategy_extractFunctionName node source
  | RustStrategy => RustStrategy_extractFunctionName node source
  | GoStrategy => GoStrategy_extractFunctionName node source
  | JSStrategy | TSStrategy => JSStrategy_extractFunctionName node source
  end.

Definition getComplexityNodeTypes (s : LanguageStrategy) : list string :=
  match s with
  | CStrategy | CppStrategy => CStrategy_getComplexityNodeTypes
  | PythonStrategy => PythonStrategy_getComplexityNodeTypes
  | JavaStrategy => JavaStrategy_getComplexityNodeTypes
  | RustStrategy => RustStrategy_getComplexityNodeTypes
  | GoStrategy => GoStrategy_getComplexityNodeTypes
  | JSStrategy | TSStrategy => JSStrategy_getComplexityNodeTypes
  end.

Definition isLogicalOperator (s : LanguageStrategy) (node : TSNode) : bool :=
  match s with
  | PythonStrategy => PythonStrategy_isLogicalOperator node
  | _ => LanguageStrategy_isLogicalOperator node
  end.

Definition isSpecialFunction (s : LanguageStrategy) (functionNode : TSNode)
  : bool :=
  match s with
  | CStrategy | CppStrategy => CStrategy_isSpecialFunction functionNode
  | _ => LanguageStrategy_isSpecialFunction functionNode
  end.

(** [createStrategy]: the factory; [None] is [nullptr]. *)
Definition createStrategy (language : string) : option LanguageStrategy :=
  if String.eqb language "c" then Some CStrategy
  else if String.eqb language "cpp" then Some CppStrategy
  else if String.eqb language "python" then Some PythonStrategy
  else if String.eqb language "java" then Some JavaStrategy
  else if String.eqb language "rust" then Some RustStrategy
  else if String.eqb language "go" then Some GoStrategy
  else if String.eqb language "javascript" then Some JSStrategy
  else if String.eqb language "typescript" then Some TSStrategy
  else None.

(* ================================================================== *)
(** * Analyzer.cpp: the analyzer

    The methods below are those of an [Analyzer] whose [langStrategy] is the
    strategy [s]; only [analyze] tests the pointer. The [FileMetrics &]
    parameter is threaded through as a state. *)

Section Analyzer.

Variable s : LanguageStrategy.

(** What one node adds in [calculateComplexity] before its children are
    visited: the complexity-type test first, the logical-operator test only
    when it fails. *)
Definition decision_point (node : TSNode) : Z :=
  if contains (getComplexityNodeTypes s) (ts_node_type node) then 1
  else if isLogicalOperator s node then 1
  else 0.

Fixpoint calculateComplexity_at (anc : list Tree) (t : Tree) {struct t} : Z :=
  match t with
  | Node i cs =>
      let complexity := decision_point (anc, t) in
      let complexity :=
        (fix loop (l : list Tree) (complexity : Z) : Z :=
           match l with
           | [] => complexity
           | c :: l' =>
               loop l' (complexity + calculateComplexity_at (t :: anc) c)
           end) cs complexity in
      if contains (getFunctionDefinitionTypes s) (type i)
      then complexity + 1
      else complexity
  end.

Definition calculateComplexity (node : TSNode) : Z :=
  calculateComplexity_at (fst node) (snd node).

Definition analyzeSingleFunction (funcNode : TSNode) (metrics : FileMetrics)
  (sourceCode : string) : result FileMetrics :=
  let line_start := int_of_uint32 (uint32 (ts_node_start_row funcNode + 1)) in
  let line_end := int_of_uint32 (uint32 (ts_node_end_row funcNode + 1)) in
  let line_count := line_end - line_start + 1 in
  name <- extractFunctionName s funcNode sourceCode ;;
  let name :=
    if (String.length name =? 0)%nat then "[anonymous/unknown]" else name in
  let complexity := calculateComplexity funcNode in
  Ok (set_functions metrics
        (functions metrics ++
         [mkFunctionMetric name line_start line_end line_count complexity])%list).

Fixpoint analyzeFunctions_at (anc : list Tree) (t : Tree)
  (metrics : FileMetrics) (sourceCode : string) {struct t}
  : result FileMetrics :=
  match t with
  | Node i cs =>
      if contains (getFunctionDefinitionTypes s) (type i) then
        if negb (isSpecialFunction s (anc, t))
        then analyzeSingleFunction (anc, t) metrics sourceCode
        else Ok metrics
      else
        (fix loop (l : list Tree) (metrics : FileMetrics)
           : result FileMetrics :=
           match l with
           | [] => Ok metrics
           | c :: l' =>
               metrics <- analyzeFunctions_at (t :: anc) c metrics sourceCode ;;
               loop l' metrics
           end) cs metrics
  end.

Definition analyzeFunctions (node : TSNode) (metrics : FileMetrics)
  (sourceCode : string) : result FileMetrics :=
  analyzeFunctions_at (fst node) (snd node) metrics sourceCode.

End Analyzer.

(** [total_lines] is assigned at the root; [comment_lines += ...] adds a
    [uint32_t] to an [int], which is computed modulo 2^32. *)
Fixpoint analyzeFileWideMetrics_at (anc : list Tree) (t : Tree)
  (metrics : FileMetrics) {struct t} : FileMetrics :=
  match t with
  | Node i cs =>
      let node : TSNode := (anc, t) in
      let metrics :=
        if ts_node_is_null (ts_node_parent node)
        then set_total_lines metrics
               (int_of_uint32 (uint32 (ts_node_end_row node + 1)))
        else metrics in
      let metrics :=
        if String.eqb (type i) "comment"
        then set_comment_lines metrics
               (int_of_uint32
                  (uint32 (comment_lines metrics +
                           uint32 (uint32 (ts_node_end_row node -
                                           ts_node_start_row node) + 1))))
        else metrics in
      (fix loop (l : list Tree) (metrics : FileMetrics) : FileMetrics :=
         match l with
         | [] => metrics
         | c :: l' => loop l' (analyzeFileWideMetrics_at (t :: anc) c metrics)
         end) cs metrics
  end.

Definition analyzeFileWideMetrics (node : TSNode) (metrics : FileMetrics)
  : FileMetrics :=
  analyzeFileWideMetrics_at (fst node) (snd node) metrics.

(** The short names that [analyzeNaming] accepts. *)
Definition whitelist : list string :=
  ["i"; "j"; "k"; "x"; "y"; "z"; "os"; "fs"; "it"; "c"; "ts"; "js"].

Fixpoint analyzeNaming_at (anc : list Tree) (t : Tree) (metrics : FileMetrics)
  (sourceCode : string) {struct t} : result FileMetrics :=
  match t with
  | Node i cs =>
      metrics <-
        (if String.eqb (type i) "identifier" then
           name <- getNodeText (Some (anc, t)) sourceCode ;;
           if (String.length name <=? 2)%nat then
             if negb (contains whitelist name)
             then Ok (set_naming_violations metrics
                        (naming_violations metrics + 1))
             else Ok metrics
           else Ok metrics
         else Ok metrics) ;;
      (fix loop (l : list Tree) (metrics : FileMetrics)
         : result FileMetrics :=
         match l with
         | [] => Ok metrics
         | c :: l' =>
             metrics <- analyzeNaming_at (t :: anc) c metrics sourceCode ;;
             loop l' metrics
         end) cs metrics
  end.

Definition analyzeNaming (node : TSNode) (metrics : FileMetrics)
  (sourceCode : string) : result FileMetrics :=
  analyzeNaming_at (fst node) (snd node) metrics sourceCode.

(* ------------------------------------------------------------------ *)
(** ** The scoring model: the local variables of [calculateFinalScore] *)

(** [total_length] and [total_complexity] after the loop over the
    functions, both starting at [0]. *)
Definition total_length (fs : list FunctionMetric) : Q :=
  fold_left (fun acc func => acc + double_of_int (line_count func))%Q fs 0%Q.

Definition total_complexity (fs : list FunctionMetric) : Q :=
  fold_left (fun acc func => acc + double_of_int (complexity func))%Q fs 0%Q.

(** The conversion of [functions.size()] to [double]. *)
Definition double_of_size (fs : list FunctionMetric) : Q :=
  inject_Z (Z.of_nat (List.length fs)).

Definition naming_score (violations : Z) : Q :=
  std_max 0 (100 - double_of_int violations * 5)%Q.

(** Model A. *)
Definition comment_score_A (ratio : Q) : Q :=
  std_min 100 ((ratio / 30) * 100)%Q.

(** Model B. *)
Definition complexity_score (avg_complexity : Q) : Q :=
  std_max 0 (100 - (avg_complexity - 1) / (20 - 1) * 100)%Q.

Definition length_score (avg_length : Q) : Q :=
  std_max 0 (100 - (avg_length - 10) / (100 - 10) * 100)%Q.

Definition comment_score_B (ratio : Q) : Q :=
  std_max 0 (100 - std_abs (ratio - 15) / 15 * 100)%Q.

Definition COMPLEXITY_WEIGHT : Q := 50 # 100.
Definition LENGTH_WEIGHT : Q := 15 # 100.
Definition COMMENT_WEIGHT : Q := 15 # 100.
Definition NAMING_WEIGHT : Q := 20 # 100.

(** Step 1 of [calculateFinalScore]: the raw aggregated metrics. *)
Definition aggregate (metrics : FileMetrics) : FileMetrics :=
  let metrics :=
    match functions metrics with
    | [] => metrics
    | _ :: _ =>
        set_averages metrics
          (total_length (functions metrics) / double_of_size (functions metrics))%Q
          (total_complexity (functions metrics) /
           double_of_size (functions metrics))%Q
    end in
  if 0 <? total_lines metrics
  then set_comment_coverage_ratio metrics
         (double_of_int (comment_lines metrics) /
          double_of_int (total_lines metrics) * 100)%Q
  else metrics.

Definition calculateFinalScore (metrics : FileMetrics) : FileMetrics :=
  let metrics := aggregate metrics in
  let naming_score := naming_score (naming_violations metrics) in
  match functions metrics with
  | [] =>
      let comment_score := comment_score_A (comment_coverage_ratio metrics) in
      let total_quality_score :=
        (comment_score * (7 # 10) + naming_score * (3 # 10))%Q in
      set_shit_mountain_index metrics (100 - total_quality_score)%Q
  | _ :: _ =>
      let complexity_score :=
        complexity_score (avg_function_complexity metrics) in
      let length_score := length_score (avg_function_length metrics) in
      let comment_score := comment_score_B (comment_coverage_ratio metrics) in
      let total_quality_score :=
        (complexity_score * COMPLEXITY_WEIGHT +
         length_score * LENGTH_WEIGHT +
         comment_score * COMMENT_WEIGHT +
         naming_score * NAMING_WEIGHT)%Q in
      set_shit_mountain_index metrics (100 - total_quality_score)%Q
  end.

(** [Analyzer::analyze]; [langStrategy] may be the null pointer. *)
Definition analyze (langStrategy : option LanguageStrategy) (rootNode : TSNode)
  (filePath sourceCode : string) : result FileMetrics :=
  let metrics := set_file_path FileMetrics_default filePath in
  metrics <-
    match langStrategy with
    | Some s =>
        metrics <- analyzeFunctions s rootNode metrics sourceCode ;;
        let metrics := analyzeFileWideMetrics rootNode metrics in
        analyzeNaming rootNode metrics sourceCode
    | None => Ok metrics
    end ;;
  Ok (calculateFinalScore metrics).

(* ================================================================== *)
(** * Parser.cpp *)

(** The grammars linked into the program. *)
Inductive TSLanguage : Type :=
| tree_sitter_c
| tree_sitter_cpp
| tree_sitter_python
| tree_sitter_java
| tree_sitter_rust
| tree_sitter_go
| tree_sitter_javascript
| tree_sitter_typescript.

(** Lookup in a [std::map] with string keys. *)
Fixpoint map_find {V : Type} (m : list (string * V)) (k : string) : option V :=
  match m with
  | [] => None
  | (k', v) :: m' => if String.eqb k k' then Some v else map_find m' k
  end.

Definition language_map : list (string * TSLanguage) :=
  [("c", tree_sitter_c); ("cpp", tree_sitter_cpp);
   ("python", tree_sitter_python); ("java", tree_sitter_java);
   ("rust", tree_sitter_rust); ("go", tree_sitter_go);
   ("javascript", tree_sitter_javascript);
   ("typescript", tree_sitter_typescript)].

Definition getLanguage (language : string) : option TSLanguage :=
  map_find language_map language.

(** The state of a [Parser] object: its [tree] pointer. *)
Record Parser : Type := mkParser { tree : option Tree }.

(** [Parser::Parser()]. *)
Definition Parser_new : Parser := mkParser None.

(** [Parser::getRootNode]. *)
Definition getRootNode (p : Parser) : option TSNode :=
  match tree p with
  | None => None
  | Some t => Some ([], t)
  end.

(** [std::string::find_last_of(char)]. *)
Fixpoint find_last_of (s : string) (c : ascii) : option nat :=
  match s with
  | EmptyString => None
  | String a s' =>
      match find_last_of s' c with
      | Some p => Some (S p)
      | None => if Ascii.eqb a c then Some 0%nat else None
      end
  end.

Definition extension_map : list (string * string) :=
  [(".cpp", "cpp"); (".hpp", "cpp"); (".h", "cpp"); (".cc", "cpp");
   (".cxx", "cpp"); (".c", "c"); (".py", "python"); (".java", "java");
   (".rs", "rust"); (".go", "go"); (".js", "javascript");
   (".ts", "typescript")].

(** main.cpp, [getLanguageFromFile]. *)
Definition getLanguageFromFile (filePath : string) : string :=
  match find_last_of filePath "."%char with
  | None => "unsupported"
  | Some pos =>
      let ext := String.substring pos (String.length filePath - pos) filePath in
      match map_find extension_map ext with
      | Some l => l
      | None => "unsupported"
      end
  end.

(* ================================================================== *)
(** * [std::sort]

    [main] ranks the reports with [std::sort].  The routine is the one of
    the GNU C++ library (bits/stl_algo.h and bits/stl_heap.h), transcribed
    function by function: an introsort that partitions ranges of more than
    16 elements around a median of three, falls back on a heap sort when
    the depth limit [2 * lg n] is used up, and finishes with an insertion
    sort.

    The vector is a list, an iterator is a position in it, and the result
    is [None] when the routine reads or writes outside of the vector, which
    is undefined behaviour in C++.  A move is modelled as a copy: a slot
    that was moved from is always written before it is read again.  A loop
    [while] is a recursion on a number of turns that the loop cannot exceed
    as long as it stays inside the vector, so that [None] never stands for
    a loop cut short.  Distances are natural numbers; where the C++ code
    subtracts below zero, in [(holeIndex - 1) / 2] at the top of a heap and
    in [(len - 2) / 2] for a heap of one element, its division rounds
    towards zero and gives 0 as well. *)

Section StdSort.

#[local] Open Scope nat_scope.
#[local] Open Scope list_scope.

Context {A : Type}.
Variable comp : A -> A -> bool.

Notation "x <~ r ;; k" :=
  (match r with Some x => k | None => None end)
  (at level 61, r at next level, right associativity, only parsing).
Notation "' p <~ r ;; k" :=
  (match r with Some p => k | None => None end)
  (at level 61, p pattern, r at next level, right associativity, only parsing).

(** [*(i) = x]. *)
Definition assign (a : list A) (i : nat) (x : A) : option (list A) :=
  if i <? List.length a then Some (firstn i a ++ x :: skipn (S i) a) else None.

(** [std::iter_swap]. *)
Definition iter_swap (a : list A) (i j : nat) : option (list A) :=
  x <~ nth_error a i ;;
  y <~ nth_error a j ;;
  a <~ assign a i y ;;
  assign a j x.

(** [__move_median_to_first]. *)
Definition __move_median_to_first (v : list A) (result a b c : nat)
  : option (list A) :=
  xa <~ nth_error v a ;;
  xb <~ nth_error v b ;;
  xc <~ nth_error v c ;;
  if comp xa xb then
    if comp xb xc then iter_swap v result b
    else if comp xa xc then iter_swap v result c
    else iter_swap v result a
  else if comp xa xc then iter_swap v result a
  else if comp xb xc then iter_swap v result c
  else iter_swap v result b.

(** [__unguarded_linear_insert]: the loop, from the position [last] down;
    at position 0 the iterator [next] would leave the vector. *)
Fixpoint linear_insert_loop (val : A) (a : list A) (last : nat)
  : option (list A) :=
  match last with
  | O => None
  | S next =>
      x <~ nth_error a next ;;
      if comp val x then
        a <~ assign a last x ;;
        linear_insert_loop val a next
      else assign a last val
  end.

Definition __unguarded_linear_insert (a : list A) (last : nat)
  : option (list A) :=
  val <~ nth_error a last ;;
  linear_insert_loop val a last.

(** [std::move_backward(first, last, d_last)], element by element from the
    back; [n] is [last - first]. *)
Fixpoint move_backward_loop (a : list A) (first n d_last : nat)
  : option (list A) :=
  match n with
  | O => Some a
  | S n' =>
      match d_last with
      | O => None
      | S d_last' =>
          x <~ nth_error a (first + n') ;;
          a <~ assign a d_last' x ;;
          move_backward_loop a first n' d_last'
      end
  end.

Definition move_backward (a : list A) (first last d_last : nat)
  : option (list A) :=
  move_backward_loop a first (last - first) d_last.

(** [__insertion_sort]: the loop over [i], [n] positions to go. *)
Fixpoint insertion_sort_loop (a : list A) (first i n : nat)
  : option (list A) :=
  match n with
  | O => Some a
  | S n' =>
      x <~ nth_error a i ;;
      f <~ nth_error a first ;;
      a <~ (if comp x f then
              a <~ move_backward a first i (i + 1) ;;
              assign a first x
            else __unguarded_linear_insert a i) ;;
      insertion_sort_loop a first (i + 1) n'
  end.

Definition __insertion_sort (a : list A) (first last : nat)
  : option (list A) :=
  if first =? last then Some a
  else insertion_sort_loop a first (first + 1) (last - (first + 1)).

(** [__unguarded_insertion_sort]. *)
Fixpoint unguarded_insertion_sort_loop (a : list A) (i n : nat)
  : option (list A) :=
  match n with
  | O => Some a
  | S n' =>
      a <~ __unguarded_linear_insert a i ;;
      unguarded_insertion_sort_loop a (i + 1) n'
  end.

Definition __unguarded_insertion_sort (a : list A) (first last : nat)
  : option (list A) :=
  unguarded_insertion_sort_loop a first (last - first).

Definition _S_threshold : nat := 16.

(** [__final_insertion_sort]. *)
Definition __final_insertion_sort (a : list A) (first last : nat)
  : option (list A) :=
  if _S_threshold <? last - first then
    a <~ __insertion_sort a first (first + _S_threshold) ;;
    __unguarded_insertion_sort a (first + _S_threshold) last
  else __insertion_sort a first last.

(** [__unguarded_partition]: [while (comp(first, pivot)) ++first], with as
    many steps as the vector has positions from [first] on. *)
Fixpoint scan_up (steps : nat) (a : list A) (first pivot : nat) : option nat :=
  match steps with
  | O => None
  | S steps' =>
      x <~ nth_error a first ;;
      p <~ nth_error a pivot ;;
      if comp x p then scan_up steps' a (first + 1) pivot else Some first
  end.

(** [--last; while (comp(pivot, last)) --last]. *)
Fixpoint scan_down (a : list A) (last pivot : nat) : option nat :=
  match last with
  | O => None
  | S last' =>
      p <~ nth_error a pivot ;;
      x <~ nth_error a last' ;;
      if comp p x then scan_down a last' pivot else Some last'
  end.

(** The loop [while (true)] of [__unguarded_partition]; every turn but the
    last moves [first] up, and [steps] bounds the number of turns. *)
Fixpoint unguarded_partition_loop (steps : nat) (a : list A)
  (first last pivot : nat) : option (list A * nat) :=
  match steps with
  | O => None
  | S steps' =>
      first <~ scan_up (List.length a - first) a first pivot ;;
      last <~ scan_down a last pivot ;;
      if negb (first <? last) then Some (a, first)
      else
        a <~ iter_swap a first last ;;
        unguarded_partition_loop steps' a (first + 1) last pivot
  end.

Definition __unguarded_partition (a : list A) (first last pivot : nat)
  : option (list A * nat) :=
  unguarded_partition_loop (List.length a + 1) a first last pivot.

(** [__unguarded_partition_pivot]. *)
Definition __unguarded_partition_pivot (a : list A) (first last : nat)
  : option (list A * nat) :=
  let mid := first + (last - first) / 2 in
  a <~ __move_median_to_first a first (first + 1) mid (last - 1) ;;
  __unguarded_partition a (first + 1) last first.

(** ** bits/stl_heap.h *)

(** [__push_heap]; the hole moves up, at most [holeIndex] times. *)
Fixpoint push_heap_loop (steps : nat) (a : list A)
  (first holeIndex topIndex : nat) (value : A) : option (list A) :=
  match steps with
  | O => None
  | S steps' =>
      let parent := (holeIndex - 1) / 2 in
      if topIndex <? holeIndex then
        p <~ nth_error a (first + parent) ;;
        if comp p value then
          a <~ assign a (first + holeIndex) p ;;
          push_heap_loop steps' a first parent topIndex value
        else assign a (first + holeIndex) value
      else assign a (first + holeIndex) value
  end.

Definition __push_heap (a : list A) (first holeIndex topIndex : nat)
  (value : A) : option (list A) :=
  push_heap_loop (holeIndex + 1) a first holeIndex topIndex value.

(** The first loop of [__adjust_heap]: the hole moves down to the larger
    child, at most [len] times. *)
Fixpoint adjust_heap_loop (steps : nat) (a : list A)
  (first holeIndex secondChild len : nat) : option (list A * nat * nat) :=
  match steps with
  | O => None
  | S steps' =>
      if secondChild <? (len - 1) / 2 then
        let secondChild := 2 * (secondChild + 1) in
        x <~ nth_error a (first + secondChild) ;;
        y <~ nth_error a (first + (secondChild - 1)) ;;
        let secondChild := if comp x y then secondChild - 1 else secondChild in
        z <~ nth_error a (first + secondChild) ;;
        a <~ assign a (first + holeIndex) z ;;
        adjust_heap_loop steps' a first secondChild secondChild len
      else Some (a, holeIndex, secondChild)
  end.

(** [__adjust_heap]. *)
Definition __adjust_heap (a : list A) (first holeIndex len : nat) (value : A)
  : option (list A) :=
  let topIndex := holeIndex in
  let secondChild := holeIndex in
  '(a, holeIndex, secondChild) <~
     adjust_heap_loop (len + 1) a first holeIndex secondChild len ;;
  '(a, holeIndex) <~
     (if (len mod 2 =? 0) && (secondChild =? (len - 2) / 2) then
        let secondChild := 2 * (secondChild + 1) in
        x <~ nth_error a (first + (secondChild - 1)) ;;
        a <~ assign a (first + holeIndex) x ;;
        Some (a, secondChild - 1)
      else Some (a, holeIndex)) ;;
  __push_heap a first holeIndex topIndex value.

(** [__pop_heap]. *)
Definition __pop_heap (a : list A) (first last result : nat)
  : option (list A) :=
  value <~ nth_error a result ;;
  x <~ nth_error a first ;;
  a <~ assign a result x ;;
  __adjust_heap a first 0 (last - first) value.

(** [__make_heap]: the loop, from [parent] down to 0. *)
Fixpoint make_heap_loop (a : list A) (first len parent : nat) {struct parent}
  : option (list A) :=
  value <~ nth_error a (first + parent) ;;
  a <~ __adjust_heap a first parent len value ;;
  match parent with
  | O => Some a
  | S parent' => make_heap_loop a first len parent'
  end.

Definition __make_heap (a : list A) (first last : nat) : option (list A) :=
  if last - first <? 2 then Some a
  else
    let len := last - first in
    make_heap_loop a first len ((len - 2) / 2).

(** [__sort_heap]; [n] is [last - first]. *)
Fixpoint sort_heap_loop (a : list A) (first n : nat) : option (list A) :=
  match n with
  | O => Some a
  | S n' =>
      if 1 <? n then
        a <~ __pop_heap a first (first + n') (first + n') ;;
        sort_heap_loop a first n'
      else Some a
  end.

Definition __sort_heap (a : list A) (first last : nat) : option (list A) :=
  sort_heap_loop a first (last - first).

(** [__heap_select]: the loop over [i], [n] positions to go. *)
Fixpoint heap_select_loop (a : list A) (first middle i n : nat)
  : option (list A) :=
  match n with
  | O => Some a
  | S n' =>
      x <~ nth_error a i ;;
      f <~ nth_error a first ;;
      a <~ (if comp x f then __pop_heap a first middle i else Some a) ;;
      heap_select_loop a first middle (i + 1) n'
  end.

Definition __heap_select (a : list A) (first middle last : nat)
  : option (list A) :=
  a <~ __make_heap a first middle ;;
  heap_select_loop a first middle middle (last - middle).

(** [__partial_sort]. *)
Definition __partial_sort (a : list A) (first middle last : nat)
  : option (list A) :=
  a <~ __heap_select a first middle last ;;
  __sort_heap a first middle.

(** [__introsort_loop]; the loop [while] with [last = cut] is the second
    recursive call. *)
Fixpoint __introsort_loop (a : list A) (first last depth_limit : nat)
  : option (list A) :=
  if _S_threshold <? last - first then
    match depth_limit with
    | O => __partial_sort a first last last
    | S depth_limit =>
        '(a, cut) <~ __unguarded_partition_pivot a first last ;;
        a <~ __introsort_loop a cut last depth_limit ;;
        __introsort_loop a first cut depth_limit
    end
  else Some a.

(** [__sort]; [__lg] is the position of the highest bit. *)
Definition __lg (n : nat) : nat := Nat.log2 n.

Definition __sort (a : list A) (first last : nat) : option (list A) :=
  if first =? last then Some a
  else
    a <~ __introsort_loop a first last (__lg (last - first) * 2) ;;
    __final_insertion_sort a first last.

(** [std::sort(v.begin(), v.end(), comp)]. *)
Definition std_sort (v : list A) : option (list A) :=
  __sort v 0 (List.length v).

End StdSort.

(* ================================================================== *)
(** * main.cpp: the run over the files *)

(** The lambda that [main] hands to [std::sort]. *)
Definition ranking_comp (a b : FileMetrics) : bool :=
  Qltb (shit_mountain_index b) (shit_mountain_index a).

(** A range in the order of [comp]: for positions [i < j],
    [comp(r[j], r[i])] is false. *)
Definition is_sorted {A : Type} (comp : A -> A -> bool) (l : list A) : Prop :=
  forall (i j : nat) (x y : A),
    (i < j)%nat -> nth_error l i = Some x -> nth_error l j = Some y ->
    comp y x = false.

Section External.

(** The tree-sitter runtime: [ts_parser_parse_string] for a grammar and a
    source text ([None] is the null tree), and [ts_node_has_error]. *)
Variable ts_parser_parse_string : TSLanguage -> string -> option Tree.
Variable ts_node_has_error : Tree -> bool.

(** The file system: the bytes of the file at a path, when
    [std::ifstream] opens it. *)
Variable read_file : string -> option string.

(** [Parser::parse]: the verdict and the parser afterwards. *)
Definition parse (p : Parser) (sourceCode language : string)
  : bool * Parser :=
  match getLanguage language with
  | None => (false, p)
  | Some tsLanguage =>
      let p := mkParser (ts_parser_parse_string tsLanguage sourceCode) in
      (match tree p with
       | Some t => negb (ts_node_has_error t)
       | None => false
       end, p)
  end.

(** main.cpp, [analyzeFile]. *)
Definition analyzeFile (filePath : string) : result FileMetrics :=
  let language := getLanguageFromFile filePath in
  if String.eqb language "unsupported" then Ok FileMetrics_default
  else
    match read_file filePath with
    | None => Ok FileMetrics_default
    | Some sourceCode =>
        let (ok, parser) := parse Parser_new sourceCode language in
        if ok then
          match getRootNode parser with
          | None => Throw null_node
          | Some root =>
              match createStrategy language with
              | None => Ok FileMetrics_default
              | Some strategy =>
                  analyze (Some strategy) root filePath sourceCode
              end
          end
        else Ok FileMetrics_default
    end.

(** main.cpp, the loop of [main] over the regular files found under the
    path, appending to [all_metrics]. *)
Fixpoint main_loop (entries : list string) (all_metrics : list FileMetrics)
  : result (list FileMetrics) :=
  match entries with
  | [] => Ok all_metrics
  | entry :: entries' =>
      res <- analyzeFile entry ;;
      let all_metrics :=
        if negb (String.length (file_path res) =? 0)%nat
        then (all_metrics ++ [res])%list
        else all_metrics in
      main_loop entries' all_metrics
  end.

(** main.cpp, [main] from the loop to the sorted [all_metrics], as the
    reports are printed; [None] stands for a sort that leaves the vector. *)
Definition main_ranking (entries : list string)
  : result (option (list FileMetrics)) :=
  all_metrics <- main_loop entries [] ;;
  Ok (std_sort ranking_comp all_metrics).

End External.

(* ================================================================== *)
(** * The policies of the scoring model, as the specification words them

    Section 4.3 of the specification states the two policies with the
    mathematical [min], [max] and absolute value, over the raw metrics of
    the file. *)

Module Spec.

#[local] Open Scope Q_scope.

Definition naming_score (naming_violations : Z) : Q :=
  Qmax 0 (100 - inject_Z naming_violations * 5).

(** Policy A, no functions. *)
Definition PolicyA (comment_coverage_ratio : Q) (naming_violations : Z) : Q :=
  let comment_score := Qmin 100 ((comment_coverage_ratio / 30) * 100) in
  let quality :=
    comment_score * (7 # 10) + naming_score naming_violations * (3 # 10) in
  100 - quality.

(** Policy B, has functions. *)
Definition PolicyB (avg_complexity avg_length comment_coverage_ratio : Q)
  (naming_violations : Z) : Q :=
  let complexity_score :=
    Qmax 0 (100 - (avg_complexity - 1) / (20 - 1) * 100) in
  let length_score := Qmax 0 (100 - (avg_length - 10) / (100 - 10) * 100) in
  let comment_score :=
    Qmax 0 (100 - Qabs (comment_coverage_ratio - 15) / 15 * 100) in
  let quality :=
    complexity_score * (50 # 100) + length_score * (15 # 100) +
    comment_score * (15 # 100) + naming_score naming_violations * (20 # 100) in
  100 - quality.

End Spec.

(* ================================================================== *)
(** * Vocabulary for the statements *)

(** All nodes of a subtree, the node itself first, in pre-order. *)
Fixpoint subnodes_at (anc : list Tree) (t : Tree) {struct t} : list TSNode :=
  match t with
  | Node i cs =>
      (anc, t) ::
      (fix loop (l : list Tree) : list TSNode :=
         match l with
         | [] => []
         | c :: l' => (subnodes_at (t :: anc) c ++ loop l')%list
         end) cs
  end.

Definition subnodes (node : TSNode) : list TSNode :=
  subnodes_at (fst node) (snd node).

Definition sumZ (l : list Z) : Z := fold_right Z.add 0 l.

(** Is the node of one of the function-definition types of the strategy? *)
Definition is_function_node (s : LanguageStrategy) (node : TSNode) : bool :=
  contains (getFunctionDefinitionTypes s) (ts_node_type node).

(** The one point that every function-definition node adds at the end of
    [calculateComplexity]. *)
Definition base_point (s : LanguageStrategy) (node : TSNode) : Z :=
  if is_function_node s node then 1 else 0.

(** The newline byte. *)
Definition nl : string := String "010"%char EmptyString.

Definition mk (ty : string) (fld : option string) (sb eb sr er : Z)
  (cs : list Tree) : Tree :=
  Node (mkInfo ty fld sb eb sr er) cs.

(** An anonymous token, on one row. *)
Definition tok (ty : string) (sb eb row : Z) : Tree :=
  mk ty None sb eb row row [].

(** ** A C file of twenty lines: three comment lines, sixteen empty lines
    and [int main(){return 0;}] on the last one. *)

Definition one_liner_source : string :=
  "//a" ++ nl ++ "//b" ++ nl ++ "//c" ++ nl ++
  nl ++ nl ++ nl ++ nl ++ nl ++ nl ++ nl ++ nl ++
  nl ++ nl ++ nl ++ nl ++ nl ++ nl ++ nl ++ nl ++
  "int main(){return 0;}".

Definition one_liner_tree : Tree :=
  mk "translation_unit" None 0 49 0 19
    [ mk "comment" None 0 3 0 0 [];
      mk "comment" None 4 7 1 1 [];
      mk "comment" None 8 11 2 2 [];
      mk "function_definition" None 28 49 19 19
        [ mk "primitive_type" (Some "type") 28 31 19 19 [];
          mk "function_declarator" (Some "declarator") 32 38 19 19
            [ mk "identifier" (Some "declarator") 32 36 19 19 [];
              mk "parameter_list" (Some "parameters") 36 38 19 19
                [ tok "(" 36 37 19; tok ")" 37 38 19 ] ];
          mk "compound_statement" (Some "body") 38 49 19 19
            [ tok "{" 38 39 19;
              mk "return_statement" None 39 48 19 19
                [ tok "return" 39 45 19;
                  mk "number_literal" None 46 47 19 19 [];
                  tok ";" 47 48 19 ];
              tok "}" 48 49 19 ] ] ].

(** ** A JavaScript function that returns an arrow function:
    [function outer(){return ()=>1;}]. *)

Definition nested_function_source : string :=
  "function outer(){return ()=>1;}".

Definition nested_function_tree : Tree :=
  mk "function_declaration" None 0 31 0 0
    [ tok "function" 0 8 0;
      mk "identifier" (Some "name") 9 14 0 0 [];
      mk "formal_parameters" (Some "parameters") 14 16 0 0
        [ tok "(" 14 15 0; tok ")" 15 16 0 ];
      mk "statement_block" (Some "body") 16 31 0 0
        [ tok "{" 16 17 0;
          mk "return_statement" None 17 30 0 0
            [ tok "return" 17 23 0;
              mk "arrow_function" None 24 29 0 0
                [ mk "formal_parameters" (Some "parameters") 24 26 0 0
                    [ tok "(" 24 25 0; tok ")" 25 26 0 ];
                  tok "=>" 26 28 0;
                  mk "number" (Some "body") 28 29 0 0 [] ];
              tok ";" 29 30 0 ];
          tok "}" 30 31 0 ] ].

Definition nested_function_program : Tree :=
  mk "program" None 0 31 0 0 [nested_function_tree].

(** The function declaration, as a node of its program. *)
Definition nested_function_node : TSNode :=
  ([nested_function_program], nested_function_tree).

(** ** A Python function-definition node without a [name] field. *)



(** Does no ancestor of the node have a function-definition type? *)
Definition outside_functions (s : LanguageStrategy) (anc : list Tree) : bool :=
  forallb
    (fun a => negb (contains (getFunctionDefinitionTypes s) (type (info_of a))))
    anc.

(** The nodes that function discovery records: function-definition nodes
    that are not special and lie in no other function-definition node. *)
Definition emits (s : LanguageStrategy) (h : TSNode) : bool :=
  is_function_node s h && negb (isSpecialFunction s h) &&
  outside_functions s (fst h).

(** A loop over a list that threads a state and stops at an exception. *)
Fixpoint foldM {A S : Type} (f : A -> S -> result S) (l : list A) (st : S)
  : result S :=
  match l with
  | [] => Ok st
  | a :: l' => st <- f a st ;; foldM f l' st
  end.

(** [analyzeSingleFunction] on each node of a list, in order. *)
Fixpoint analyzeEach (s : LanguageStrategy) (sourceCode : string)
  (nodes : list TSNode) (metrics : FileMetrics) : result FileMetrics :=
  match nodes with
  | [] => Ok metrics
  | h :: nodes' =>
      metrics <- analyzeSingleFunction s h metrics sourceCode ;;
      analyzeEach s sourceCode nodes' metrics
  end.

(** [prune s nested anc t t']: the tree [t'] is [t], found under the
    ancestors [anc], without one of its special function-definition nodes.
    With [nested = false] the node removed lies in no function-definition
    node of [t]. *)
Inductive prune (s : LanguageStrategy) (nested : bool) (anc : list Tree)
  : Tree -> Tree -> Prop :=
| prune_child (i : NodeInfo) (pre post : list Tree) (e : Tree) :
    nested = true \/ contains (getFunctionDefinitionTypes s) (type i) = false ->
    is_function_node s (Node i (pre ++ e :: post) :: anc, e) = true ->
    isSpecialFunction s (Node i (pre ++ e :: post) :: anc, e) = true ->
    prune s nested anc (Node i (pre ++ e :: post)) (Node i (pre ++ post))
| prune_below (i : NodeInfo) (pre post : list Tree) (c c' : Tree) :
    nested = true \/ contains (getFunctionDefinitionTypes s) (type i) = false ->
    prune s nested (Node i (pre ++ c :: post) :: anc) c c' ->
    prune s nested anc (Node i (pre ++ c :: post)) (Node i (pre ++ c' :: post)).

(** ** A C++ function with a local class:
    [void run(){struct Guard{~Guard(){if(flag){}}};}], the members of the
    class being a parameter. *)

Definition guard_destructor : Tree :=
  mk "function_definition" None 24 44 0 0
    [ mk "function_declarator" (Some "declarator") 24 32 0 0
        [ mk "destructor_name" (Some "declarator") 24 30 0 0
            [ tok "~" 24 25 0; mk "identifier" None 25 30 0 0 [] ];
          mk "parameter_list" (Some "parameters") 30 32 0 0
            [ tok "(" 30 31 0; tok ")" 31 32 0 ] ];
      mk "compound_statement" (Some "body") 32 44 0 0
        [ tok "{" 32 33 0;
          mk "if_statement" None 33 43 0 0
            [ tok "if" 33 35 0;
              mk "condition_clause" (Some "condition") 35 41 0 0
                [ tok "(" 35 36 0;
                  mk "identifier" (Some "value") 36 40 0 0 [];
                  tok ")" 40 41 0 ];
              mk "compound_statement" (Some "consequence") 41 43 0 0
                [ tok "{" 41 42 0; tok "}" 42 43 0 ] ];
          tok "}" 43 44 0 ] ].

Definition local_class_source : string :=
  "void run(){struct Guard{~Guard(){if(flag){}}};}".

Definition local_class_tree (members : list Tree) : Tree :=
  mk "translation_unit" None 0 47 0 0
    [ mk "function_definition" None 0 47 0 0
        [ mk "primitive_type" (Some "type") 0 4 0 0 [];
          mk "function_declarator" (Some "declarator") 5 10 0 0
            [ mk "identifier" (Some "declarator") 5 8 0 0 [];
              mk "parameter_list" (Some "parameters") 8 10 0 0
                [ tok "(" 8 9 0; tok ")" 9 10 0 ] ];
          mk "compound_statement" (Some "body") 10 47 0 0
            [ tok "{" 10 11 0;
              mk "struct_specifier" None 11 45 0 0
                [ tok "struct" 11 17 0;
                  mk "type_identifier" (Some "name") 18 23 0 0 [];
                  mk "field_declaration_list" (Some "body") 23 45 0 0
                    (tok "{" 23 24 0 :: members ++ [tok "}" 44 45 0]) ];
              tok ";" 45 46 0;
              tok "}" 46 47 0 ] ] ].

(** ** A C++ file that defines a destructor out of its class and a plain
    function: [Guard::~Guard(){}int main(){return 0;}], the special
    definitions of the file being a parameter. *)

Definition out_of_class_destructor : Tree :=
  mk "function_definition" None 0 17 0 0
    [ mk "function_declarator" (Some "declarator") 0 15 0 0
        [ mk "qualified_identifier" (Some "declarator") 0 13 0 0
            [ mk "namespace_identifier" (Some "scope") 0 5 0 0 [];
              tok "::" 5 7 0;
              mk "destructor_name" (Some "name") 7 13 0 0
                [ tok "~" 7 8 0; mk "identifier" None 8 13 0 0 [] ] ];
          mk "parameter_list" (Some "parameters") 13 15 0 0
            [ tok "(" 13 14 0; tok ")" 14 15 0 ] ];
      mk "compound_statement" (Some "body") 15 17 0 0
        [ tok "{" 15 16 0; tok "}" 16 17 0 ] ].

Definition plain_main : Tree :=
  mk "function_definition" None 17 38 0 0
    [ mk "primitive_type" (Some "type") 17 20 0 0 [];
      mk "function_declarator" (Some "declarator") 21 27 0 0
        [ mk "identifier" (Some "declarator") 21 25 0 0 [];
          mk "parameter_list" (Some "parameters") 25 27 0 0
            [ tok "(" 25 26 0; tok ")" 26 27 0 ] ];
      mk "compound_statement" (Some "body") 27 38 0 0
        [ tok "{" 27 28 0;
          mk "return_statement" None 28 37 0 0
            [ tok "return" 28 34 0;
              mk "number_literal" None 35 36 0 0 [];
              tok ";" 36 37 0 ];
          tok "}" 37 38 0 ] ].

Definition destructor_file_source : string :=
  "Guard::~Guard(){}int main(){return 0;}".

Definition destructor_file_tree (special : list Tree) : Tree :=
  mk "translation_unit" None 0 38 0 0 (special ++ [plain_main]).

(** The strategies of C and C++ files. *)
Definition c_like (s : LanguageStrategy) : Prop :=
  s = CStrategy \/ s = CppStrategy.

(** The fields of a report that depend on the functions alone. *)
Definition function_view (m : FileMetrics) : list FunctionMetric * Q * Q :=
  (functions m, avg_function_length m, avg_function_complexity m).

(** [x] occurs before [y] in [l]. *)
Definition precedes {A : Type} (l : list A) (x y : A) : Prop :=
  exists l1 l2 l3, l = (l1 ++ x :: l2 ++ y :: l3)%list.

(** Reports with equal index keep in [ranked] the order they have in
    [discovered]. *)
Definition ties_keep_order (discovered ranked : list FileMetrics) : Prop :=
  forall a b,
    (shit_mountain_index a == shit_mountain_index b)%Q ->
    precedes discovered a b -> precedes ranked a b.

(** ** An environment with empty Python files: every file reads as the
    empty text, and the parser answers with an empty [module]. *)

Definition empty_module : Tree := mk "module" None 0 0 0 0 [].

Definition empty_files_parse (_ : TSLanguage) (_ : string) : option Tree :=
  Some empty_module.

Definition empty_files_read (_ : string) : option string := Some "".

Definition no_error (_ : Tree) : bool := false.

(** The report of an empty file. *)
Definition empty_report (path : string) : FileMetrics :=
  calculateFinalScore (mkFileMetrics path [] 0 0 1 0 0 0 0).

(** ** An environment whose parser finds a syntax error in every file. *)

Definition error_tree : Tree :=
  mk "module" None 0 1 0 0 [ mk "ERROR" None 0 1 0 0 [ tok "(" 0 1 0 ] ].

Definition broken_files_parse (_ : TSLanguage) (_ : string) : option Tree :=
  Some error_tree.

Definition broken_files_read (_ : string) : option string := Some "(".

Definition error_flag (t : Tree) : bool :=
  hasChildOfTypeRecursive_at t "ERROR".

(** Does every node of the tree start inside the source text?  Trees that
    tree-sitter builds from the text do. *)
Fixpoint spans_inside (source : string) (t : Tree) {struct t} : bool :=
  match t with
  | Node i cs =>
      (start_byte i <=? Z.of_nat (String.length source)) &&
      forallb (spans_inside source) cs
  end.

(** Is the node of the given type? *)
Definition has_type (ty : string) (h : TSNode) : bool :=
  String.eqb (ts_node_type h) ty.

(** A function that may throw, on each element of a list, in order. *)
Fixpoint mapM {A B : Type} (f : A -> result B) (l : list A)
  : result (list B) :=
  match l with
  | [] => Ok []
  | a :: l' => b <- f a ;; bs <- mapM f l' ;; Ok (b :: bs)
  end.

(** The record that [analyzeSingleFunction] appends for a node. *)
Definition record_of (s : LanguageStrategy) (sourceCode : string)
  (funcNode : TSNode) : result FunctionMetric :=
  let line_start := int_of_uint32 (uint32 (ts_node_start_row funcNode + 1)) in
  let line_end := int_of_uint32 (uint32 (ts_node_end_row funcNode + 1)) in
  name <- extractFunctionName s funcNode sourceCode ;;
  Ok (mkFunctionMetric
        (if (String.length name =? 0)%nat then "[anonymous/unknown]" else name)
        line_start line_end (line_end - line_start + 1)
        (calculateComplexity s funcNode)).

(** The rows that a node covers: last row minus first row plus one. *)
Definition rows_of (h : TSNode) : Z :=
  ts_node_end_row h - ts_node_start_row h + 1.

(** Is the value one that an [int] holds? *)
Definition in_int_range (z : Z) : Prop := - 2 ^ 31 <= z < 2 ^ 31.

(** The names that [analyzeNaming] counts as violations. *)
Definition short_name (name : string) : bool :=
  (String.length name <=? 2)%nat && negb (contains whitelist name).

(** [comment_lines += end.row - start.row + 1] for one comment node. *)
Definition add_comment_rows (comment_lines : Z) (h : TSNode) : Z :=
  int_of_uint32
    (uint32 (comment_lines +
             uint32 (uint32 (ts_node_end_row h - ts_node_start_row h) + 1))).

(** [naming_violations] raised by the number of short names among the
    texts. *)
Definition add_violations (m : FileMetrics) (texts : list string)
  : FileMetrics :=
  set_naming_violations m
    (naming_violations m + Z.of_nat (List.length (filter short_name texts))).

(** Does [main] keep the result that [analyzeFile] gave for an entry? *)
Definition reported (res : result FileMetrics) : bool :=
  match res with
  | Ok r => negb (String.length (file_path r) =? 0)%nat
  | Throw _ => false
  end.

(** ** An environment whose parser answers with a tree that has an
    identifier beyond the end of the (empty) text. *)

Definition overrun_tree : Tree :=
  mk "module" None 0 0 0 0 [ mk "identifier" None 5 6 0 0 [] ].

Definition overrun_parse (_ : TSLanguage) (_ : string) : option Tree :=
  Some overrun_tree.

(* ================================================================== *)
(** * main.cpp: [ends_with] *)

(** [std::equal(first1, last1, first2)]: every element of the first range
    equals the element at the same place of the range that starts at
    [first2].  The second range is at least as long as the first wherever
    the program calls it. *)
Fixpoint std_equal (range1 range2 : list ascii) : bool :=
  match range1 with
  | [] => true
  | a :: range1' =>
      match range2 with
      | b :: range2' => if Ascii.eqb a b then std_equal range1' range2' else false
      | [] => false
      end
  end.

(** [ends_with]: the comparison runs over the reverse iterators of both
    strings. *)
Definition ends_with (value ending : string) : bool :=
  if (String.length value <? String.length ending)%nat then false
  else std_equal (rev (list_ascii_of_string ending))
                 (rev (list_ascii_of_string value)).

(** ** The vocabulary of the properties of [std::sort] *)

Section StdSortVocabulary.

#[local] Open Scope nat_scope.
#[local] Open Scope list_scope.

Context {A : Type}.
Variable comp : A -> A -> bool.

(** The vector after [*(i) = x]. *)
Definition upd (a : list A) (i : nat) (x : A) : list A :=
  firstn i a ++ x :: skipn (S i) a.

(** [a'] differs from [a] in the range [lo, hi) at most. *)
Definition same_outside (a a' : list A) (lo hi : nat) : Prop :=
  List.length a' = List.length a /\
  forall k, k < lo \/ hi <= k -> nth_error a' k = nth_error a k.

(** [comp(a[i], a[j])] is false, for the slots that exist. *)
Definition not_before (a : list A) (i j : nat) : Prop :=
  forall x y, nth_error a i = Some x -> nth_error a j = Some y ->
              comp x y = false.

(** Insertion from the right end, on the reversed list: [val] goes behind
    the elements that [comp] puts after it. *)
Fixpoint insert_rev (val : A) (rl : list A) : list A :=
  match rl with
  | [] => [val]
  | x :: rl' => if comp val x then x :: insert_rev val rl' else val :: x :: rl'
  end.

Definition insert_right (val : A) (l : list A) : list A :=
  rev (insert_rev val (rev l)).

(** The insertion sort that takes the elements from left to right. *)
Definition insertion_sorted (l : list A) : list A :=
  fold_left (fun s val => insert_right val s) l [].

(** The order of [comp] on a list. *)
Definition ordered (l : list A) : Prop :=
  StronglySorted (fun x y => comp y x = false) l.

(** What the insertion sort at the end of [__sort] relies on: from the
    position [lo + 16] on, every element of the range has before it, in the
    range, an element that [comp] does not put after it. *)
Definition guarded_from (a : list A) (lo hi : nat) : Prop :=
  forall i x,
    lo + 16 <= i -> i < hi -> nth_error a i = Some x ->
    exists j y, lo <= j /\ j < i /\ nth_error a j = Some y /\ comp x y = false.

(** The heap of [len] elements that starts at [first]: the parent
    [(k - 1) / 2] of a slot [k] does not go before the slot, for the parents
    at [p] and beyond. *)
Definition heap_from (a : list A) (first len p : nat) : Prop :=
  forall k x y,
    1 <= k -> k < len -> p <= (k - 1) / 2 ->
    nth_error a (first + (k - 1) / 2) = Some x ->
    nth_error a (first + k) = Some y ->
    comp x y = false.

(** The slots of the heap below the slot [p]. *)
Inductive below (p : nat) : nat -> Prop :=
  | below_refl : below p p
  | below_left h : below p h -> below p (2 * h + 1)
  | below_right h : below p h -> below p (2 * h + 2).

(** The heap while [__adjust_heap] works below [p], with a hole at [h]: the
    order holds where the hole is not concerned, and the parent of the hole
    does not go before the children of the hole. *)
Definition hole_inv (a : list A) (first len p h : nat) : Prop :=
  p <= h /\ h < len /\ below p h /\
  (forall k x y,
     1 <= k -> k < len -> p <= (k - 1) / 2 -> k <> h -> (k - 1) / 2 <> h ->
     nth_error a (first + (k - 1) / 2) = Some x ->
     nth_error a (first + k) = Some y ->
     comp x y = false) /\
  (h <> p ->
   forall c x y,
     1 <= c -> c < len -> (c - 1) / 2 = h ->
     nth_error a (first + (h - 1) / 2) = Some x ->
     nth_error a (first + c) = Some y ->
     comp x y = false).

(** The value in hand does not go before the children of the hole. *)
Definition above_children (a : list A) (first len h : nat) (value : A)
  : Prop :=
  forall c y,
    1 <= c -> c < len -> (c - 1) / 2 = h ->
    nth_error a (first + c) = Some y -> comp value y = false.

End StdSortVocabulary.

(** Does [x] occur before [y] in a list of paths? *)
Fixpoint occurs_before (l : list string) (x y : string) : bool :=
  match l with
  | [] => false
  | z :: l' =>
      (String.eqb z x && existsb (String.eqb y) l') || occurs_before l' x y
  end.

(** ** An environment with Python files of one line: [b.py] is empty, the
    other files hold one comment. *)

Definition comment_module : Tree :=
  mk "module" None 0 3 0 0 [ mk "comment" None 0 3 0 0 [] ].

Definition noted_files_read (path : string) : option string :=
  if String.eqb path "b.py" then Some "" else Some "# a".

Definition noted_files_parse (_ : TSLanguage) (sourceCode : string)
  : option Tree :=
  if String.eqb sourceCode "" then Some empty_module else Some comment_module.

(** The report of a file that holds one comment. *)
Definition comment_report (path : string) : FileMetrics :=
  calculateFinalScore (mkFileMetrics path [] 0 0 1 1 0 0 0).

(** Seventeen files, in the order in which they are found. *)
Definition seventeen_files : list string :=
  ["f01.py"; "f02.py"; "f03.py"; "f04.py"; "f05.py"; "f06.py"; "f07.py";
   "f08.py"; "f09.py"; "f10.py"; "f11.py"; "f12.py"; "f13.py"; "f14.py";
   "f15.py"; "f16.py"; "f17.py"].

(* ================================================================== *)
(** * Properties of the scoring model *)

Lemma Qltb_true (a b : Q) : Qltb a b = true <-> (a < b)%Q.
Proof.
  unfold Qltb. rewrite negb_true_iff.
  destruct (Qle_bool b a) eqn:E.
  - apply Qle_bool_iff in E. split; [discriminate | intro H; lra].
  - split; [intros _ | reflexivity].
    destruct (Qlt_le_dec a b) as [H | H]; [exact H |].
    apply Qle_bool_iff in H. congruence.
Qed.

Lemma Qltb_false (a b : Q) : Qltb a b = false <-> (b <= a)%Q.
Proof.
  unfold Qltb. rewrite negb_false_iff. apply Qle_bool_iff.
Qed.

Lemma std_max_cases (a b : Q) :
  ((a < b)%Q /\ std_max a b = b) \/ ((b <= a)%Q /\ std_max a b = a).
Proof.
  unfold std_max. destruct (Qltb a b) eqn:E.
  - left. split; [now apply Qltb_true | reflexivity].
  - right. split; [now apply Qltb_false | reflexivity].
Qed.

Lemma std_min_cases (a b : Q) :
  ((b < a)%Q /\ std_min a b = b) \/ ((a <= b)%Q /\ std_min a b = a).
Proof.
  unfold std_min. destruct (Qltb b a) eqn:E.
  - left. split; [now apply Qltb_true | reflexivity].
  - right. split; [now apply Qltb_false | reflexivity].
Qed.

Lemma std_max_Qmax (a b : Q) : (std_max a b == Qmax a b)%Q.
Proof.
  destruct (std_max_cases a b) as [[H ->] | [H ->]].
  - symmetry. apply Q.max_r. lra.
  - symmetry. apply Q.max_l. exact H.
Qed.

Lemma std_min_Qmin (a b : Q) : (std_min a b == Qmin a b)%Q.
Proof.
  destruct (std_min_cases a b) as [[H ->] | [H ->]].
  - symmetry. apply Q.min_r. lra.
  - symmetry. apply Q.min_l. exact H.
Qed.

Lemma std_max_lower (a b : Q) : (a <= std_max a b)%Q.
Proof. destruct (std_max_cases a b) as [[H ->] | [H ->]]; lra. Qed.

Lemma std_max_mono (a b b' : Q) :
  (b <= b')%Q -> (std_max a b <= std_max a b')%Q.
Proof.
  intros H.
  destruct (std_max_cases a b) as [[H1 ->] | [H1 ->]];
    destruct (std_max_cases a b') as [[H2 ->] | [H2 ->]]; lra.
Qed.

(** C8: an average complexity of 1 scores exactly 100, an average
    complexity of 20 or more scores exactly 0. *)
Theorem complexity_score_boundary (avg : Q) :
  ((avg == 1)%Q -> (complexity_score avg == 100)%Q) /\
  ((20 <= avg)%Q -> complexity_score avg = 0%Q).
Proof.
  unfold complexity_score. split; intros H.
  - destruct (std_max_cases 0 (100 - (avg - 1) / (20 - 1) * 100))
      as [[H1 ->] | [H1 ->]].
    + rewrite H. reflexivity.
    + rewrite H in H1. exfalso. revert H1. vm_compute. intros H1. now apply H1.
  - destruct (std_max_cases 0 (100 - (avg - 1) / (20 - 1) * 100))
      as [[H1 E] | [H1 ->]]; [| reflexivity].
    exfalso.
    assert (E19 : (20 - 1 == 19)%Q) by reflexivity.
    rewrite E19 in H1.
    assert (H2 : (1 <= (avg - 1) / 19)%Q).
    { apply Qle_shift_div_l; lra. }
    lra.
Qed.

Lemma complexity_score_boundary_witness :
  (complexity_score 1 == 100)%Q /\ complexity_score 25 = 0%Q.
Proof.
  split.
  - apply (proj1 (complexity_score_boundary 1)). reflexivity.
  - apply (proj2 (complexity_score_boundary 25)). vm_compute. discriminate.
Defined.

Lemma Qdiv_le_compat_r (a b c : Q) :
  (0 < c)%Q -> (a <= b)%Q -> (a / c <= b / c)%Q.
Proof.
  intros Hc Hab. unfold Qdiv. apply Qmult_le_compat_r; [exact Hab |].
  apply Qlt_le_weak. apply Qinv_lt_0_compat. exact Hc.
Qed.

(** C7: the complexity score never grows with the average complexity, nor
    the length score with the average length. *)
Theorem score_monotone (a b : Q) :
  (a <= b)%Q ->
  (complexity_score b <= complexity_score a)%Q /\
  (length_score b <= length_score a)%Q.
Proof.
  intros H. unfold complexity_score, length_score.
  split; apply std_max_mono.
  - assert (E : (20 - 1 == 19)%Q) by reflexivity. rewrite E.
    assert (H1 : ((a - 1) / 19 <= (b - 1) / 19)%Q).
    { apply Qdiv_le_compat_r; lra. }
    lra.
  - assert (E : (100 - 10 == 90)%Q) by reflexivity. rewrite E.
    assert (H1 : ((a - 10) / 90 <= (b - 10) / 90)%Q).
    { apply Qdiv_le_compat_r; lra. }
    lra.
Qed.

Lemma score_monotone_witness :
  (complexity_score 7 <= complexity_score 3)%Q /\
  (length_score 7 <= length_score 3)%Q.
Proof. apply (score_monotone 3 7). vm_compute. discriminate. Defined.

(** The branch of [calculateFinalScore] leaves the list of functions as it
    found it. *)
Lemma functions_aggregate (m : FileMetrics) :
  functions (aggregate m) = functions m.
Proof.
  unfold aggregate.
  destruct (functions m) eqn:E; destruct (0 <? total_lines _); simpl;
    try rewrite E; reflexivity.
Qed.

Lemma naming_violations_aggregate (m : FileMetrics) :
  naming_violations (aggregate m) = naming_violations m.
Proof.
  unfold aggregate.
  destruct (functions m); destruct (0 <? total_lines _); reflexivity.
Qed.

Lemma naming_score_spec (n : Z) : (naming_score n == Spec.naming_score n)%Q.
Proof. unfold naming_score, Spec.naming_score. apply std_max_Qmax. Qed.

(** C5: the index of a file is the one of Policy A when its list of
    functions is empty and the one of Policy B otherwise, computed from the
    raw metrics that step 1 aggregated; nothing but the emptiness of the
    list chooses between the two. *)
Theorem policy_selection (m : FileMetrics) :
  let raw := aggregate m in
  (shit_mountain_index (calculateFinalScore m) ==
   match functions m with
   | [] => Spec.PolicyA (comment_coverage_ratio raw) (naming_violations raw)
   | _ :: _ =>
       Spec.PolicyB (avg_function_complexity raw) (avg_function_length raw)
         (comment_coverage_ratio raw) (naming_violations raw)
   end)%Q.
Proof.
  intros raw. unfold calculateFinalScore. fold raw.
  assert (Hf : functions raw = functions m) by apply functions_aggregate.
  destruct (functions m) as [| f fs]; rewrite Hf; simpl.
  - unfold Spec.PolicyA, comment_score_A.
    rewrite naming_score_spec, std_min_Qmin. reflexivity.
  - unfold Spec.PolicyB, complexity_score, length_score, comment_score_B,
      std_abs, COMPLEXITY_WEIGHT, LENGTH_WEIGHT, COMMENT_WEIGHT, NAMING_WEIGHT.
    rewrite naming_score_spec, !std_max_Qmax. reflexivity.
Qed.


(** The sub-scores that do stay in [0, 100] on the metrics a file can
    have, and the length score, which does so only from 10 lines on. *)
Lemma naming_score_range (violations : Z) :
  0 <= violations ->
  (0 <= naming_score violations <= 100)%Q.
Proof.
  intros H. unfold naming_score, double_of_int.
  assert (H0 : (0 <= inject_Z violations)%Q).
  { change 0%Q with (inject_Z 0). now rewrite <- Zle_Qle. }
  destruct (std_max_cases 0 (100 - inject_Z violations * 5))
    as [[H1 ->] | [H1 ->]]; lra.
Qed.

Lemma complexity_score_range (avg : Q) :
  (1 <= avg)%Q -> (0 <= complexity_score avg <= 100)%Q.
Proof.
  intros H. unfold complexity_score.
  assert (E : (20 - 1 == 19)%Q) by reflexivity.
  assert (H2 : (0 <= (avg - 1) / 19)%Q).
  { apply Qle_shift_div_l; lra. }
  destruct (std_max_cases 0 (100 - (avg - 1) / (20 - 1) * 100))
    as [[H1 ->] | [H1 ->]]; [rewrite E in H1 |- * |]; lra.
Qed.

Lemma comment_score_A_range (ratio : Q) :
  (0 <= ratio)%Q -> (0 <= comment_score_A ratio <= 100)%Q.
Proof.
  intros H. unfold comment_score_A.
  assert (H2 : (0 <= ratio / 30)%Q).
  { apply Qle_shift_div_l; lra. }
  destruct (std_min_cases 100 (ratio / 30 * 100)) as [[H1 ->] | [H1 ->]]; lra.
Qed.

Lemma comment_score_B_range (ratio : Q) :
  (0 <= comment_score_B ratio <= 100)%Q.
Proof.
  unfold comment_score_B, std_abs.
  assert (H2 : (0 <= Qabs (ratio - 15) / 15)%Q).
  { apply Qle_shift_div_l; [lra |]. rewrite Qmult_0_l. apply Qabs_nonneg. }
  destruct (std_max_cases 0 (100 - Qabs (ratio - 15) / 15 * 100))
    as [[H1 ->] | [H1 ->]]; lra.
Qed.

Lemma length_score_range (avg : Q) :
  (10 <= avg)%Q -> (0 <= length_score avg <= 100)%Q.
Proof.
  intros H. unfold length_score.
  assert (E : (100 - 10 == 90)%Q) by reflexivity.
  assert (H2 : (0 <= (avg - 10) / 90)%Q).
  { apply Qle_shift_div_l; lra. }
  destruct (std_max_cases 0 (100 - (avg - 10) / (100 - 10) * 100))
    as [[H1 ->] | [H1 ->]]; [rewrite E in H1 |- * |]; lra.
Qed.

Lemma length_score_above_100 (avg : Q) :
  (avg < 10)%Q -> (100 < length_score avg)%Q.
Proof.
  intros H. unfold length_score.
  assert (E : (100 - 10 == 90)%Q) by reflexivity.
  assert (H2 : ((avg - 10) / 90 < 0)%Q).
  { apply Qlt_shift_div_r; lra. }
  destruct (std_max_cases 0 (100 - (avg - 10) / (100 - 10) * 100))
    as [[H1 ->] | [H1 ->]]; rewrite E in H1; rewrite ?E; lra.
Qed.

Lemma length_score_range_short (avg : Q) :
  (1 <= avg)%Q -> (0 <= length_score avg <= 110)%Q.
Proof.
  intros H. unfold length_score.
  assert (E : (100 - 10 == 90)%Q) by reflexivity.
  assert (H2 : (- (1 # 10) <= (avg - 10) / 90)%Q).
  { apply Qle_shift_div_l; lra. }
  destruct (std_max_cases 0 (100 - (avg - 10) / (100 - 10) * 100))
    as [[H1 ->] | [H1 ->]]; [rewrite E in H1 |- * |]; lra.
Qed.

(** The index of a file stays in [-1.5, 100], and in [0, 100] for a file
    without functions, when the raw metrics are those of a file: no
    negative count, average complexity and length of at least 1. *)
Lemma index_range (m : FileMetrics) :
  let raw := aggregate m in
  0 <= naming_violations m ->
  (0 <= comment_coverage_ratio raw)%Q ->
  (functions m <> [] ->
   (1 <= avg_function_complexity raw)%Q /\ (1 <= avg_function_length raw)%Q) ->
  (- (3 # 2) <= shit_mountain_index (calculateFinalScore m) <= 100)%Q /\
  (functions m = [] ->
   (0 <= shit_mountain_index (calculateFinalScore m))%Q).
Proof.
  intros raw Hn Hr Hf. unfold calculateFinalScore. fold raw.
  assert (Ef : functions raw = functions m) by apply functions_aggregate.
  assert (En : naming_violations raw = naming_violations m)
    by apply naming_violations_aggregate.
  rewrite Ef, En.
  pose proof (naming_score_range (naming_violations m) Hn) as Hns.
  destruct (functions m) as [| f fs]; cbn [shit_mountain_index
    set_shit_mountain_index].
  - pose proof (comment_score_A_range (comment_coverage_ratio raw) Hr).
    split; [| intros _]; lra.
  - destruct Hf as [Hc Hl]; [discriminate |].
    pose proof (complexity_score_range _ Hc).
    pose proof (length_score_range_short _ Hl).
    pose proof (comment_score_B_range (comment_coverage_ratio raw)).
    unfold COMPLEXITY_WEIGHT, LENGTH_WEIGHT, COMMENT_WEIGHT, NAMING_WEIGHT.
    split; [lra | discriminate].
Qed.

(** C1: a C file whose only function has one line, with 15% of comment
    lines and no naming violation, gets a length score of 110 and the
    index -1.5: the length score has no upper bound at 100 for averages
    under 10 lines, and the index leaves [0, 100]. *)
Theorem one_liner_index_negative :
  exists r,
    analyze (Some CStrategy) ([], one_liner_tree) "main.c" one_liner_source
      = Ok r /\
    functions r = [mkFunctionMetric "main" 20 20 1 1] /\
    (comment_coverage_ratio r == 15)%Q /\
    naming_violations r = 0 /\
    (length_score (avg_function_length r) == 110)%Q /\
    (shit_mountain_index r == - (3 # 2))%Q.
Proof.
  eexists. split; [vm_compute; reflexivity |].
  repeat split; vm_compute; reflexivity.
Qed.

(* ================================================================== *)
(** * Properties of the complexity count *)

Lemma sumZ_app (l1 l2 : list Z) : sumZ (l1 ++ l2) = sumZ l1 + sumZ l2.
Proof. induction l1 as [| x l1 IH]; simpl; [reflexivity | rewrite IH; lia]. Qed.

Lemma sumZ_map_add {A : Type} (f g : A -> Z) (l : list A) :
  sumZ (map (fun x => f x + g x) l) = sumZ (map f l) + sumZ (map g l).
Proof. induction l as [| x l IH]; simpl; [reflexivity | rewrite IH; lia]. Qed.

Lemma sumZ_map_nonneg {A : Type} (f : A -> Z) (l : list A) :
  (forall x, 0 <= f x) -> 0 <= sumZ (map f l).
Proof.
  intros H. induction l as [| x l IH]; simpl; [lia | specialize (H x); lia].
Qed.

Lemma decision_point_range (s : LanguageStrategy) (node : TSNode) :
  0 <= decision_point s node <= 1.
Proof.
  unfold decision_point.
  destruct (contains _ _); [lia |]. destruct (isLogicalOperator s node); lia.
Qed.

Lemma base_point_range (s : LanguageStrategy) (node : TSNode) :
  0 <= base_point s node <= 1.
Proof. unfold base_point. destruct (is_function_node s node); lia. Qed.

(** [calculateComplexity] adds, over the nodes of the subtree, the decision
    point and the base point of each. *)
Lemma calculateComplexity_at_sum (s : LanguageStrategy) (t : Tree) :
  forall anc,
    calculateComplexity_at s anc t =
    sumZ (map (fun h => decision_point s h + base_point s h)
            (subnodes_at anc t)).
Proof.
  induction t as [i cs IH] using Tree_ind; intros anc.
  cbn [calculateComplexity_at subnodes_at map sumZ fold_right].
  set (f := fun h => decision_point s h + base_point s h).
  set (me := Node i cs).
  assert (L : forall acc,
    (fix loop (l : list Tree) (complexity : Z) {struct l} : Z :=
       match l with
       | [] => complexity
       | c :: l' => loop l' (complexity + calculateComplexity_at s (me :: anc) c)
       end) cs acc =
    acc + sumZ (map f
      ((fix loop (l : list Tree) : list TSNode :=
          match l with
          | [] => []
          | c :: l' => (subnodes_at (me :: anc) c ++ loop l')%list
          end) cs))).
  { clearbody me. induction IH as [| c l Hc _ IHl]; intros acc; cbn.
    - lia.
    - rewrite IHl, Hc, map_app, sumZ_app. fold f. lia. }
  rewrite L.
  match goal with
  | |- context [fold_right Z.add 0 (map f ?l)] =>
      change (fold_right Z.add 0 (map f l)) with (sumZ (map f l));
      generalize (sumZ (map f l))
  end.
  intros rest. unfold f, base_point, is_function_node, ts_node_type, me.
  cbn [snd info_of].
  destruct (contains (getFunctionDefinitionTypes s) (type i)); lia.
Qed.

Lemma subnodes_at_head (anc : list Tree) (t : Tree) :
  exists rest, subnodes_at anc t = (anc, t) :: rest.
Proof. destruct t as [i cs]. eexists. reflexivity. Qed.

Lemma sumZ_base_point_count (s : LanguageStrategy) (l : list TSNode) :
  sumZ (map (base_point s) l) =
  Z.of_nat (List.length (filter (is_function_node s) l)).
Proof.
  induction l as [| h l IH]; [reflexivity |].
  cbn [map sumZ fold_right filter]. fold (sumZ (map (base_point s) l)).
  rewrite IH. unfold base_point.
  destruct (is_function_node s h); cbn [List.length]; lia.
Qed.

(** C4 (amended): the complexity of a function node is the number of
    decision points of its subtree, each node counting at most once, plus
    one base point for the function node and one more for every other node
    of its subtree whose type is a function-definition type; it is at
    least 1. *)
Theorem calculateComplexity_function (s : LanguageStrategy) (node : TSNode) :
  is_function_node s node = true ->
  calculateComplexity s node =
    sumZ (map (decision_point s) (subnodes node)) + 1 +
    Z.of_nat (List.length (filter (is_function_node s) (tl (subnodes node))))
  /\ (forall h, In h (subnodes node) -> 0 <= decision_point s h <= 1)
  /\ 1 <= calculateComplexity s node.
Proof.
  intros Hf. unfold calculateComplexity, subnodes.
  destruct node as [anc t]. cbn [fst snd].
  rewrite calculateComplexity_at_sum, sumZ_map_add.
  destruct (subnodes_at_head anc t) as [rest E]. rewrite E.
  cbn [tl]. rewrite <- (sumZ_base_point_count s rest).
  cbn [map sumZ fold_right].
  fold (sumZ (map (decision_point s) rest)).
  fold (sumZ (map (base_point s) rest)).
  assert (Hb : base_point s (anc, t) = 1) by (unfold base_point; now rewrite Hf).
  rewrite Hb.
  pose proof (sumZ_map_nonneg (decision_point s) rest
                (fun h => proj1 (decision_point_range s h))).
  pose proof (sumZ_map_nonneg (base_point s) rest
                (fun h => proj1 (base_point_range s h))).
  pose proof (decision_point_range s (anc, t)).
  split; [lia |]. split; [| lia].
  intros h _. apply decision_point_range.
Qed.

Lemma calculateComplexity_function_witness :
  calculateComplexity JSStrategy nested_function_node = 0 + 1 + 2 /\
  1 <= calculateComplexity JSStrategy nested_function_node.
Proof.
  destruct (calculateComplexity_function JSStrategy nested_function_node)
    as [H1 [_ H2]]; [reflexivity |].
  split; [exact H1 | exact H2].
Defined.

(** C4, as stated, fails: [function outer(){return ()=>1;}] has no
    decision point and the complexity 3, one base point for the declaration,
    one for the arrow function nested in it, and one for the keyword token
    [function], whose node type is ["function"]. *)
Lemma complexity_single_base_point_fails :
  ~ (forall (s : LanguageStrategy) (node : TSNode),
       is_function_node s node = true ->
       calculateComplexity s node =
       sumZ (map (decision_point s) (subnodes node)) + 1).
Proof.
  intros H.
  specialize (H JSStrategy nested_function_node eq_refl).
  vm_compute in H. discriminate H.
Qed.

(* ================================================================== *)
(** * Properties of the traversal vocabulary *)

Lemma subnodes_at_eq (anc : list Tree) (i : NodeInfo) (cs : list Tree) :
  subnodes_at anc (Node i cs) =
  (anc, Node i cs) :: flat_map (subnodes_at (Node i cs :: anc)) cs.
Proof.
  reflexivity.
Qed.




Lemma child_by_field_name_children (node n : TSNode) (f : string) :
  ts_node_child_by_field_name node f = Some n -> In n (ts_node_children node).
Proof.
  unfold ts_node_child_by_field_name, ts_node_children.
  destruct (find (has_field f) (children_of (snd node))) as [c |] eqn:E;
    [| discriminate].
  intros [= <-]. apply find_some in E. apply in_map_iff. exists c.
  split; [reflexivity | tauto].
Qed.

(** The loops over [i < ts_node_child_count(node)] visit the list of
    children in order. *)
Lemma ts_node_children_nth (node : TSNode) (i : nat) :
  nth_error (ts_node_children node) i = ts_node_child node i.
Proof.
  unfold ts_node_children, ts_node_child. rewrite nth_error_map.
  now destruct (nth_error (children_of (snd node)) i).
Qed.

Lemma ts_node_children_length (node : TSNode) :
  List.length (ts_node_children node) = ts_node_child_count node.
Proof. unfold ts_node_children, ts_node_child_count. apply length_map. Qed.

Lemma findIdentifierRecursive_at_subnodes (t : Tree) :
  forall anc r,
    findIdentifierRecursive_at anc t = Some r ->
    In r (subnodes_at anc t) /\ ts_node_type r = "identifier".
Proof.
  induction t as [i cs IH] using Tree_ind; intros anc r.
  rewrite subnodes_at_eq. cbn [findIdentifierRecursive_at].
  destruct (String.eqb (type i) "identifier") eqn:E.
  - intros [= <-]. split; [now left |]. now apply String.eqb_eq in E.
  - generalize (Node i cs :: anc) as anc'. intros anc' H.
    assert (G : In r (flat_map (subnodes_at anc') cs) /\
                ts_node_type r = "identifier").
    { induction IH as [| c l Hc _ IHl]; [discriminate |].
      cbn [flat_map].
      destruct (findIdentifierRecursive_at anc' c) as [r' |] eqn:Er.
      - injection H as <-. destruct (Hc _ _ Er) as [H1 H2].
        split; [apply in_or_app; now left | exact H2].
      - destruct (IHl H) as [H1 H2].
        split; [apply in_or_app; now right | exact H2]. }
    split; [right |]; apply G.
Qed.

(* ================================================================== *)
(** * Properties of the recorded function names *)








(* ================================================================== *)
(** * Properties of function discovery *)

Lemma bind_Ok {A : Type} (r : result A) : (x <- r ;; Ok x) = r.
Proof. now destruct r. Qed.

Lemma foldM_app {A S : Type} (f : A -> S -> result S) (l1 l2 : list A) (st : S) :
  foldM f (l1 ++ l2) st = (st' <- foldM f l1 st ;; foldM f l2 st').
Proof.
  revert st. induction l1 as [| a l1 IH]; intros st; cbn; [reflexivity |].
  destruct (f a st); cbn; [apply IH | reflexivity].
Qed.

Lemma analyzeEach_app (s : LanguageStrategy) (src : string)
  (l1 l2 : list TSNode) (m : FileMetrics) :
  analyzeEach s src (l1 ++ l2) m =
  (m' <- analyzeEach s src l1 m ;; analyzeEach s src l2 m').
Proof.
  revert m. induction l1 as [| a l1 IH]; intros m; cbn; [reflexivity |].
  destruct (analyzeSingleFunction s a m src); cbn; [apply IH | reflexivity].
Qed.

(** The loop of [analyzeFunctions] over the children, as a fold. *)
Lemma analyzeFunctions_at_eq (s : LanguageStrategy) (anc : list Tree)
  (i : NodeInfo) (cs : list Tree) (m : FileMetrics) (src : string) :
  analyzeFunctions_at s anc (Node i cs) m src =
  if contains (getFunctionDefinitionTypes s) (type i) then
    if negb (isSpecialFunction s (anc, Node i cs))
    then analyzeSingleFunction s (anc, Node i cs) m src
    else Ok m
  else
    foldM (fun c m => analyzeFunctions_at s (Node i cs :: anc) c m src) cs m.
Proof.
  cbn [analyzeFunctions_at].
  destruct (contains (getFunctionDefinitionTypes s) (type i)); [reflexivity |].
  generalize (Node i cs :: anc). intros anc'. revert m.
  induction cs as [| c l IH]; intros m; [reflexivity |].
  cbn [foldM]. destruct (analyzeFunctions_at s anc' c m src); cbn [bind];
    [apply IH | reflexivity].
Qed.

Lemma subnodes_at_suffix (t : Tree) :
  forall anc h, In h (subnodes_at anc t) -> exists inner, fst h = (inner ++ anc)%list.
Proof.
  induction t as [i cs IH] using Tree_ind; intros anc h.
  rewrite subnodes_at_eq. intros [<- | H].
  - now exists [].
  - apply in_flat_map in H. destruct H as [c [Hc H]].
    rewrite Forall_forall in IH. destruct (IH c Hc _ _ H) as [inner E].
    exists (inner ++ [Node i cs])%list. now rewrite <- app_assoc.
Qed.

Lemma outside_functions_app (s : LanguageStrategy) (l1 l2 : list Tree) :
  outside_functions s (l1 ++ l2) =
  outside_functions s l1 && outside_functions s l2.
Proof. apply forallb_app. Qed.

(** Below a node that has a function-definition node among its ancestors,
    nothing is recorded. *)
Lemma nothing_emitted_inside (s : LanguageStrategy) (t : Tree)
  (anc : list Tree) :
  outside_functions s anc = false ->
  filter (emits s) (subnodes_at anc t) = [].
Proof.
  intros Ho.
  assert (H : forall h, In h (subnodes_at anc t) -> emits s h = false).
  { intros h Hh. destruct (subnodes_at_suffix t anc h Hh) as [inner E].
    unfold emits. rewrite E, outside_functions_app, Ho.
    now rewrite !andb_false_r. }
  induction (subnodes_at anc t) as [| h l IH]; [reflexivity |].
  cbn [filter]. rewrite (H h (or_introl eq_refl)).
  apply IH. intros h' Hh'. apply H. now right.
Qed.

Lemma filter_flat_map {A B : Type} (p : B -> bool) (f : A -> list B) (l : list A) :
  filter p (flat_map f l) = flat_map (fun a => filter p (f a)) l.
Proof.
  induction l as [| a l IH]; [reflexivity |].
  cbn [flat_map]. now rewrite filter_app, IH.
Qed.

(** Function discovery records exactly the nodes that [emits] selects, in
    pre-order. *)
Lemma analyzeFunctions_at_emits (s : LanguageStrategy) (src : string) (t : Tree) :
  forall anc m,
    outside_functions s anc = true ->
    analyzeFunctions_at s anc t m src =
    analyzeEach s src (filter (emits s) (subnodes_at anc t)) m.
Proof.
  induction t as [i cs IH] using Tree_ind; intros anc m Ho.
  rewrite analyzeFunctions_at_eq, subnodes_at_eq. cbn [filter].
  unfold emits at 1. unfold is_function_node, ts_node_type.
  cbn [fst snd info_of]. rewrite Ho, andb_true_r.
  rewrite filter_flat_map.
  destruct (contains (getFunctionDefinitionTypes s) (type i)) eqn:Ef.
  - assert (E : flat_map (fun a => filter (emits s)
                           (subnodes_at (Node i cs :: anc) a)) cs = []).
    { assert (Hin : outside_functions s (Node i cs :: anc) = false).
      { unfold outside_functions. cbn [forallb info_of]. now rewrite Ef. }
      generalize (Node i cs :: anc) Hin. intros anc' Hin'.
      clear IH. induction cs as [| c l IHl]; [reflexivity |].
      cbn [flat_map]. now rewrite nothing_emitted_inside, IHl. }
    rewrite E. cbn [andb].
    destruct (negb (isSpecialFunction s (anc, Node i cs)));
      cbn [analyzeEach]; [now rewrite bind_Ok | reflexivity].
  - cbn [andb].
    assert (Hin : outside_functions s (Node i cs :: anc) = true).
    { unfold outside_functions. cbn [forallb info_of]. rewrite Ef.
      exact Ho. }
    revert m. generalize (Node i cs :: anc) Hin. clear Hin.
    intros anc' Hin'.
    induction IH as [| c l Hc _ IHl]; intros m; [reflexivity |].
    cbn [foldM flat_map]. rewrite analyzeEach_app, (Hc anc' m Hin').
    destruct (analyzeEach s src _ m); cbn [bind]; [apply IHl | reflexivity].
Qed.

(** C10: at a function-definition node, special or not, discovery records
    at most the node itself and visits none of its children; over a whole
    tree it records exactly the function-definition nodes that are not
    special and have no function-definition node among their ancestors, so
    that a definition nested in another one is never recorded. *)
Theorem no_descent_into_functions (s : LanguageStrategy) (src : string) :
  (forall (node : TSNode) (m : FileMetrics),
     is_function_node s node = true ->
     analyzeFunctions s node m src =
     if isSpecialFunction s node then Ok m
     else analyzeSingleFunction s node m src) /\
  (forall (root : Tree) (m : FileMetrics),
     analyzeFunctions s ([], root) m src =
     analyzeEach s src (filter (emits s) (subnodes ([], root))) m) /\
  (forall (root : Tree) (h : TSNode),
     In h (subnodes ([], root)) ->
     outside_functions s (fst h) = false ->
     ~ In h (filter (emits s) (subnodes ([], root)))).
Proof.
  split; [| split].
  - intros [anc [i cs]] m Hf. unfold analyzeFunctions. cbn [fst snd].
    rewrite analyzeFunctions_at_eq.
    unfold is_function_node, ts_node_type in Hf. cbn [snd info_of] in Hf.
    rewrite Hf. now destruct (isSpecialFunction s (anc, Node i cs)).
  - intros root m. unfold analyzeFunctions, subnodes. cbn [fst snd].
    now apply analyzeFunctions_at_emits.
  - intros root h _ Ho Hin. apply filter_In in Hin. destruct Hin as [_ He].
    unfold emits in He. rewrite Ho, andb_false_r in He. discriminate He.
Qed.

Lemma no_descent_into_functions_witness :
  analyzeFunctions JSStrategy nested_function_node FileMetrics_default
    nested_function_source =
  Ok (set_functions FileMetrics_default [mkFunctionMetric "outer" 1 1 1 3]).
Proof.
  rewrite (proj1 (no_descent_into_functions JSStrategy nested_function_source)
             nested_function_node FileMetrics_default eq_refl).
  reflexivity.
Defined.

(* ------------------------------------------------------------------ *)
(** ** The C and C++ strategies never look at the ancestors of a node *)

Lemma child_by_field_name_snd (anc anc' : list Tree) (t : Tree) (f : string) :
  option_map snd (ts_node_child_by_field_name (anc, t) f) =
  option_map snd (ts_node_child_by_field_name (anc', t) f).
Proof.
  unfold ts_node_child_by_field_name. cbn [fst snd].
  now destruct (find (has_field f) (children_of t)).
Qed.

Lemma decision_point_snd (s : LanguageStrategy) (anc anc' : list Tree) (t : Tree) :
  decision_point s (anc, t) = decision_point s (anc', t).
Proof.
  unfold decision_point, ts_node_type. cbn [snd].
  destruct (contains _ _); [reflexivity |].
  assert (E : LanguageStrategy_isLogicalOperator (anc, t) =
              LanguageStrategy_isLogicalOperator (anc', t)).
  { unfold LanguageStrategy_isLogicalOperator, ts_node_type,
      ts_node_child_by_field_name. cbn [fst snd].
    now destruct (find _ _). }
  destruct s; cbn [isLogicalOperator]; try (now rewrite E); reflexivity.
Qed.

Lemma calculateComplexity_at_snd (s : LanguageStrategy) (t : Tree) :
  forall anc anc',
    calculateComplexity_at s anc t = calculateComplexity_at s anc' t.
Proof.
  intros anc anc'. rewrite !calculateComplexity_at_sum.
  revert anc anc'.
  induction t as [i cs IH] using Tree_ind; intros anc anc'.
  rewrite !subnodes_at_eq. cbn [map sumZ fold_right].
  unfold base_point at 1 3. unfold is_function_node, ts_node_type.
  cbn [snd]. rewrite (decision_point_snd s anc anc'). f_equal.
  generalize (Node i cs :: anc) (Node i cs :: anc'). intros a a'.
  induction IH as [| c l Hc _ IHl]; [reflexivity |].
  cbn [flat_map]. rewrite !map_app.
  change (fold_right Z.add 0) with sumZ in *.
  rewrite !sumZ_app. now rewrite (Hc a a'), IHl.
Qed.

Lemma isSpecialFunction_snd (s : LanguageStrategy) (anc anc' : list Tree) (t : Tree) :
  isSpecialFunction s (anc, t) = isSpecialFunction s (anc', t).
Proof.
  assert (E : CStrategy_isSpecialFunction (anc, t) =
              CStrategy_isSpecialFunction (anc', t)).
  { unfold CStrategy_isSpecialFunction, ts_node_child_by_field_name,
      hasChildOfTypeRecursive. cbn [fst snd].
    destruct (find (has_field "declarator") _); [reflexivity |].
    now destruct (find (has_field "abstract_declarator") _). }
  destruct s; cbn [isSpecialFunction]; try exact E; reflexivity.
Qed.

Lemma findIdentifierRecursive_at_snd (t : Tree) :
  forall anc anc',
    option_map snd (findIdentifierRecursive_at anc t) =
    option_map snd (findIdentifierRecursive_at anc' t).
Proof.
  induction t as [i cs IH] using Tree_ind; intros anc anc'.
  cbn [findIdentifierRecursive_at].
  destruct (String.eqb (type i) "identifier"); [reflexivity |].
  generalize (Node i cs :: anc) (Node i cs :: anc'). intros a a'.
  induction IH as [| c l Hc _ IHl]; [reflexivity |].
  specialize (Hc a a').
  destruct (findIdentifierRecursive_at a c),
    (findIdentifierRecursive_at a' c); cbn in Hc |- *;
    try discriminate Hc; [exact Hc | exact IHl].
Qed.

Lemma getNodeText_snd (n n' : option TSNode) (src : string) :
  option_map snd n = option_map snd n' ->
  getNodeText n src = getNodeText n' src.
Proof.
  destruct n as [[a t] |], n' as [[a' t'] |]; cbn; try discriminate;
    [| reflexivity].
  now intros [= ->].
Qed.

Lemma CStrategy_extractFunctionName_snd (anc anc' : list Tree) (t : Tree)
  (src : string) :
  CStrategy_extractFunctionName (anc, t) src =
  CStrategy_extractFunctionName (anc', t) src.
Proof.
  unfold CStrategy_extractFunctionName, ts_node_child_by_field_name,
    findIdentifierRecursive. cbn [fst snd].
  destruct (find (has_field "declarator") (children_of t)) as [d |];
    [| reflexivity].
  cbn [fst snd].
  pose proof (findIdentifierRecursive_at_snd d (t :: anc) (t :: anc')) as E.
  destruct (findIdentifierRecursive_at (t :: anc) d) as [r |],
    (findIdentifierRecursive_at (t :: anc') d) as [r' |];
    cbn in E; try discriminate E; [| reflexivity].
  apply getNodeText_snd. cbn. exact E.
Qed.

Lemma analyzeSingleFunction_snd (s : LanguageStrategy) (anc anc' : list Tree)
  (t : Tree) (m : FileMetrics) (src : string) :
  c_like s ->
  analyzeSingleFunction s (anc, t) m src =
  analyzeSingleFunction s (anc', t) m src.
Proof.
  intros Hs. unfold analyzeSingleFunction, calculateComplexity.
  cbn [fst snd]. rewrite (calculateComplexity_at_snd s t anc anc').
  assert (E : extractFunctionName s (anc, t) src =
              extractFunctionName s (anc', t) src).
  { destruct Hs as [-> | ->]; apply CStrategy_extractFunctionName_snd. }
  rewrite E. reflexivity.
Qed.

Lemma foldM_ext_Forall {A S : Type} (f g : A -> S -> result S) (l : list A) :
  Forall (fun a => forall st, f a st = g a st) l ->
  forall st, foldM f l st = foldM g l st.
Proof.
  induction 1 as [| a l Ha _ IH]; intros st; [reflexivity |].
  cbn [foldM]. rewrite Ha. destruct (g a st); cbn [bind];
    [apply IH | reflexivity].
Qed.

Lemma analyzeFunctions_at_snd (s : LanguageStrategy) (src : string) (t : Tree) :
  c_like s ->
  forall anc anc' m,
    analyzeFunctions_at s anc t m src = analyzeFunctions_at s anc' t m src.
Proof.
  intros Hs. induction t as [i cs IH] using Tree_ind; intros anc anc' m.
  rewrite !analyzeFunctions_at_eq.
  rewrite (isSpecialFunction_snd s anc anc').
  rewrite (analyzeSingleFunction_snd s anc anc' _ m src Hs).
  destruct (contains _ _); [reflexivity |].
  apply foldM_ext_Forall.
  eapply Forall_impl; [| exact IH]. intros c Hc st. apply Hc.
Qed.

Lemma foldM_analyzeFunctions_snd (s : LanguageStrategy) (src : string)
  (a : list Tree) (l : list Tree) (m : FileMetrics) :
  c_like s ->
  foldM (fun c m => analyzeFunctions_at s a c m src) l m =
  foldM (fun c m => analyzeFunctions_at s [] c m src) l m.
Proof.
  intros Hs. apply foldM_ext_Forall. apply Forall_forall. intros c _ st.
  now apply analyzeFunctions_at_snd.
Qed.

(** Removing a special function-definition node that lies in no other
    function-definition node leaves function discovery unchanged. *)
Lemma analyzeFunctions_at_prune (s : LanguageStrategy) (src : string) :
  c_like s ->
  forall anc t t',
    prune s false anc t t' ->
    forall anc' m,
      analyzeFunctions_at s anc t m src = analyzeFunctions_at s anc' t' m src.
Proof.
  intros Hs anc t t' H.
  induction H as [anc i pre post e Hi He Hsp
                 | anc i pre post c c' Hi H IH]; intros anc' m;
    (destruct Hi as [Hi | Hi]; [discriminate Hi |]);
    rewrite !analyzeFunctions_at_eq, Hi, !foldM_app.
  - rewrite !(foldM_analyzeFunctions_snd s src
                (Node i (pre ++ e :: post) :: anc)) by exact Hs.
    rewrite !(foldM_analyzeFunctions_snd s src
                (Node i (pre ++ post) :: anc')) by exact Hs.
    destruct (foldM _ pre m) as [m1 |]; cbn [bind foldM]; [| reflexivity].
    destruct e as [ie ce]. rewrite analyzeFunctions_at_eq.
    unfold is_function_node, ts_node_type in He. cbn [snd info_of] in He.
    rewrite He, Hsp. cbn [negb bind].
    etransitivity; [| symmetry]; apply foldM_analyzeFunctions_snd; exact Hs.
  - rewrite !(foldM_analyzeFunctions_snd s src
                (Node i (pre ++ c :: post) :: anc)) by exact Hs.
    rewrite !(foldM_analyzeFunctions_snd s src
                (Node i (pre ++ c' :: post) :: anc')) by exact Hs.
    destruct (foldM _ pre m) as [m1 |]; cbn [bind foldM]; [| reflexivity].
    rewrite (IH (Node i (pre ++ c' :: post) :: anc') m1).
    destruct (analyzeFunctions_at s _ c' m1 src) as [m2 |]; cbn [bind];
      [| reflexivity].
    etransitivity; [| symmetry]; apply foldM_analyzeFunctions_snd; exact Hs.
Qed.

(* ------------------------------------------------------------------ *)
(** ** What the report keeps of the functions *)

Lemma analyzeSingleFunction_averages (s : LanguageStrategy) (node : TSNode)
  (m m' : FileMetrics) (src : string) :
  analyzeSingleFunction s node m src = Ok m' ->
  avg_function_length m' = avg_function_length m /\
  avg_function_complexity m' = avg_function_complexity m.
Proof.
  unfold analyzeSingleFunction.
  destruct (extractFunctionName s node src); cbn [bind]; [| discriminate].
  intros [= <-]. now split.
Qed.

Lemma analyzeFunctions_at_averages (s : LanguageStrategy) (src : string)
  (t : Tree) :
  forall anc m m',
    analyzeFunctions_at s anc t m src = Ok m' ->
    avg_function_length m' = avg_function_length m /\
    avg_function_complexity m' = avg_function_complexity m.
Proof.
  induction t as [i cs IH] using Tree_ind; intros anc m m'.
  rewrite analyzeFunctions_at_eq.
  destruct (contains _ _).
  - destruct (negb _); [apply analyzeSingleFunction_averages |].
    intros [= <-]. now split.
  - generalize (Node i cs :: anc). intros a. revert m.
    induction IH as [| c l Hc _ IHl]; intros m; cbn [foldM].
    + intros [= <-]. now split.
    + destruct (analyzeFunctions_at s a c m src) as [m1 |] eqn:E;
        cbn [bind]; [| discriminate].
      intros H. apply Hc in E. apply IHl in H.
      destruct E as [E1 E2], H as [H1 H2]. split; congruence.
Qed.

Lemma analyzeFileWideMetrics_at_view (t : Tree) :
  forall anc m,
    function_view (analyzeFileWideMetrics_at anc t m) = function_view m.
Proof.
  induction t as [i cs IH] using Tree_ind; intros anc m.
  cbn [analyzeFileWideMetrics_at].
  match goal with
  | |- function_view (_ cs ?m0) = _ =>
      assert (E : function_view m0 = function_view m)
        by (destruct (ts_node_is_null _), (String.eqb _ _); reflexivity);
      rewrite <- E; clear E; generalize m0
  end.
  generalize (Node i cs :: anc). intros a.
  induction IH as [| c l Hc _ IHl]; intros m0; [reflexivity |].
  rewrite IHl. apply Hc.
Qed.

Lemma analyzeNaming_at_view (src : string) (t : Tree) :
  forall anc m m',
    analyzeNaming_at anc t m src = Ok m' ->
    function_view m' = function_view m.
Proof.
  induction t as [i cs IH] using Tree_ind; intros anc m m'.
  cbn [analyzeNaming_at].
  match goal with
  | |- bind ?r _ = _ -> _ =>
      assert (E : forall m0, r = Ok m0 -> function_view m0 = function_view m);
      [| destruct r as [m0 |]; cbn [bind]; [| discriminate];
         rewrite <- (E m0 eq_refl); clear E ]
  end.
  { intros m0. destruct (String.eqb _ _); [| now intros [= <-]].
    destruct (getNodeText _ _); cbn [bind]; [| discriminate].
    destruct (_ <=? _)%nat; [| now intros [= <-]].
    destruct (negb _); now intros [= <-]. }
  generalize (Node i cs :: anc). intros a. revert m0.
  induction IH as [| c l Hc _ IHl]; intros m0.
  - now intros [= <-].
  - destruct (analyzeNaming_at a c m0 src) as [m1 |] eqn:E1;
      cbn [bind]; [| discriminate].
    intros H. apply IHl in H. apply Hc in E1. congruence.
Qed.

Lemma calculateFinalScore_view (m1 m2 : FileMetrics) :
  function_view m1 = function_view m2 ->
  function_view (calculateFinalScore m1) =
  function_view (calculateFinalScore m2).
Proof.
  unfold function_view. intros [= Hf Hl Hc].
  unfold calculateFinalScore, aggregate. rewrite Hf.
  destruct (functions m2) as [| f fs] eqn:E;
    destruct (0 <? total_lines _), (0 <? total_lines _);
    cbn; rewrite ?Hf, ?E; cbn; congruence.
Qed.

(** The functions and the two averages of a report are those that scoring
    derives from function discovery alone. *)
Lemma analyze_view (s : LanguageStrategy) (root : Tree) (path src : string)
  (r : FileMetrics) :
  analyze (Some s) ([], root) path src = Ok r ->
  exists m,
    analyzeFunctions_at s [] root (set_file_path FileMetrics_default path) src
      = Ok m /\
    function_view r = function_view (calculateFinalScore m).
Proof.
  unfold analyze, analyzeFunctions, analyzeFileWideMetrics, analyzeNaming.
  cbn [fst snd].
  destruct (analyzeFunctions_at s [] root _ src) as [m |]; cbn [bind];
    [| discriminate].
  destruct (analyzeNaming_at [] root _ src) as [m2 |] eqn:E2; cbn [bind];
    [| discriminate].
  intros [= <-]. exists m. split; [reflexivity |].
  apply calculateFinalScore_view.
  apply analyzeNaming_at_view in E2. rewrite E2.
  apply analyzeFileWideMetrics_at_view.
Qed.

(** C6 (amended): in a C or C++ file a special function-definition node
    (operator overload or destructor) is never recorded: discovery returns
    at once on it, and every record comes from a function-definition node
    of the tree that is not special.  When the special node lies in no
    other function-definition node, the list of functions and the two
    averages of the report are what they are without the node. *)
Theorem special_functions_excluded (s : LanguageStrategy) (src : string) :
  c_like s ->
  (forall (node : TSNode) (m : FileMetrics),
     is_function_node s node = true ->
     isSpecialFunction s node = true ->
     analyzeFunctions s node m src = Ok m) /\
  (forall (root : Tree) (m : FileMetrics),
     exists nodes,
       analyzeFunctions s ([], root) m src = analyzeEach s src nodes m /\
       Forall (fun h => In h (subnodes ([], root)) /\
                        is_function_node s h = true /\
                        isSpecialFunction s h = false) nodes) /\
  (forall (root root' : Tree) (path : string) (r r' : FileMetrics),
     prune s false [] root root' ->
     analyze (Some s) ([], root) path src = Ok r ->
     analyze (Some s) ([], root') path src = Ok r' ->
     functions r = functions r' /\
     avg_function_length r = avg_function_length r' /\
     avg_function_complexity r = avg_function_complexity r').
Proof.
  intros Hs. split; [| split].
  - intros [anc [i cs]] m Hf Hsp. unfold analyzeFunctions. cbn [fst snd].
    rewrite analyzeFunctions_at_eq.
    unfold is_function_node, ts_node_type in Hf. cbn [snd info_of] in Hf.
    now rewrite Hf, Hsp.
  - intros root m. exists (filter (emits s) (subnodes ([], root))).
    split.
    + unfold analyzeFunctions, subnodes. cbn [fst snd].
      now apply analyzeFunctions_at_emits.
    + apply Forall_forall. intros h Hin. apply filter_In in Hin.
      destruct Hin as [Hin He]. unfold emits in He.
      apply andb_true_iff in He. destruct He as [He _].
      apply andb_true_iff in He. destruct He as [Hf Hn].
      apply negb_true_iff in Hn. now repeat split.
  - intros root root' path r r' Hp Hr Hr'.
    apply analyze_view in Hr. apply analyze_view in Hr'.
    destruct Hr as [m [Hm Hv]], Hr' as [m' [Hm' Hv']].
    rewrite (analyzeFunctions_at_prune s src Hs [] root root' Hp []) in Hm.
    assert (E : m = m') by congruence. subst m'.
    rewrite <- Hv' in Hv. unfold function_view in Hv.
    injection Hv as H1 H2 H3. now repeat split.
Qed.

Lemma destructor_file_prune :
  prune CppStrategy false []
    (destructor_file_tree [out_of_class_destructor])
    (destructor_file_tree []).
Proof.
  unfold destructor_file_tree, mk.
  apply (prune_child CppStrategy false [] _ [] [plain_main]
           out_of_class_destructor);
    [right |..]; reflexivity.
Qed.

Lemma special_functions_excluded_witness :
  exists r r',
    analyze (Some CppStrategy)
      ([], destructor_file_tree [out_of_class_destructor]) "guard.cpp"
      destructor_file_source = Ok r /\
    analyze (Some CppStrategy) ([], destructor_file_tree []) "guard.cpp"
      destructor_file_source = Ok r' /\
    functions r = [mkFunctionMetric "main" 1 1 1 1] /\
    functions r = functions r' /\
    avg_function_length r = avg_function_length r' /\
    avg_function_complexity r = avg_function_complexity r'.
Proof.
  eexists. eexists.
  split; [vm_compute; reflexivity |].
  split; [vm_compute; reflexivity |].
  split; [reflexivity |].
  apply (proj2 (proj2 (special_functions_excluded CppStrategy
                         destructor_file_source (or_intror eq_refl)))
           (destructor_file_tree [out_of_class_destructor])
           (destructor_file_tree []) "guard.cpp" _ _
           destructor_file_prune);
    vm_compute; reflexivity.
Defined.

Lemma local_class_prune :
  prune CppStrategy true []
    (local_class_tree [guard_destructor]) (local_class_tree []).
Proof.
  unfold local_class_tree, mk.
  apply (prune_below CppStrategy true _ _ [] []); [now left |].
  apply (prune_below CppStrategy true _ _ [_; _] []); [now left |].
  apply (prune_below CppStrategy true _ _ [_] [_; _]); [now left |].
  apply (prune_below CppStrategy true _ _ [_; _] []); [now left |].
  apply (prune_child CppStrategy true _ _ [_] [_] guard_destructor);
    [left |..]; reflexivity.
Qed.

(** C6, as stated, fails: the destructor of a class that is local to a
    function is not recorded, yet its [if] and its own base point are
    counted in the complexity of the enclosing function, whose average
    complexity is 3 with the destructor and 1 without. *)
Lemma nested_special_function_counts :
  ~ (forall (s : LanguageStrategy) (src : string) (root root' : Tree)
            (path : string) (r r' : FileMetrics),
       c_like s ->
       prune s true [] root root' ->
       analyze (Some s) ([], root) path src = Ok r ->
       analyze (Some s) ([], root') path src = Ok r' ->
       (avg_function_length r == avg_function_length r')%Q /\
       (avg_function_complexity r == avg_function_complexity r')%Q).
Proof.
  intros H.
  destruct (analyze (Some CppStrategy) ([], local_class_tree [guard_destructor])
              "run.cpp" local_class_source) as [r |] eqn:Er;
    [| vm_compute in Er; discriminate Er].
  destruct (analyze (Some CppStrategy) ([], local_class_tree [])
              "run.cpp" local_class_source) as [r' |] eqn:Er';
    [| vm_compute in Er'; discriminate Er'].
  destruct (H CppStrategy local_class_source _ _ "run.cpp" r r'
              (or_intror eq_refl) local_class_prune Er Er') as [_ Hc].
  vm_compute in Er. vm_compute in Er'.
  injection Er as <-. injection Er' as <-.
  vm_compute in Hc. discriminate Hc.
Qed.

(* ================================================================== *)
(** * [std::sort] sorts *)

Ltac dlia := zify; Z.to_euclidean_division_equations; lia.

Section StdSortProperties.

#[local] Open Scope nat_scope.
#[local] Open Scope list_scope.

Context {A : Type}.
Variable comp : A -> A -> bool.

Lemma assign_Some (a : list A) (i : nat) (x : A) :
  i < List.length a -> assign a i x = Some (upd a i x).
Proof.
  intros H. unfold assign. destruct (Nat.ltb_spec i (List.length a)); [reflexivity | lia].
Qed.

Lemma assign_inv (a a' : list A) (i : nat) (x : A) :
  assign a i x = Some a' -> i < List.length a /\ a' = upd a i x.
Proof.
  unfold assign. destruct (Nat.ltb_spec i (List.length a)); [| discriminate].
  intros E. injection E as <-. now split.
Qed.

Lemma upd_length (a : list A) (i : nat) (x : A) :
  i < List.length a -> List.length (upd a i x) = List.length a.
Proof.
  intros H. unfold upd. rewrite length_app, length_firstn. cbn [List.length].
  rewrite length_skipn. lia.
Qed.

Lemma nth_error_upd (a : list A) (i j : nat) (x : A) :
  i < List.length a ->
  nth_error (upd a i x) j = if j =? i then Some x else nth_error a j.
Proof.
  intros H. unfold upd. rewrite nth_error_app, length_firstn.
  replace (Nat.min i (List.length a)) with i by lia.
  destruct (Nat.ltb_spec j i) as [Hj | Hj].
  - rewrite nth_error_firstn.
    destruct (Nat.ltb_spec j i); [| lia].
    destruct (Nat.eqb_spec j i); [lia | reflexivity].
  - destruct (Nat.eqb_spec j i) as [-> | Hne].
    + now rewrite Nat.sub_diag.
    + destruct (j - i) as [| d] eqn:E; [lia |]. cbn [nth_error].
      rewrite nth_error_skipn. f_equal. lia.
Qed.

Lemma nth_error_Some_lt (a : list A) (i : nat) (x : A) :
  nth_error a i = Some x -> i < List.length a.
Proof. intros H. apply nth_error_Some. now rewrite H. Qed.

Lemma nth_error_lt_Some (a : list A) (i : nat) :
  i < List.length a -> exists x, nth_error a i = Some x.
Proof.
  intros H. destruct (nth_error a i) as [x |] eqn:E; [now exists x |].
  apply nth_error_None in E. lia.
Qed.

Lemma list_ext_length (a b : list A) :
  (forall k, nth_error a k = nth_error b k) -> List.length a = List.length b.
Proof. intros H. now rewrite (nth_error_ext a b H). Qed.

Lemma upd_self (a : list A) (i : nat) (x : A) :
  nth_error a i = Some x -> upd a i x = a.
Proof. apply firstn_skipn_middle. Qed.

Lemma upd_upd (a : list A) (i : nat) (x y : A) :
  i < List.length a -> upd (upd a i x) i y = upd a i y.
Proof.
  intros H. apply nth_error_ext. intros k.
  rewrite !nth_error_upd by (rewrite ?upd_length; lia).
  now destruct (k =? i).
Qed.

Lemma upd_app_mid (l r : list A) (z x : A) :
  upd (l ++ z :: r) (List.length l) x = l ++ x :: r.
Proof.
  unfold upd. rewrite firstn_app, firstn_all, Nat.sub_diag. cbn [firstn].
  rewrite app_nil_r. f_equal. f_equal.
  rewrite skipn_app.
  replace (S (List.length l) - List.length l) with 1 by lia.
  rewrite skipn_all2 by lia. reflexivity.
Qed.

(** Two slots exchanged: the same elements. *)
Lemma perm_exchange (a : list A) (i j : nat) (x y : A) :
  i < j -> nth_error a i = Some x -> nth_error a j = Some y ->
  exists l1 l2 l3,
    a = l1 ++ x :: l2 ++ y :: l3 /\
    List.length l1 = i /\ List.length (l1 ++ x :: l2) = j.
Proof.
  intros Hij Hx Hy.
  destruct (nth_error_split a i Hx) as [l1 [r [-> Hl1]]].
  rewrite nth_error_app2 in Hy by lia.
  destruct (j - List.length l1) as [| d] eqn:E; [lia |]. cbn [nth_error] in Hy.
  destruct (nth_error_split r d Hy) as [l2 [l3 [-> Hl2]]].
  exists l1, l2, l3. split; [reflexivity |]. split; [exact Hl1 |].
  rewrite length_app. cbn [List.length]. lia.
Qed.

Lemma perm_exchange_lists (l1 l2 l3 : list A) (x y : A) :
  Permutation (l1 ++ x :: l2 ++ y :: l3) (l1 ++ y :: l2 ++ x :: l3).
Proof.
  apply Permutation_app_head.
  transitivity (x :: y :: l2 ++ l3).
  - constructor. symmetry. apply Permutation_middle.
  - rewrite perm_swap. constructor. apply Permutation_middle.
Qed.

Lemma perm_upd_upd (a : list A) (i j : nat) (x y : A) :
  nth_error a i = Some x -> nth_error a j = Some y ->
  Permutation a (upd (upd a i y) j x).
Proof.
  intros Hx Hy.
  destruct (Nat.lt_trichotomy i j) as [Hij | [<- | Hji]].
  - destruct (perm_exchange a i j x y Hij Hx Hy) as [l1 [l2 [l3 [-> [H1 H2]]]]].
    rewrite <- H1 at 1. rewrite upd_app_mid.
    replace (l1 ++ y :: l2 ++ y :: l3) with ((l1 ++ y :: l2) ++ y :: l3)
      by (now rewrite <- app_assoc).
    replace j with (List.length (l1 ++ y :: l2))
      by (rewrite <- H2, !length_app; reflexivity).
    rewrite upd_app_mid, <- app_assoc. cbn [app].
    apply perm_exchange_lists.
  - assert (x = y) as <- by congruence.
    rewrite upd_upd by now apply nth_error_Some_lt with x.
    now rewrite upd_self.
  - destruct (perm_exchange a j i y x Hji Hy Hx) as [l1 [l2 [l3 [-> [H1 H2]]]]].
    replace (l1 ++ y :: l2 ++ x :: l3) with ((l1 ++ y :: l2) ++ x :: l3) at 2
      by (now rewrite <- app_assoc).
    rewrite <- H2. rewrite upd_app_mid, <- app_assoc. cbn [app].
    rewrite <- H1. rewrite upd_app_mid.
    apply perm_exchange_lists.
Qed.

(** [iter_swap] inside the vector. *)
Lemma iter_swap_Some (a : list A) (i j : nat) (x y : A) :
  nth_error a i = Some x -> nth_error a j = Some y ->
  iter_swap a i j = Some (upd (upd a i y) j x).
Proof.
  intros Hx Hy. unfold iter_swap. rewrite Hx, Hy.
  rewrite assign_Some by now apply nth_error_Some_lt with x.
  rewrite assign_Some; [reflexivity |].
  rewrite upd_length by now apply nth_error_Some_lt with x.
  now apply nth_error_Some_lt with y.
Qed.

(** The hole of a heap operation moves from [h] to [c]. *)
Lemma perm_hole (a : list A) (h c : nat) (x v : A) :
  h < List.length a -> h <> c -> nth_error a c = Some x ->
  Permutation (upd a h v) (upd (upd a h x) c v).
Proof.
  intros Hh Hne Hc.
  assert (Hcl : c < List.length a) by now apply nth_error_Some_lt with x.
  replace (upd (upd a h x) c v) with (upd (upd (upd a h v) h x) c v)
    by (now rewrite upd_upd).
  apply perm_upd_upd.
  - rewrite nth_error_upd by lia. now rewrite Nat.eqb_refl.
  - rewrite nth_error_upd by lia.
    destruct (Nat.eqb_spec c h); [lia | exact Hc].
Qed.

(** ** The order of the comparator

    [comp] is a strict weak order: irreflexive, transitive, and with a
    transitive "not before". *)

Hypothesis comp_irrefl : forall x, comp x x = false.
Hypothesis comp_trans :
  forall x y z, comp x y = true -> comp y z = true -> comp x z = true.
Hypothesis comp_negtrans :
  forall x y z, comp x y = false -> comp y z = false -> comp x z = false.

Lemma comp_asym (x y : A) : comp x y = true -> comp y x = false.
Proof.
  intros H. destruct (comp y x) eqn:E; [| reflexivity].
  rewrite <- (comp_irrefl x). symmetry. now apply comp_trans with y.
Qed.

Lemma comp_lt_le (x y z : A) :
  comp x y = true -> comp z y = false -> comp x z = true.
Proof.
  intros H1 H2. destruct (comp x z) eqn:E; [reflexivity |].
  now rewrite (comp_negtrans x z y E H2) in H1.
Qed.

Lemma comp_le_lt (x y z : A) :
  comp y x = false -> comp y z = true -> comp x z = true.
Proof.
  intros H1 H2. destruct (comp x z) eqn:E; [reflexivity |].
  now rewrite (comp_negtrans y x z H1 E) in H2.
Qed.

(** ** The insertion sort *)

Lemma linear_insert_loop_spec (val : A) (rl : list A) :
  forall (v0 : A) (r : list A),
    linear_insert_loop comp val (rev rl ++ v0 :: r) (List.length rl) =
    if forallb (comp val) rl then None
    else Some (rev (insert_rev comp val rl) ++ r).
Proof.
  induction rl as [| x rl IH]; intros v0 r; [reflexivity |].
  cbn [rev List.length linear_insert_loop forallb insert_rev].
  rewrite <- app_assoc. cbn [app].
  rewrite nth_error_app2 by (rewrite length_rev; lia).
  rewrite length_rev, Nat.sub_diag. cbn [nth_error].
  assert (E : forall z, assign (rev rl ++ x :: v0 :: r) (S (List.length rl)) z
                        = Some (rev rl ++ x :: z :: r)).
  { intros z. rewrite assign_Some by (rewrite length_app, length_rev; cbn; lia).
    f_equal.
    replace (rev rl ++ x :: v0 :: r) with ((rev rl ++ [x]) ++ v0 :: r)
      by (now rewrite <- app_assoc).
    replace (S (List.length rl)) with (List.length (rev rl ++ [x]))
      by (rewrite length_app, length_rev; cbn; lia).
    rewrite upd_app_mid. now rewrite <- app_assoc. }
  rewrite !E. destruct (comp val x); cbn [andb].
  - rewrite IH. destruct (forallb (comp val) rl); [reflexivity |].
    cbn [rev]. now rewrite <- app_assoc.
  - cbn [rev]. now rewrite <- !app_assoc.
Qed.

Lemma unguarded_linear_insert_spec (l r : list A) (val : A) :
  (exists x, In x l /\ comp val x = false) ->
  __unguarded_linear_insert comp (l ++ val :: r) (List.length l) =
  Some (insert_right comp val l ++ r).
Proof.
  intros [x [Hx Hc]]. unfold __unguarded_linear_insert.
  rewrite nth_error_app2, Nat.sub_diag by lia. cbn [nth_error].
  rewrite <- (rev_involutive l) at 1. rewrite <- (length_rev l).
  rewrite linear_insert_loop_spec.
  destruct (forallb (comp val) (rev l)) eqn:E; [| reflexivity].
  rewrite forallb_forall in E. rewrite (E x) in Hc; [discriminate |].
  now apply in_rev in Hx.
Qed.

(** Where the inserted element lands. *)
Lemma insert_rev_split (val : A) (rl : list A) :
  exists r2 r1,
    rl = r2 ++ r1 /\ insert_rev comp val rl = r2 ++ val :: r1 /\
    Forall (fun z => comp val z = true) r2 /\
    (forall x, hd_error r1 = Some x -> comp val x = false).
Proof.
  induction rl as [| x rl IH].
  - exists [], []. repeat split; [constructor | discriminate].
  - cbn [insert_rev]. destruct (comp val x) eqn:E.
    + destruct IH as [r2 [r1 [-> [-> [H1 H2]]]]].
      exists (x :: r2), r1. repeat split; [now constructor | exact H2].
    + exists [], (x :: rl). repeat split; [constructor |].
      intros y [= <-]. exact E.
Qed.

Lemma insert_right_split (val : A) (l : list A) :
  exists l1 l2,
    l = l1 ++ l2 /\ insert_right comp val l = l1 ++ val :: l2 /\
    Forall (fun z => comp val z = true) l2 /\
    (forall l1' x, l1 = l1' ++ [x] -> comp val x = false).
Proof.
  destruct (insert_rev_split val (rev l)) as [r2 [r1 [E1 [E2 [H1 H2]]]]].
  exists (rev r1), (rev r2). unfold insert_right. rewrite E2.
  split; [| split; [| split]].
  - rewrite <- rev_app_distr, <- E1. now rewrite rev_involutive.
  - rewrite rev_app_distr. cbn [rev]. now rewrite <- app_assoc.
  - apply Forall_forall. intros z Hz. rewrite Forall_forall in H1.
    apply H1. now apply in_rev.
  - intros l1' x E. apply H2.
    apply (f_equal (@rev A)) in E. rewrite rev_involutive, rev_app_distr in E.
    now rewrite E.
Qed.

Lemma insert_right_perm (val : A) (l : list A) :
  Permutation (val :: l) (insert_right comp val l).
Proof.
  destruct (insert_right_split val l) as [l1 [l2 [-> [-> _]]]].
  apply Permutation_middle.
Qed.

Lemma insert_right_length (val : A) (l : list A) :
  List.length (insert_right comp val l) = S (List.length l).
Proof.
  now rewrite <- (Permutation_length (insert_right_perm val l)).
Qed.

Lemma ordered_app (l1 l2 : list A) :
  ordered comp (l1 ++ l2) <->
  ordered comp l1 /\ ordered comp l2 /\
  (forall x y, In x l1 -> In y l2 -> comp y x = false).
Proof.
  unfold ordered. induction l1 as [| a l1 IH]; cbn [app].
  - split; [intros H | intros [_ [H _]]; exact H].
    split; [constructor |]. split; [exact H | intros x y []].
  - split.
    + intros H. inversion H as [| ? ? Hs Hf]; subst.
      apply IH in Hs. destruct Hs as [H1 [H2 H3]].
      rewrite Forall_app in Hf. destruct Hf as [Hf1 Hf2].
      split; [now constructor |]. split; [exact H2 |].
      intros x y [<- | Hx] Hy.
      * rewrite Forall_forall in Hf2. now apply Hf2.
      * now apply H3.
    + intros [H1 [H2 H3]]. inversion H1 as [| ? ? Hs Hf]; subst.
      constructor.
      * apply IH. split; [exact Hs |]. split; [exact H2 |].
        intros x y Hx Hy. apply H3; [now right | exact Hy].
      * apply Forall_app. split; [exact Hf |].
        apply Forall_forall. intros y Hy. apply H3; [now left | exact Hy].
Qed.

Lemma insert_right_ordered (val : A) (l : list A) :
  ordered comp l -> ordered comp (insert_right comp val l).
Proof.
  intros Hl.
  destruct (insert_right_split val l) as [l1 [l2 [-> [-> [H2 H1]]]]].
  apply ordered_app in Hl. destruct Hl as [Hl1 [Hl2 H12]].
  rewrite Forall_forall in H2.
  assert (Hv : forall x, In x l1 -> comp val x = false).
  { intros x Hx. destruct (exists_last (l := l1)) as [l1' [z E]].
    { intros ->. destruct Hx. }
    specialize (H1 l1' z E). subst l1.
    apply in_app_or in Hx. destruct Hx as [Hx | [<- | []]]; [| exact H1].
    apply ordered_app in Hl1. destruct Hl1 as [_ [_ H]].
    apply comp_negtrans with z; [exact H1 |].
    apply H; [exact Hx | now left]. }
  apply ordered_app. split; [exact Hl1 |]. split.
  - constructor; [exact Hl2 |].
    apply Forall_forall. intros y Hy. apply comp_asym. now apply H2.
  - intros x y Hx [<- | Hy]; [now apply Hv | now apply H12].
Qed.

(** An element that goes before all the others lands in front. *)
Lemma insert_right_front (val : A) (l : list A) :
  Forall (fun z => comp val z = true) l -> insert_right comp val l = val :: l.
Proof.
  intros H. unfold insert_right.
  assert (E : forall rl, Forall (fun z => comp val z = true) rl ->
                         insert_rev comp val rl = rl ++ [val]).
  { induction rl as [| x rl IH]; intros Hrl; [reflexivity |].
    inversion Hrl as [| ? ? Hx Hr]; subst. cbn [insert_rev]. rewrite Hx.
    now rewrite IH. }
  rewrite E.
  - rewrite rev_app_distr. cbn [rev app]. now rewrite rev_involutive.
  - apply Forall_forall. intros z Hz. rewrite Forall_forall in H.
    apply H. now apply in_rev.
Qed.

Lemma move_backward_loop_spec (l1 : list A) :
  forall (z : A) (t : list A),
    move_backward_loop (l1 ++ z :: t) 0 (List.length l1) (S (List.length l1)) =
    Some (match l1 with
          | [] => z :: t
          | h :: _ => h :: l1 ++ t
          end).
Proof.
  induction l1 as [| x l1 IH] using rev_ind; intros z t; [reflexivity |].
  rewrite length_app. cbn [List.length].
  replace (List.length l1 + 1) with (S (List.length l1)) by lia.
  cbn [move_backward_loop Nat.add].
  rewrite <- app_assoc. cbn [app].
  rewrite nth_error_app2, Nat.sub_diag by lia. cbn [nth_error].
  replace (l1 ++ x :: z :: t) with ((l1 ++ [x]) ++ z :: t)
    by (now rewrite <- app_assoc).
  rewrite assign_Some by (rewrite !length_app; cbn; lia).
  replace (S (List.length l1)) with (List.length (l1 ++ [x])) at 1
    by (rewrite length_app; cbn; lia).
  rewrite upd_app_mid, <- app_assoc. cbn [app].
  rewrite IH. f_equal. destruct l1 as [| h l1]; [reflexivity |].
  cbn [app]. now rewrite <- app_assoc.
Qed.

Lemma ordered_head (f : A) (l : list A) (z : A) :
  ordered comp (f :: l) -> In z (f :: l) -> comp z f = false.
Proof.
  intros H [<- | Hz]; [apply comp_irrefl |].
  inversion H as [| ? ? _ Hf]; subst. rewrite Forall_forall in Hf.
  now apply Hf.
Qed.

(** One turn of the loop of [__insertion_sort]. *)
Lemma insertion_sort_step (s r : list A) (x f : A) :
  ordered comp s -> hd_error s = Some f ->
  (if comp x f then
     match move_backward (s ++ x :: r) 0 (List.length s) (List.length s + 1) with
     | Some a => assign a 0 x
     | None => None
     end
   else __unguarded_linear_insert comp (s ++ x :: r) (List.length s)) =
  Some (insert_right comp x s ++ r).
Proof.
  intros Hs Hf. destruct s as [| f' s]; [discriminate |].
  injection Hf as ->. destruct (comp x f) eqn:E.
  - unfold move_backward. rewrite Nat.sub_0_r, Nat.add_1_r.
    rewrite move_backward_loop_spec.
    rewrite assign_Some by (cbn; lia).
    rewrite insert_right_front.
    + reflexivity.
    + apply Forall_forall. intros z Hz.
      apply comp_lt_le with f; [exact E |]. now apply ordered_head with s.
  - apply unguarded_linear_insert_spec. exists f. split; [now left | exact E].
Qed.

Lemma insertion_sort_loop_spec (n : nat) :
  forall s r : list A,
    ordered comp s -> s <> [] -> n <= List.length r ->
    insertion_sort_loop comp (s ++ r) 0 (List.length s) n =
    Some (fold_left (fun s val => insert_right comp val s) (firstn n r) s
          ++ skipn n r).
Proof.
  induction n as [| n IH]; intros s r Hs Hne Hn; [reflexivity |].
  destruct r as [| x r]; [cbn in Hn; lia |].
  cbn [insertion_sort_loop firstn skipn fold_left].
  destruct (hd_error s) as [f |] eqn:Hf;
    [| destruct s; [contradiction | discriminate]].
  assert (E0 : nth_error (s ++ x :: r) 0 = Some f)
    by (destruct s; [discriminate | now injection Hf as ->]).
  assert (Ei : nth_error (s ++ x :: r) (List.length s) = Some x)
    by (rewrite nth_error_app2, Nat.sub_diag by lia; reflexivity).
  rewrite E0, Ei.
  rewrite (insertion_sort_step s r x f Hs Hf).
  replace (List.length s + 1) with (List.length (insert_right comp x s))
    by (rewrite insert_right_length; lia).
  apply IH.
  - now apply insert_right_ordered.
  - intros E. apply (f_equal (@List.length A)) in E.
    rewrite insert_right_length in E. discriminate E.
  - cbn in Hn. lia.
Qed.

Lemma unguarded_insertion_sort_loop_spec (n : nat) :
  forall s r : list A,
    n <= List.length r ->
    (forall k val, k < n -> nth_error r k = Some val ->
                   exists x, In x (s ++ firstn k r) /\ comp val x = false) ->
    unguarded_insertion_sort_loop comp (s ++ r) (List.length s) n =
    Some (fold_left (fun s val => insert_right comp val s) (firstn n r) s
          ++ skipn n r).
Proof.
  induction n as [| n IH]; intros s r Hn Hsafe; [reflexivity |].
  destruct r as [| x r]; [cbn in Hn; lia |].
  cbn [unguarded_insertion_sort_loop firstn skipn fold_left].
  rewrite unguarded_linear_insert_spec.
  - replace (List.length s + 1) with (List.length (insert_right comp x s))
      by (rewrite insert_right_length; lia).
    apply IH; [cbn in Hn; lia |].
    intros k val Hk Hval.
    destruct (Hsafe (S k) val) as [y [Hy Hc]]; [lia | exact Hval |].
    exists y. split; [| exact Hc].
    cbn [firstn] in Hy. apply in_app_or in Hy. apply in_or_app.
    destruct Hy as [Hy | [<- | Hy]].
    + left. apply (Permutation_in _ (insert_right_perm x s)). now right.
    + left. apply (Permutation_in _ (insert_right_perm x s)). now left.
    + now right.
  - destruct (Hsafe 0 x) as [y [Hy Hc]]; [lia | reflexivity |].
    cbn [firstn] in Hy. rewrite app_nil_r in Hy. now exists y.
Qed.

Lemma firstn_add (m k : nat) (l : list A) :
  firstn (m + k) l = firstn m l ++ firstn k (skipn m l).
Proof.
  revert l. induction m as [| m IH]; intros l; [reflexivity |].
  destruct l as [| x l]; [now rewrite !firstn_nil |].
  cbn [Nat.add firstn skipn app]. now rewrite IH.
Qed.

Lemma fold_insert_perm (vs : list A) :
  forall s, Permutation (s ++ vs)
              (fold_left (fun s val => insert_right comp val s) vs s).
Proof.
  induction vs as [| v vs IH]; intros s; cbn [fold_left].
  - now rewrite app_nil_r.
  - rewrite <- IH. rewrite <- (insert_right_perm v s).
    cbn [app]. symmetry. apply Permutation_middle.
Qed.

Lemma fold_insert_ordered (vs : list A) :
  forall s, ordered comp s ->
            ordered comp (fold_left (fun s val => insert_right comp val s) vs s).
Proof.
  induction vs as [| v vs IH]; intros s Hs; cbn [fold_left]; [exact Hs |].
  apply IH. now apply insert_right_ordered.
Qed.

Lemma insertion_sorted_perm (l : list A) :
  Permutation l (insertion_sorted comp l).
Proof. apply (fold_insert_perm l []). Qed.

Lemma insertion_sorted_ordered (l : list A) :
  ordered comp (insertion_sorted comp l).
Proof. apply fold_insert_ordered. constructor. Qed.

Lemma insertion_sorted_length (l : list A) :
  List.length (insertion_sorted comp l) = List.length l.
Proof. symmetry. apply Permutation_length, insertion_sorted_perm. Qed.

(** [__insertion_sort] on the first [m] elements. *)
Lemma insertion_sort_spec (a : list A) (m : nat) :
  m <= List.length a ->
  __insertion_sort comp a 0 m =
  Some (insertion_sorted comp (firstn m a) ++ skipn m a).
Proof.
  intros Hm. unfold __insertion_sort.
  destruct m as [| m]; [reflexivity |]. cbn [Nat.eqb].
  destruct a as [| a0 t]; [cbn in Hm; lia |].
  replace (S m - (0 + 1)) with m by lia.
  change (a0 :: t) with ([a0] ++ t) at 1.
  change (0 + 1) with (List.length [a0]).
  rewrite insertion_sort_loop_spec.
  - reflexivity.
  - repeat constructor.
  - discriminate.
  - cbn in Hm. lia.
Qed.

(** [__final_insertion_sort] on the whole vector. *)
Lemma final_insertion_sort_spec (a : list A) :
  guarded_from comp a 0 (List.length a) ->
  __final_insertion_sort comp a 0 (List.length a) =
  Some (insertion_sorted comp a).
Proof.
  intros Hg. unfold __final_insertion_sort. rewrite Nat.sub_0_r.
  unfold _S_threshold.
  destruct (Nat.ltb_spec 16 (List.length a)) as [Hlen | Hlen].
  - rewrite insertion_sort_spec by lia. cbn [Nat.add].
    unfold __unguarded_insertion_sort.
    set (s := insertion_sorted comp (firstn 16 a)).
    assert (Hs : List.length s = 16).
    { unfold s. rewrite insertion_sorted_length, length_firstn. lia. }
    pose proof (unguarded_insertion_sort_loop_spec
                  (List.length a - 16) s (skipn 16 a)) as H.
    rewrite Hs in H. rewrite H; clear H.
    + assert (El : List.length (skipn 16 a) <= List.length a - 16)
        by (rewrite length_skipn; lia).
      rewrite firstn_all2 by exact El.
      replace (skipn (List.length a - 16) (skipn 16 a)) with (@nil A)
        by (symmetry; apply skipn_all2; exact El).
      rewrite app_nil_r. f_equal. unfold s, insertion_sorted.
      rewrite <- fold_left_app. now rewrite firstn_skipn.
    + rewrite length_skipn. lia.
    + intros k val Hk Hval. rewrite nth_error_skipn in Hval.
      destruct (Hg (16 + k) val) as [j [y [_ [Hj [Hy Hc]]]]];
        [lia | lia | exact Hval |].
      exists y. split; [| exact Hc].
      assert (Hin : In y (firstn (16 + k) a)).
      { apply nth_error_In with j. rewrite nth_error_firstn.
        destruct (Nat.ltb_spec j (16 + k)); [exact Hy | lia]. }
      rewrite firstn_add in Hin. apply in_app_or in Hin. apply in_or_app.
      destruct Hin as [Hin | Hin]; [left | now right].
      unfold s. now apply (Permutation_in _ (insertion_sorted_perm _)).
  - rewrite insertion_sort_spec by lia.
    now rewrite firstn_all, skipn_all, app_nil_r.
Qed.

(** ** Ranges of the vector *)

Lemma same_outside_refl (a : list A) (lo hi : nat) : same_outside a a lo hi.
Proof. now split. Qed.

Lemma same_outside_trans (a b c : list A) (lo hi : nat) :
  same_outside a b lo hi -> same_outside b c lo hi -> same_outside a c lo hi.
Proof.
  intros [L1 H1] [L2 H2]. split; [congruence |].
  intros k Hk. now rewrite H2, H1.
Qed.

Lemma same_outside_wider (a b : list A) (lo hi lo' hi' : nat) :
  same_outside a b lo hi -> lo' <= lo -> hi <= hi' ->
  same_outside a b lo' hi'.
Proof.
  intros [L H] Hlo Hhi. split; [exact L |].
  intros k Hk. apply H. lia.
Qed.

Lemma same_outside_upd (a : list A) (i : nat) (x : A) (lo hi : nat) :
  i < List.length a -> lo <= i -> i < hi ->
  same_outside a (upd a i x) lo hi.
Proof.
  intros Hi Hlo Hhi. split; [now apply upd_length |].
  intros k Hk. rewrite nth_error_upd by exact Hi.
  destruct (Nat.eqb_spec k i); [lia | reflexivity].
Qed.

(** The elements of a range that only that range has moved into. *)
Lemma range_segments (a : list A) (lo hi : nat) :
  lo <= hi -> hi <= List.length a ->
  a = firstn lo a ++ firstn (hi - lo) (skipn lo a) ++ skipn hi a.
Proof.
  intros H1 H2.
  rewrite <- (firstn_skipn lo a) at 1. f_equal.
  rewrite <- (firstn_skipn (hi - lo) (skipn lo a)) at 1. f_equal.
  rewrite skipn_skipn. f_equal. lia.
Qed.

Lemma same_outside_segments (a b : list A) (lo hi : nat) :
  same_outside a b lo hi ->
  firstn lo b = firstn lo a /\ skipn hi b = skipn hi a.
Proof.
  intros [L H]. split; apply nth_error_ext; intros k.
  - rewrite !nth_error_firstn.
    destruct (Nat.ltb_spec k lo); [apply H; lia | reflexivity].
  - rewrite !nth_error_skipn. apply H. lia.
Qed.

Lemma range_perm (a b : list A) (lo hi : nat) :
  lo <= hi -> hi <= List.length a ->
  Permutation a b -> same_outside a b lo hi ->
  Permutation (firstn (hi - lo) (skipn lo a)) (firstn (hi - lo) (skipn lo b)).
Proof.
  intros H1 H2 Hp Hs.
  destruct (same_outside_segments a b lo hi Hs) as [E1 E2].
  rewrite (range_segments a lo hi H1 H2) in Hp.
  rewrite (range_segments b lo hi H1) in Hp by (destruct Hs; lia).
  rewrite E1, E2 in Hp.
  apply Permutation_app_inv_l in Hp.
  now apply Permutation_app_inv_r in Hp.
Qed.

Lemma in_range (a : list A) (lo hi : nat) (x : A) :
  In x (firstn (hi - lo) (skipn lo a)) <->
  exists k, lo <= k /\ k < hi /\ nth_error a k = Some x.
Proof.
  split.
  - intros H. apply In_nth_error in H. destruct H as [n H].
    rewrite nth_error_firstn in H.
    destruct (Nat.ltb_spec n (hi - lo)); [| discriminate].
    rewrite nth_error_skipn in H. exists (lo + n).
    split; [lia |]. split; [lia | exact H].
  - intros [k [H1 [H2 H3]]]. apply nth_error_In with (k - lo).
    rewrite nth_error_firstn.
    destruct (Nat.ltb_spec (k - lo) (hi - lo)); [| lia].
    rewrite nth_error_skipn. now replace (lo + (k - lo)) with k by lia.
Qed.

(** An element found in the range afterwards was in the range before. *)
Lemma range_transport (a b : list A) (lo hi k : nat) (x : A) :
  lo <= hi -> hi <= List.length a ->
  Permutation a b -> same_outside a b lo hi ->
  lo <= k -> k < hi -> nth_error b k = Some x ->
  exists k', lo <= k' /\ k' < hi /\ nth_error a k' = Some x.
Proof.
  intros H1 H2 Hp Hs Hk1 Hk2 Hx.
  apply in_range.
  apply (Permutation_in _ (Permutation_sym (range_perm a b lo hi H1 H2 Hp Hs))).
  apply in_range. now exists k.
Qed.

(** ** The partition *)

Section Partition.

Variable pivot : nat.
Variable p : A.

Lemma scan_up_spec (a : list A) (d : nat) :
  nth_error a pivot = Some p ->
  forall first k x,
    k = first + d -> nth_error a k = Some x -> comp x p = false ->
    exists first',
      scan_up comp (List.length a - first) a first pivot = Some first' /\
      first <= first' /\ first' <= k /\
      (exists y, nth_error a first' = Some y /\ comp y p = false) /\
      (forall j y, first <= j -> j < first' -> nth_error a j = Some y ->
                   comp y p = true).
Proof.
  intros Hp. induction d as [| d IH]; intros first k x Hk Hx Hc.
  - assert (k = first) as -> by lia.
    pose proof (nth_error_Some_lt a first x Hx) as Hlt.
    destruct (List.length a - first) as [| n] eqn:E; [lia |].
    cbn [scan_up]. rewrite Hx, Hp, Hc.
    exists first. repeat split; try lia.
    now exists x.
  - pose proof (nth_error_Some_lt a k x Hx) as Hlt.
    destruct (List.length a - first) as [| n] eqn:E; [lia |].
    cbn [scan_up].
    destruct (nth_error_lt_Some a first) as [z Hz]; [lia |].
    rewrite Hz, Hp. destruct (comp z p) eqn:Ez.
    + replace n with (List.length a - (first + 1)) by lia.
      destruct (IH (first + 1) k x) as [f' [H1 [H2 [H3 [H4 H5]]]]];
        [lia | exact Hx | exact Hc |].
      exists f'. split; [exact H1 |]. split; [lia |]. split; [exact H3 |].
      split; [exact H4 |].
      intros j y Hj1 Hj2 Hy.
      destruct (Nat.eq_dec j first) as [-> | Hne].
      * congruence.
      * apply (H5 j y); [lia | exact Hj2 | exact Hy].
    + exists first. repeat split; try lia.
      now exists z.
Qed.

Lemma scan_down_spec (a : list A) :
  nth_error a pivot = Some p ->
  forall last,
    pivot < last -> last <= List.length a ->
    exists last',
      scan_down comp a last pivot = Some last' /\
      pivot <= last' /\ last' < last /\
      (exists y, nth_error a last' = Some y /\ comp p y = false) /\
      (forall j y, last' < j -> j < last -> nth_error a j = Some y ->
                   comp p y = true).
Proof.
  intros Hp. induction last as [| last IH]; intros H1 H2; [lia |].
  cbn [scan_down]. rewrite Hp.
  destruct (nth_error_lt_Some a last) as [z Hz]; [lia |]. rewrite Hz.
  destruct (comp p z) eqn:Ez.
  - assert (Hne : pivot <> last).
    { intros ->. rewrite Hp in Hz. injection Hz as <-.
      now rewrite comp_irrefl in Ez. }
    destruct IH as [l' [E [H3 [H4 [H5 H6]]]]]; [lia | lia |].
    exists l'. split; [exact E |]. split; [exact H3 |]. split; [lia |].
    split; [exact H5 |].
    intros j y Hj1 Hj2 Hy.
    destruct (Nat.eq_dec j last) as [-> | Hne'].
    + congruence.
    + apply (H6 j y); [exact Hj1 | lia | exact Hy].
  - exists last. repeat split; try lia.
    now exists z.
Qed.

Variable hi : nat.

Lemma unguarded_partition_loop_spec (steps : nat) :
  forall (a : list A) (first last : nat),
    nth_error a pivot = Some p ->
    pivot < first -> first <= last -> last <= hi -> hi <= List.length a ->
    last - first < steps ->
    (forall k x, pivot < k -> k < first -> nth_error a k = Some x ->
                 comp p x = false) ->
    (forall k x, last <= k -> k < hi -> nth_error a k = Some x ->
                 comp x p = false) ->
    (exists k x, first <= k /\ k < hi /\ nth_error a k = Some x /\
                 comp x p = false) ->
    exists a' cut,
      unguarded_partition_loop comp steps a first last pivot = Some (a', cut) /\
      pivot < cut /\ cut < hi /\
      Permutation a a' /\ same_outside a a' (pivot + 1) hi /\
      (forall k x, pivot < k -> k < cut -> nth_error a' k = Some x ->
                   comp p x = false) /\
      (forall k x, cut <= k -> k < hi -> nth_error a' k = Some x ->
                   comp x p = false).
Proof.
  induction steps as [| steps IH];
    intros a first last Hp H1 H2 H3 H4 Hsteps HL HR [k [x [Hk1 [Hk2 [Hx Hc]]]]];
    [lia |].
  cbn [unguarded_partition_loop].
  destruct (scan_up_spec a (k - first) Hp first k x)
    as [f' [Ef [Hf1 [Hf2 [[xf [Hxf Hcf]] Hf3]]]]]; [lia | exact Hx | exact Hc |].
  rewrite Ef.
  destruct (scan_down_spec a Hp last) as [l' [El [Hl1 [Hl2 [[xl [Hxl Hcl]] Hl3]]]]];
    [lia | lia |].
  rewrite El.
  destruct (Nat.ltb_spec f' l') as [Hlt | Hge]; cbn [negb].
  - rewrite (iter_swap_Some a f' l' xf xl Hxf Hxl).
    pose proof (nth_error_Some_lt a f' xf Hxf) as Lf.
    pose proof (nth_error_Some_lt a l' xl Hxl) as Ll.
    set (a1 := upd (upd a f' xl) l' xf).
    assert (Ea1 : forall j, nth_error a1 j =
                            if j =? l' then Some xf
                            else if j =? f' then Some xl else nth_error a j).
    { intros j. unfold a1.
      now rewrite !nth_error_upd by (rewrite ?upd_length; lia). }
    assert (La1 : List.length a1 = List.length a).
    { unfold a1. now rewrite !upd_length by (rewrite ?upd_length; lia). }
    destruct (IH a1 (f' + 1) l') as [a' [cut [E [C1 [C2 [C3 [C4 [C5 C6]]]]]]]].
    + rewrite Ea1.
      destruct (Nat.eqb_spec pivot l'); [lia |].
      destruct (Nat.eqb_spec pivot f'); [lia | exact Hp].
    + lia.
    + lia.
    + lia.
    + lia.
    + lia.
    + intros j y Hj1 Hj2 Hy. rewrite Ea1 in Hy.
      destruct (Nat.eqb_spec j l'); [lia |].
      destruct (Nat.eqb_spec j f') as [-> | Hne].
      * now injection Hy as <-.
      * destruct (Nat.lt_ge_cases j first) as [Hj | Hj].
        -- now apply (HL j y).
        -- apply comp_asym. apply (Hf3 j y); [lia | lia | exact Hy].
    + intros j y Hj1 Hj2 Hy. rewrite Ea1 in Hy.
      destruct (Nat.eqb_spec j l') as [-> | Hne].
      * now injection Hy as <-.
      * destruct (Nat.eqb_spec j f'); [lia |].
        destruct (Nat.lt_ge_cases j last) as [Hj | Hj].
        -- apply comp_asym. apply (Hl3 j y); [lia | lia | exact Hy].
        -- now apply (HR j y).
    + exists l', xf. split; [lia |]. split; [lia |]. split; [| exact Hcf].
      rewrite Ea1. now rewrite Nat.eqb_refl.
    + exists a', cut. split; [exact E |]. split; [lia |]. split; [exact C2 |].
      split; [| split; [| split; [exact C5 | exact C6]]].
      * rewrite <- C3. unfold a1. now apply perm_upd_upd.
      * apply same_outside_trans with a1; [| exact C4].
        split; [exact La1 |]. intros j Hj. rewrite Ea1.
        destruct (Nat.eqb_spec j l'); [lia |].
        destruct (Nat.eqb_spec j f'); [lia | reflexivity].
  - exists a, f'. split; [reflexivity |]. split; [lia |]. split; [lia |].
    split; [reflexivity |]. split; [apply same_outside_refl |]. split.
    + intros j y Hj1 Hj2 Hy.
      destruct (Nat.lt_ge_cases j first) as [Hj | Hj].
      * now apply (HL j y).
      * apply comp_asym. apply (Hf3 j y); [lia | lia | exact Hy].
    + intros j y Hj1 Hj2 Hy.
      destruct (Nat.lt_ge_cases j last) as [Hj | Hj].
      * destruct (Nat.eq_dec j l') as [-> | Hne].
        -- assert (l' = f') as -> by lia. congruence.
        -- apply comp_asym. apply (Hl3 j y); [lia | lia | exact Hy].
      * now apply (HR j y).
Qed.

End Partition.

(** The partition once the median stands in front: [c] is the slot that
    held the median, [s] a slot whose element does not go before it. *)
Lemma partition_after_median (a : list A) (first last c s : nat)
  (x0 m z : A) :
  nth_error a first = Some x0 -> nth_error a c = Some m ->
  nth_error a s = Some z ->
  first < c -> c < last -> first < s -> s < last -> s <> c ->
  last <= List.length a -> comp z m = false ->
  exists a' cut,
    match iter_swap a first c with
    | Some a0 => __unguarded_partition comp a0 (first + 1) last first
    | None => None
    end = Some (a', cut) /\
    first < cut /\ cut < last /\
    Permutation a a' /\ same_outside a a' first last /\
    (forall k j x y,
       first <= k -> k < cut -> cut <= j -> j < last ->
       nth_error a' k = Some x -> nth_error a' j = Some y ->
       comp y x = false).
Proof.
  intros H0 Hm Hz Hc1 Hc2 Hs1 Hs2 Hsc Hlen Hcomp.
  rewrite (iter_swap_Some a first c x0 m H0 Hm).
  set (a0 := upd (upd a first m) c x0).
  assert (Ea0 : forall j, nth_error a0 j =
                          if j =? c then Some x0
                          else if j =? first then Some m else nth_error a j).
  { intros j. unfold a0.
    now rewrite !nth_error_upd by (rewrite ?upd_length; lia). }
  assert (La0 : List.length a0 = List.length a).
  { unfold a0. now rewrite !upd_length by (rewrite ?upd_length; lia). }
  unfold __unguarded_partition.
  destruct (unguarded_partition_loop_spec first m last (List.length a0 + 1)
              a0 (first + 1) last)
    as [a' [cut [E [C1 [C2 [C3 [C4 [C5 C6]]]]]]]].
  - rewrite Ea0. destruct (Nat.eqb_spec first c); [lia |].
    now rewrite Nat.eqb_refl.
  - lia.
  - lia.
  - lia.
  - lia.
  - lia.
  - intros k x Hk1 Hk2. lia.
  - intros k x Hk1 Hk2. lia.
  - exists s, z. split; [lia |]. split; [lia |]. split; [| exact Hcomp].
    rewrite Ea0. destruct (Nat.eqb_spec s c); [lia |].
    destruct (Nat.eqb_spec s first); [lia | exact Hz].
  - exists a', cut. split; [exact E |]. split; [exact C1 |].
    split; [exact C2 |].
    assert (Hs0 : same_outside a a0 first last).
    { split; [exact La0 |]. intros j Hj. rewrite Ea0.
      destruct (Nat.eqb_spec j c); [lia |].
      destruct (Nat.eqb_spec j first); [lia | reflexivity]. }
    split; [| split].
    + rewrite <- C3. unfold a0. now apply perm_upd_upd.
    + apply same_outside_trans with a0; [exact Hs0 |].
      apply same_outside_wider with (first + 1) last; [exact C4 | lia | lia].
    + intros k j x y Hk1 Hk2 Hj1 Hj2 Hx Hy.
      assert (Hy' : comp y m = false) by now apply (C6 j y).
      destruct (Nat.eq_dec k first) as [-> | Hne].
      * destruct C4 as [_ C4]. rewrite C4 in Hx by lia.
        rewrite Ea0 in Hx. destruct (Nat.eqb_spec first c); [lia |].
        rewrite Nat.eqb_refl in Hx. now injection Hx as <-.
      * apply comp_negtrans with m; [exact Hy' |].
        apply (C5 k x); [lia | exact Hk2 | exact Hx].
Qed.

Lemma unguarded_partition_pivot_spec (a : list A) (first last : nat) :
  16 < last - first -> last <= List.length a ->
  exists a' cut,
    __unguarded_partition_pivot comp a first last = Some (a', cut) /\
    first < cut /\ cut < last /\
    Permutation a a' /\ same_outside a a' first last /\
    (forall k j x y,
       first <= k -> k < cut -> cut <= j -> j < last ->
       nth_error a' k = Some x -> nth_error a' j = Some y ->
       comp y x = false).
Proof.
  intros Hsize Hlen. unfold __unguarded_partition_pivot, __move_median_to_first.
  set (mid := first + (last - first) / 2).
  assert (Hmid : first + 1 < mid /\ mid < last - 1) by (unfold mid; dlia).
  destruct (nth_error_lt_Some a first) as [x0 H0]; [lia |].
  destruct (nth_error_lt_Some a (first + 1)) as [xa Ha]; [lia |].
  destruct (nth_error_lt_Some a mid) as [xb Hb]; [lia |].
  destruct (nth_error_lt_Some a (last - 1)) as [xc Hc]; [lia |].
  rewrite Ha, Hb, Hc.
  destruct (comp xa xb) eqn:Eab; [destruct (comp xb xc) eqn:Ebc;
    [| destruct (comp xa xc) eqn:Eac] | destruct (comp xa xc) eqn:Eac;
    [| destruct (comp xb xc) eqn:Ebc]].
  - apply (partition_after_median a first last mid (last - 1) x0 xb xc);
      try assumption; try lia. now apply comp_asym.
  - apply (partition_after_median a first last (last - 1) mid x0 xc xb);
      try assumption; lia.
  - apply (partition_after_median a first last (first + 1) mid x0 xa xb);
      try assumption; try lia. now apply comp_asym.
  - apply (partition_after_median a first last (first + 1) (last - 1) x0 xa xc);
      try assumption; try lia. now apply comp_asym.
  - apply (partition_after_median a first last (last - 1) (first + 1) x0 xc xa);
      try assumption; lia.
  - apply (partition_after_median a first last mid (first + 1) x0 xb xa);
      try assumption; lia.
Qed.

(** ** The heap *)

Lemma nth_error_upd_at (a : list A) (i : nat) (x : A) :
  i < List.length a -> nth_error (upd a i x) i = Some x.
Proof. intros H. rewrite nth_error_upd by exact H. now rewrite Nat.eqb_refl. Qed.

Lemma nth_error_upd_other (a : list A) (i j : nat) (x : A) :
  i < List.length a -> j <> i -> nth_error (upd a i x) j = nth_error a j.
Proof.
  intros H Hne. rewrite nth_error_upd by exact H.
  destruct (Nat.eqb_spec j i); [contradiction | reflexivity].
Qed.

Lemma below_le (p h : nat) : below p h -> p <= h.
Proof. induction 1; lia. Qed.

Lemma below_parent (p h : nat) : below p h -> h <> p -> below p ((h - 1) / 2).
Proof.
  intros H Hne. destruct H as [| h H | h H]; [contradiction | |].
  - replace ((2 * h + 1 - 1) / 2) with h by dlia. exact H.
  - replace ((2 * h + 2 - 1) / 2) with h by dlia. exact H.
Qed.

Lemma below_child (p h c : nat) :
  below p h -> 1 <= c -> (c - 1) / 2 = h -> below p c.
Proof.
  intros H Hc E.
  assert (Hcases : c = 2 * h + 1 \/ c = 2 * h + 2) by dlia.
  destruct Hcases as [-> | ->]; now constructor.
Qed.

Section Heap.

Variable first len p : nat.

(** The hole moves down to the child [c], which does not go before its
    sibling. *)
Lemma hole_down (a : list A) (h c : nat) (z : A) :
  first + len <= List.length a ->
  hole_inv comp a first len p h ->
  1 <= c -> c < len -> (c - 1) / 2 = h ->
  nth_error a (first + c) = Some z ->
  (forall k y, 1 <= k -> k < len -> (k - 1) / 2 = h -> k <> c ->
               nth_error a (first + k) = Some y -> comp z y = false) ->
  hole_inv comp (upd a (first + h) z) first len p c.
Proof.
  intros Hlen [H1 [H2 [H3 [H4 H5]]]] Hc1 Hc2 Hc3 Hz Hsib.
  assert (Hh : h < c) by dlia.
  split; [lia |]. split; [exact Hc2 |].
  split; [now apply below_child with h |]. split.
  - intros k x y Hk1 Hk2 Hk3 Hk4 Hk5 Hx Hy.
    destruct (Nat.eq_dec k h) as [-> | Hkh].
    + assert (Hhp : h <> p) by dlia.
      rewrite nth_error_upd_at in Hy by lia. injection Hy as <-.
      rewrite nth_error_upd_other in Hx by dlia.
      now apply (H5 Hhp c x z).
    + rewrite (nth_error_upd_other a (first + h) (first + k)) in Hy by lia.
      destruct (Nat.eq_dec ((k - 1) / 2) h) as [E | Hne].
      * rewrite E in Hx. rewrite nth_error_upd_at in Hx by lia.
        injection Hx as <-. now apply (Hsib k y).
      * rewrite nth_error_upd_other in Hx by lia.
        now apply (H4 k x y).
  - intros _ c' x y Hc'1 Hc'2 Hc'3 Hx Hy.
    rewrite Hc3 in Hx. rewrite nth_error_upd_at in Hx by lia.
    injection Hx as <-.
    rewrite nth_error_upd_other in Hy by dlia.
    apply (H4 c' z y); try assumption; try dlia.
    now rewrite Hc'3.
Qed.

(** The hole moves up to its parent, which goes before the value. *)
Lemma hole_up (a : list A) (h : nat) (value x : A) :
  first + len <= List.length a ->
  hole_inv comp a first len p h ->
  above_children comp a first len h value ->
  p < h ->
  nth_error a (first + (h - 1) / 2) = Some x ->
  comp x value = true ->
  hole_inv comp (upd a (first + h) x) first len p ((h - 1) / 2) /\
  above_children comp (upd a (first + h) x) first len ((h - 1) / 2) value.
Proof.
  intros Hlen [H1 [H2 [H3 [H4 H5]]]] Hv Hph Hx Hc.
  set (q := (h - 1) / 2) in *.
  assert (Hq : q < h) by (unfold q; dlia).
  assert (Hbq : below p q) by (apply below_parent; [exact H3 | lia]).
  pose proof (below_le p q Hbq) as Hpq.
  assert (Hhp : h <> p) by lia.
  split; [split; [exact Hpq |]; split; [lia |]; split; [exact Hbq |]; split |].
  - intros k x' y Hk1 Hk2 Hk3 Hk4 Hk5 Hx' Hy.
    assert (Hkh : k <> h) by (intros ->; now apply Hk5).
    rewrite (nth_error_upd_other a (first + h) (first + k)) in Hy by lia.
    destruct (Nat.eq_dec ((k - 1) / 2) h) as [E | Hne].
    + rewrite E in Hx'. rewrite nth_error_upd_at in Hx' by lia.
      injection Hx' as <-. now apply (H5 Hhp k x y).
    + rewrite nth_error_upd_other in Hx' by lia.
      now apply (H4 k x' y).
  - intros Hqp c x' y Hc1 Hc2 Hc3 Hx' Hy.
    assert (Hbqq : below p ((q - 1) / 2)) by now apply below_parent.
    pose proof (below_le _ _ Hbqq) as Hpqq.
    assert (Hq1 : 1 <= q) by lia.
    rewrite nth_error_upd_other in Hx' by dlia.
    assert (Hgq : comp x' x = false).
    { apply (H4 q x' x); try assumption; dlia. }
    destruct (Nat.eq_dec c h) as [-> | Hch].
    + rewrite nth_error_upd_at in Hy by lia. now injection Hy as <-.
    + rewrite nth_error_upd_other in Hy by lia.
      apply comp_negtrans with x; [exact Hgq |].
      apply (H4 c x y); try assumption; try lia.
      now rewrite Hc3.
  - intros c y Hc1 Hc2 Hc3 Hy.
    destruct (Nat.eq_dec c h) as [-> | Hch].
    + rewrite nth_error_upd_at in Hy by lia. injection Hy as <-.
      now apply comp_asym.
    + rewrite nth_error_upd_other in Hy by lia.
      assert (Hxy : comp x y = false).
      { apply (H4 c x y); try assumption; try lia. now rewrite Hc3. }
      destruct (comp value y) eqn:E; [| reflexivity].
      now rewrite (comp_trans x value y Hc E) in Hxy.
Qed.

(** The value fills the hole. *)
Lemma hole_fill (a : list A) (h : nat) (value : A) :
  first + len <= List.length a ->
  hole_inv comp a first len p h ->
  above_children comp a first len h value ->
  (p < h -> forall x, nth_error a (first + (h - 1) / 2) = Some x ->
                      comp x value = false) ->
  heap_from comp (upd a (first + h) value) first len p.
Proof.
  intros Hlen [H1 [H2 [H3 [H4 H5]]]] Hv Hpar k x y Hk1 Hk2 Hk3 Hx Hy.
  destruct (Nat.eq_dec k h) as [-> | Hkh].
  - assert (Hph : p < h) by dlia.
    rewrite nth_error_upd_at in Hy by lia. injection Hy as <-.
    rewrite nth_error_upd_other in Hx by dlia.
    now apply Hpar.
  - rewrite (nth_error_upd_other a (first + h) (first + k)) in Hy by lia.
    destruct (Nat.eq_dec ((k - 1) / 2) h) as [E | Hne].
    + rewrite E in Hx. rewrite nth_error_upd_at in Hx by lia.
      injection Hx as <-. now apply (Hv k y).
    + rewrite nth_error_upd_other in Hx by lia.
      now apply (H4 k x y).
Qed.

(** [__push_heap] from the hole [h] up to the top [p]. *)
Lemma push_heap_loop_spec (value : A) (steps : nat) :
  forall (a : list A) (h : nat),
    first + len <= List.length a ->
    hole_inv comp a first len p h ->
    above_children comp a first len h value ->
    h < steps ->
    exists a',
      push_heap_loop comp steps a first h p value = Some a' /\
      heap_from comp a' first len p /\
      Permutation (upd a (first + h) value) a' /\
      same_outside a a' first (first + len).
Proof.
  induction steps as [| steps IH]; intros a h Hlen Hinv Hv Hsteps; [lia |].
  pose proof Hinv as [H1 [H2 _]].
  cbn [push_heap_loop].
  assert (Hfill :
    (p < h -> forall x, nth_error a (first + (h - 1) / 2) = Some x ->
                        comp x value = false) ->
    exists a',
      assign a (first + h) value = Some a' /\
      heap_from comp a' first len p /\
      Permutation (upd a (first + h) value) a' /\
      same_outside a a' first (first + len)).
  { intros Hpar. exists (upd a (first + h) value).
    split; [apply assign_Some; lia |].
    split; [now apply hole_fill |]. split; [reflexivity |].
    apply same_outside_upd; lia. }
  destruct (Nat.ltb_spec p h) as [Hph | Hph].
  - destruct (nth_error_lt_Some a (first + (h - 1) / 2)) as [x Hx]; [dlia |].
    rewrite Hx. destruct (comp x value) eqn:Ec.
    + rewrite assign_Some by lia.
      destruct (hole_up a h value x Hlen Hinv Hv Hph Hx Ec) as [Hinv' Hv'].
      destruct (IH (upd a (first + h) x) ((h - 1) / 2))
        as [a' [E [Hh [Hp Hs]]]].
      * rewrite upd_length; lia.
      * exact Hinv'.
      * exact Hv'.
      * dlia.
      * exists a'. split; [exact E |]. split; [exact Hh |]. split.
        -- rewrite <- Hp. apply perm_hole; [lia | dlia | exact Hx].
        -- apply same_outside_trans with (upd a (first + h) x); [| exact Hs].
           apply same_outside_upd; lia.
    + apply Hfill. intros _ x' Hx'. congruence.
  - apply Hfill. lia.
Qed.

(** The first loop of [__adjust_heap]: the hole goes down to a slot
    without two children. *)
Lemma adjust_heap_loop_spec (steps : nat) :
  forall (a : list A) (h : nat),
    first + len <= List.length a ->
    hole_inv comp a first len p h ->
    (len - 1) / 2 < steps + h -> 1 <= steps ->
    exists a' h',
      adjust_heap_loop comp steps a first h h len = Some (a', h', h') /\
      hole_inv comp a' first len p h' /\
      (len - 1) / 2 <= h' /\
      (forall v, Permutation (upd a (first + h) v) (upd a' (first + h') v)) /\
      same_outside a a' first (first + len).
Proof.
  induction steps as [| steps IH]; intros a h Hlen Hinv Hsteps H1s; [lia |].
  pose proof Hinv as [H1 [H2 _]].
  cbn [adjust_heap_loop].
  destruct (Nat.ltb_spec h ((len - 1) / 2)) as [Hlt | Hge].
  - assert (Hc2 : 2 * (h + 1) < len) by dlia.
    destruct (nth_error_lt_Some a (first + 2 * (h + 1))) as [x Hx]; [lia |].
    destruct (nth_error_lt_Some a (first + (2 * (h + 1) - 1))) as [y Hy];
      [lia |].
    rewrite Hx, Hy.
    set (c := if comp x y then 2 * (h + 1) - 1 else 2 * (h + 1)).
    set (z := if comp x y then y else x).
    assert (Hz : nth_error a (first + c) = Some z).
    { unfold c, z. now destruct (comp x y). }
    assert (Hc : 1 <= c /\ c < len /\ (c - 1) / 2 = h).
    { unfold c. destruct (comp x y); dlia. }
    destruct Hc as [Hc1 [Hc3 Hc4]].
    rewrite Hz. rewrite assign_Some by lia.
    assert (Hinv' : hole_inv comp (upd a (first + h) z) first len p c).
    { apply hole_down; try assumption.
      intros k w Hk1 Hk2 Hk3 Hk4 Hw.
      assert (Hcases : k = 2 * (h + 1) - 1 \/ k = 2 * (h + 1)) by dlia.
      unfold c, z in *. destruct (comp x y) eqn:Exy.
      - destruct Hcases as [-> | ->]; [lia |].
        assert (w = x) as -> by congruence. now apply comp_asym.
      - destruct Hcases as [-> | ->]; [| lia].
        assert (w = y) as -> by congruence. exact Exy. }
    destruct (IH (upd a (first + h) z) c) as [a' [h' [E [Hi [Hh [Hp Hs]]]]]].
    + rewrite upd_length; lia.
    + exact Hinv'.
    + lia.
    + dlia.
    + exists a', h'. split; [exact E |]. split; [exact Hi |].
      split; [exact Hh |]. split.
      * intros v. rewrite <- Hp. apply perm_hole; [lia | lia | exact Hz].
      * apply same_outside_trans with (upd a (first + h) z); [| exact Hs].
        apply same_outside_upd; lia.
  - exists a, h. split; [reflexivity |]. split; [exact Hinv |].
    split; [exact Hge |]. split; [reflexivity | apply same_outside_refl].
Qed.

(** [__adjust_heap]: the value finds its slot below [p]. *)
Lemma adjust_heap_spec (a : list A) (value : A) :
  first + len <= List.length a -> p < len ->
  heap_from comp a first len (p + 1) ->
  exists a',
    __adjust_heap comp a first p len value = Some a' /\
    heap_from comp a' first len p /\
    Permutation (upd a (first + p) value) a' /\
    same_outside a a' first (first + len).
Proof.
  intros Hlen Hp Hheap. unfold __adjust_heap.
  assert (Hinv : hole_inv comp a first len p p).
  { split; [lia |]. split; [exact Hp |]. split; [constructor |]. split.
    - intros k x y Hk1 Hk2 Hk3 Hk4 Hk5. apply Hheap; lia.
    - intros H. contradiction. }
  destruct (adjust_heap_loop_spec (len + 1) a p Hlen Hinv)
    as [a1 [h1 [E1 [Hi1 [Hh1 [Hp1 Hs1]]]]]]; [dlia | lia |].
  rewrite E1.
  pose proof Hi1 as [G1 [G2 _]].
  assert (L1 : List.length a1 = List.length a) by (destruct Hs1; lia).
  assert (Hpush : forall a2 h2,
            hole_inv comp a2 first len p h2 ->
            len <= 2 * h2 + 1 ->
            (forall v, Permutation (upd a (first + p) v) (upd a2 (first + h2) v)) ->
            same_outside a a2 first (first + len) ->
            exists a',
              __push_heap comp a2 first h2 p value = Some a' /\
              heap_from comp a' first len p /\
              Permutation (upd a (first + p) value) a' /\
              same_outside a a' first (first + len)).
  { intros a2 h2 Hi2 Hleaf Hp2 Hs2. unfold __push_heap.
    destruct (push_heap_loop_spec value (h2 + 1) a2 h2)
      as [a' [E [Hh [Hp' Hs']]]].
    - destruct Hs2; lia.
    - exact Hi2.
    - intros c y Hc1 Hc2 Hc3 Hy. dlia.
    - lia.
    - exists a'. split; [exact E |]. split; [exact Hh |]. split.
      + now rewrite <- Hp', <- Hp2.
      + now apply same_outside_trans with a2. }
  destruct ((len mod 2 =? 0) && (h1 =? (len - 2) / 2)) eqn:Eb.
  - apply andb_prop in Eb. destruct Eb as [Eb1 Eb2].
    apply Nat.eqb_eq in Eb1, Eb2.
    assert (Hc : 2 * (h1 + 1) - 1 < len /\ (2 * (h1 + 1) - 1 - 1) / 2 = h1)
      by dlia.
    destruct Hc as [Hc1 Hc2].
    destruct (nth_error_lt_Some a1 (first + (2 * (h1 + 1) - 1))) as [x Hx];
      [lia |].
    rewrite Hx. rewrite assign_Some by lia.
    apply Hpush.
    + apply hole_down; try assumption; try lia;
        intros k y Hk1 Hk2 Hk3 Hk4 Hy; dlia.
    + dlia.
    + intros v. rewrite (Hp1 v). apply perm_hole; [lia | lia | exact Hx].
    + apply same_outside_trans with a1; [exact Hs1 |].
      apply same_outside_upd; lia.
  - apply Hpush; try assumption.
    apply andb_false_iff in Eb.
    destruct Eb as [Eb | Eb]; [apply Nat.eqb_neq in Eb | apply Nat.eqb_neq in Eb];
      dlia.
Qed.

End Heap.

Lemma make_heap_loop_spec (first len : nat) (parent : nat) :
  forall a : list A,
    first + len <= List.length a -> parent < len ->
    heap_from comp a first len (parent + 1) ->
    exists a',
      make_heap_loop comp a first len parent = Some a' /\
      heap_from comp a' first len 0 /\
      Permutation a a' /\ same_outside a a' first (first + len).
Proof.
  induction parent as [| parent IH]; intros a Hlen Hp Hheap.
  - cbn [make_heap_loop].
    destruct (nth_error_lt_Some a (first + 0)) as [value Hv]; [lia |].
    rewrite Hv.
    destruct (adjust_heap_spec first len 0 a value Hlen Hp Hheap)
      as [a' [E [Hh [Hperm Hs]]]].
    rewrite E. exists a'. split; [reflexivity |]. split; [exact Hh |].
    split; [| exact Hs]. now rewrite upd_self in Hperm.
  - cbn [make_heap_loop].
    destruct (nth_error_lt_Some a (first + S parent)) as [value Hv]; [lia |].
    rewrite Hv.
    destruct (adjust_heap_spec first len (S parent) a value Hlen Hp Hheap)
      as [a1 [E [Hh [Hperm Hs]]]].
    rewrite E. rewrite upd_self in Hperm by exact Hv.
    destruct (IH a1) as [a' [E' [Hh' [Hperm' Hs']]]].
    + destruct Hs; lia.
    + lia.
    + now replace (parent + 1) with (S parent) by lia.
    + exists a'. split; [exact E' |]. split; [exact Hh' |].
      split; [now rewrite Hperm | now apply same_outside_trans with a1].
Qed.

Lemma make_heap_spec (a : list A) (first last : nat) :
  first <= last -> last <= List.length a ->
  exists a',
    __make_heap comp a first last = Some a' /\
    heap_from comp a' first (last - first) 0 /\
    Permutation a a' /\ same_outside a a' first last.
Proof.
  intros H1 H2. unfold __make_heap.
  destruct (Nat.ltb_spec (last - first) 2) as [Hlt | Hge].
  - exists a. split; [reflexivity |]. split.
    + intros k x y Hk1 Hk2. lia.
    + split; [reflexivity | apply same_outside_refl].
  - destruct (make_heap_loop_spec first (last - first)
                ((last - first - 2) / 2) a) as [a' [E [Hh [Hp Hs]]]].
    + lia.
    + dlia.
    + intros k x y Hk1 Hk2 Hk3. dlia.
    + exists a'. split; [exact E |]. split; [exact Hh |]. split; [exact Hp |].
      apply same_outside_wider with first (first + (last - first));
        [exact Hs | lia | lia].
Qed.

(** The root of a heap goes before no element of the heap. *)
Lemma heap_root (a : list A) (first len : nat) (r : A) :
  first + len <= List.length a ->
  heap_from comp a first len 0 ->
  nth_error a first = Some r ->
  forall k y, k < len -> nth_error a (first + k) = Some y -> comp r y = false.
Proof.
  intros Hlen Hheap Hr k.
  induction k as [k IH] using (well_founded_induction lt_wf).
  intros y Hk Hy. destruct k as [| k].
  - rewrite Nat.add_0_r, Hr in Hy. injection Hy as <-. apply comp_irrefl.
  - destruct (nth_error_lt_Some a (first + (S k - 1) / 2)) as [x Hx]; [dlia |].
    apply comp_negtrans with x.
    + apply (IH ((S k - 1) / 2)); [dlia | dlia | exact Hx].
    + apply (Hheap (S k) x y); try assumption; lia.
Qed.

(** [__pop_heap(first, last, last)]: the root goes to [last], and the
    rest is a heap again. *)
Lemma pop_heap_spec (a : list A) (first n : nat) (r : A) :
  1 <= n -> first + n < List.length a ->
  heap_from comp a first (n + 1) 0 ->
  nth_error a first = Some r ->
  exists a',
    __pop_heap comp a first (first + n) (first + n) = Some a' /\
    heap_from comp a' first n 0 /\
    nth_error a' (first + n) = Some r /\
    Permutation a a' /\ same_outside a a' first (first + n + 1).
Proof.
  intros Hn Hlen Hheap Hr. unfold __pop_heap.
  destruct (nth_error_lt_Some a (first + n)) as [value Hv]; [lia |].
  rewrite Hv, Hr. rewrite assign_Some by lia.
  replace (first + n - first) with n by lia.
  set (a1 := upd a (first + n) r).
  assert (L1 : List.length a1 = List.length a)
    by (unfold a1; rewrite upd_length; lia).
  destruct (adjust_heap_spec first n 0 a1 value) as [a' [E [Hh [Hp Hs]]]].
  - lia.
  - lia.
  - intros k x y Hk1 Hk2 Hk3 Hx Hy. unfold a1 in Hx, Hy.
    rewrite nth_error_upd_other in Hx by dlia.
    rewrite nth_error_upd_other in Hy by lia.
    apply (Hheap k x y); try assumption; lia.
  - exists a'. split; [exact E |]. split; [exact Hh |]. split; [| split].
    + destruct Hs as [_ Hs]. rewrite Hs by lia.
      unfold a1. apply nth_error_upd_at. lia.
    + rewrite <- Hp. rewrite Nat.add_0_r. unfold a1.
      now apply perm_upd_upd.
    + apply same_outside_trans with a1.
      * unfold a1. apply same_outside_upd; lia.
      * apply same_outside_wider with first (first + n); [exact Hs | lia | lia].
Qed.

(** [__sort_heap]: afterwards the first element goes after no other. *)
Lemma sort_heap_loop_spec (first : nat) (n : nat) :
  forall a : list A,
    first + n <= List.length a ->
    heap_from comp a first n 0 ->
    exists a',
      sort_heap_loop comp a first n = Some a' /\
      Permutation a a' /\ same_outside a a' first (first + n) /\
      (forall k x0 y, k < n -> nth_error a' first = Some x0 ->
                      nth_error a' (first + k) = Some y -> comp y x0 = false).
Proof.
  induction n as [| n IH]; intros a Hlen Hheap.
  - exists a. split; [reflexivity |]. split; [reflexivity |].
    split; [apply same_outside_refl |]. intros k x0 y Hk. lia.
  - cbn [sort_heap_loop].
    destruct (Nat.ltb_spec 1 (S n)) as [Hn | Hn].
    + destruct (nth_error_lt_Some a first) as [r Hr]; [lia |].
      destruct (pop_heap_spec a first n r) as [a1 [E [Hh [Hlast [Hp Hs]]]]].
      * lia.
      * lia.
      * now replace (n + 1) with (S n) by lia.
      * exact Hr.
      * rewrite E.
        assert (L1 : List.length a1 = List.length a) by (destruct Hs; lia).
        destruct (IH a1) as [a' [E' [Hp' [Hs' Hmin]]]]; [lia | exact Hh |].
        exists a'. split; [exact E' |]. split; [now rewrite Hp |].
        split.
        -- apply same_outside_trans with a1.
           ++ apply same_outside_wider with first (first + n + 1);
                [exact Hs | lia | lia].
           ++ apply same_outside_wider with first (first + n);
                [exact Hs' | lia | lia].
        -- intros k x0 y Hk Hx0 Hy.
           destruct (Nat.eq_dec k n) as [-> | Hne].
           ++ pose proof Hs' as [_ Hs'']. rewrite Hs'' in Hy by lia.
              assert (y = r) as -> by congruence.
              destruct (range_transport a1 a' first (first + n) first x0)
                as [k1 [Hk1 [Hk2 Hx1]]]; try assumption; try lia.
              destruct (range_transport a a1 first (first + n + 1) k1 x0)
                as [k2 [Hk3 [Hk4 Hx2]]]; try assumption; try lia.
              apply (heap_root a first (S n) r) with (k2 - first);
                try assumption; try lia.
              now replace (first + (k2 - first)) with k2 by lia.
           ++ apply (Hmin k x0 y); [lia | exact Hx0 | exact Hy].
    + exists a. split; [reflexivity |]. split; [reflexivity |].
      split; [apply same_outside_refl |].
      intros k x0 y Hk Hx0 Hy. assert (k = 0) as -> by lia.
      rewrite Nat.add_0_r in Hy. assert (y = x0) as -> by congruence.
      apply comp_irrefl.
Qed.

(** [__partial_sort(first, last, last)], the heap sort of a range. *)
Lemma partial_sort_spec (a : list A) (first last : nat) :
  first <= last -> last <= List.length a ->
  exists a',
    __partial_sort comp a first last last = Some a' /\
    Permutation a a' /\ same_outside a a' first last /\
    (forall k x0 y, first <= k -> k < last -> nth_error a' first = Some x0 ->
                    nth_error a' k = Some y -> comp y x0 = false).
Proof.
  intros H1 H2. unfold __partial_sort, __heap_select.
  destruct (make_heap_spec a first last H1 H2) as [a1 [E [Hh [Hp Hs]]]].
  rewrite E. rewrite Nat.sub_diag. cbn [heap_select_loop].
  unfold __sort_heap.
  assert (L1 : List.length a1 = List.length a) by (destruct Hs; lia).
  destruct (sort_heap_loop_spec first (last - first) a1)
    as [a' [E' [Hp' [Hs' Hmin]]]]; [lia | exact Hh |].
  exists a'. split; [exact E' |]. split; [now rewrite Hp |]. split.
  - apply same_outside_trans with a1; [exact Hs |].
    apply same_outside_wider with first (first + (last - first));
      [exact Hs' | lia | lia].
  - intros k x0 y Hk1 Hk2 Hx0 Hy.
    apply (Hmin (k - first) x0 y); [lia | exact Hx0 |].
    now replace (first + (k - first)) with k by lia.
Qed.

(** ** The introsort *)

Lemma introsort_loop_spec (depth_limit : nat) :
  forall (a : list A) (first last : nat),
    first <= last -> last <= List.length a ->
    exists a',
      __introsort_loop comp a first last depth_limit = Some a' /\
      Permutation a a' /\ same_outside a a' first last /\
      guarded_from comp a' first last.
Proof.
  induction depth_limit as [| d IH]; intros a first last H1 H2.
  - cbn [__introsort_loop]. unfold _S_threshold.
    destruct (Nat.ltb_spec 16 (last - first)) as [Hbig | Hsmall].
    + destruct (partial_sort_spec a first last H1 H2)
        as [a' [E [Hp [Hs Hmin]]]].
      exists a'. split; [exact E |]. split; [exact Hp |]. split; [exact Hs |].
      intros i x Hi1 Hi2 Hx.
      destruct (nth_error_lt_Some a' first) as [x0 Hx0];
        [destruct Hs; lia |].
      exists first, x0. split; [lia |]. split; [lia |]. split; [exact Hx0 |].
      apply (Hmin i x0 x); [lia | exact Hi2 | exact Hx0 | exact Hx].
    + exists a. split; [reflexivity |]. split; [reflexivity |].
      split; [apply same_outside_refl |]. intros i x Hi1 Hi2. lia.
  - cbn [__introsort_loop]. unfold _S_threshold.
    destruct (Nat.ltb_spec 16 (last - first)) as [Hbig | Hsmall].
    + destruct (unguarded_partition_pivot_spec a first last Hbig H2)
        as [a1 [cut [E1 [C1 [C2 [P1 [S1 Hpart]]]]]]].
      rewrite E1.
      assert (L1 : List.length a1 = List.length a) by (destruct S1; lia).
      destruct (IH a1 cut last) as [a2 [E2 [P2 [S2 _]]]]; [lia | lia |].
      rewrite E2.
      assert (L2 : List.length a2 = List.length a1) by (destruct S2; lia).
      destruct (IH a2 first cut) as [a3 [E3 [P3 [S3 G3]]]]; [lia | lia |].
      exists a3. split; [exact E3 |]. split; [now rewrite P1, P2 |]. split.
      * apply same_outside_trans with a1; [exact S1 |].
        apply same_outside_trans with a2.
        -- apply same_outside_wider with cut last; [exact S2 | lia | lia].
        -- apply same_outside_wider with first cut; [exact S3 | lia | lia].
      * intros i x Hi1 Hi2 Hx.
        destruct (Nat.lt_ge_cases i cut) as [Hi | Hi].
        -- destruct (G3 i x Hi1 Hi Hx) as [j [y [Hj1 [Hj2 [Hy Hc]]]]].
           exists j, y. repeat split; try assumption.
        -- destruct (nth_error_lt_Some a3 first) as [x0 Hx0];
             [destruct S3; lia |].
           exists first, x0. split; [lia |]. split; [lia |].
           split; [exact Hx0 |].
           destruct (range_transport a2 a3 first cut first x0)
             as [k1 [Hk1 [Hk2 Hx1]]]; try assumption; try lia.
           destruct S2 as [_ S2']. rewrite S2' in Hx1 by lia.
           destruct S3 as [_ S3']. rewrite S3' in Hx by lia.
           destruct (range_transport a1 a2 cut last i x)
             as [k2 [Hk3 [Hk4 Hx2]]]; try assumption; try lia.
           { now split. }
           now apply (Hpart k1 k2 x0 x).
    + exists a. split; [reflexivity |]. split; [reflexivity |].
      split; [apply same_outside_refl |]. intros i x Hi1 Hi2. lia.
Qed.

(** ** [std::sort] *)

(** [std::sort] stays inside the vector, and its result is the insertion
    sort of a rearrangement of the vector: of the vector itself, when it
    has 16 elements at most. *)
Theorem std_sort_spec (v : list A) :
  exists a,
    std_sort comp v = Some (insertion_sorted comp a) /\
    Permutation v a /\
    (List.length v <= 16 -> a = v).
Proof.
  unfold std_sort, __sort.
  destruct v as [| x v'] eqn:Ev.
  - exists []. repeat split. constructor.
  - rewrite <- Ev. assert (Hlen : List.length v <> 0) by now rewrite Ev.
    destruct (Nat.eqb_spec 0 (List.length v)) as [H0 | _]; [lia |].
    destruct (introsort_loop_spec (__lg (List.length v - 0) * 2) v 0
                (List.length v)) as [a [E [Hp [Hs Hg]]]]; [lia | lia |].
    rewrite E.
    assert (La : List.length a = List.length v) by (destruct Hs; lia).
    rewrite <- La. rewrite final_insertion_sort_spec by now rewrite La.
    exists a. split; [reflexivity |]. split; [exact Hp |].
    intros Hsmall. clear Hp Hs Hg.
    destruct (__lg (List.length v - 0) * 2) as [| d];
      cbn [__introsort_loop] in E; unfold _S_threshold in E;
      (destruct (Nat.ltb_spec 16 (List.length v - 0)); [lia |]);
      now injection E as <-.
Qed.

Theorem std_sort_sorts (v : list A) :
  exists ranked,
    std_sort comp v = Some ranked /\
    Permutation v ranked /\ ordered comp ranked.
Proof.
  destruct (std_sort_spec v) as [a [E [Hp _]]].
  exists (insertion_sorted comp a). split; [exact E |]. split.
  - rewrite Hp. apply insertion_sorted_perm.
  - apply insertion_sorted_ordered.
Qed.

(** ** Up to 16 elements the sort is stable *)

Lemma precedes_cons (z : A) (t : list A) (x y : A) :
  precedes (z :: t) x y <-> (z = x /\ In y t) \/ precedes t x y.
Proof.
  split.
  - intros [l1 [l2 [l3 E]]]. destruct l1 as [| w l1]; cbn [app] in E.
    + injection E as -> ->. left. split; [reflexivity |].
      apply in_or_app. right. now left.
    + injection E as -> ->. right. now exists l1, l2, l3.
  - intros [[-> Hy] | [l1 [l2 [l3 ->]]]].
    + apply in_split in Hy. destruct Hy as [l2 [l3 ->]].
      now exists [], l2, l3.
    + now exists (z :: l1), l2, l3.
Qed.

Lemma precedes_nil (x y : A) : ~ precedes (@nil A) x y.
Proof. intros [l1 [l2 [l3 E]]]. destruct l1; discriminate E. Qed.

Lemma precedes_Add (v : A) (s s' : list A) (x y : A) :
  Add v s s' -> precedes s x y -> precedes s' x y.
Proof.
  induction 1 as [s | z s s' Hadd IH]; intros H.
  - apply precedes_cons. now right.
  - apply precedes_cons in H. apply precedes_cons.
    destruct H as [[-> Hy] | H].
    + left. split; [reflexivity |]. apply (Add_in Hadd). now right.
    + right. now apply IH.
Qed.

Lemma precedes_app_last (l : list A) (v x y : A) :
  precedes (l ++ [v]) x y -> precedes l x y \/ (y = v /\ In x l).
Proof.
  induction l as [| z l IH]; cbn [app]; intros H.
  - apply precedes_cons in H. destruct H as [[_ []] | H].
    now apply precedes_nil in H.
  - apply precedes_cons in H. destruct H as [[-> Hy] | H].
    + apply in_app_or in Hy. destruct Hy as [Hy | [<- | []]].
      * left. apply precedes_cons. now left.
      * right. split; [reflexivity | now left].
    + destruct (IH H) as [H' | [-> Hx]].
      * left. apply precedes_cons. now right.
      * right. split; [reflexivity | now right].
Qed.

(** The insertion sort keeps the order of two elements of which the second
    does not go before the first. *)
Lemma insertion_sorted_stable (l : list A) (x y : A) :
  comp y x = false ->
  precedes l x y -> precedes (insertion_sorted comp l) x y.
Proof.
  intros Hc. induction l as [| v l IH] using rev_ind; intros H.
  - now apply precedes_nil in H.
  - unfold insertion_sorted. rewrite fold_left_app. cbn [fold_left].
    fold (insertion_sorted comp l).
    destruct (insert_right_split v (insertion_sorted comp l))
      as [s1 [s2 [E1 [E2 [H2 _]]]]].
    rewrite E2. apply precedes_app_last in H. destruct H as [H | [-> Hx]].
    + apply precedes_Add with v (s1 ++ s2); [apply Add_app |].
      rewrite <- E1. now apply IH.
    + apply (Permutation_in _ (insertion_sorted_perm l)) in Hx.
      rewrite E1 in Hx. apply in_app_or in Hx. destruct Hx as [Hx | Hx].
      * apply in_split in Hx. destruct Hx as [l1 [l2 ->]].
        exists l1, l2, s2. now rewrite <- app_assoc.
      * rewrite Forall_forall in H2. rewrite (H2 x Hx) in Hc. discriminate Hc.
Qed.

End StdSortProperties.

(* ================================================================== *)
(** * The ranking *)

(** [comp(y, x)] is false exactly when the index of [y] is at most the one
    of [x]. *)
Lemma ranking_comp_false (x y : FileMetrics) :
  ranking_comp y x = false <->
  (shit_mountain_index y <= shit_mountain_index x)%Q.
Proof. unfold ranking_comp. apply Qltb_false. Qed.

Lemma ranking_comp_irrefl (x : FileMetrics) : ranking_comp x x = false.
Proof. apply ranking_comp_false. apply Qle_refl. Qed.

Lemma ranking_comp_trans (x y z : FileMetrics) :
  ranking_comp x y = true -> ranking_comp y z = true ->
  ranking_comp x z = true.
Proof.
  unfold ranking_comp. intros H1 H2.
  apply Qltb_true in H1, H2. apply Qltb_true. lra.
Qed.

Lemma ranking_comp_negtrans (x y z : FileMetrics) :
  ranking_comp x y = false -> ranking_comp y z = false ->
  ranking_comp x z = false.
Proof.
  unfold ranking_comp. intros H1 H2.
  apply Qltb_false in H1, H2. apply Qltb_false. lra.
Qed.

Lemma StronglySorted_is_sorted {A : Type} (comp : A -> A -> bool) (l : list A) :
  StronglySorted (fun x y => comp y x = false) l -> is_sorted comp l.
Proof.
  induction 1 as [| a l Hl IH Ha]; intros i j x y Hij Hx Hy.
  - destruct i; discriminate Hx.
  - destruct j as [| j]; [lia |]. cbn [nth_error] in Hy.
    destruct i as [| i].
    + injection Hx as <-. rewrite Forall_forall in Ha.
      apply Ha. now apply nth_error_In with j.
    + cbn [nth_error] in Hx. apply (IH i j x y); [lia | exact Hx | exact Hy].
Qed.

(* ================================================================== *)
(** * Properties of the run over the files *)

Section Run.

Variable ts_parser_parse_string : TSLanguage -> string -> option Tree.
Variable ts_node_has_error : Tree -> bool.
Variable read_file : string -> option string.

(** A file for which [analyzeFile] returns the default report leaves
    [all_metrics] as it is. *)
Lemma main_loop_skip (entry : string) (before after : list string) :
  analyzeFile ts_parser_parse_string ts_node_has_error read_file entry =
    Ok FileMetrics_default ->
  forall all_metrics,
    main_loop ts_parser_parse_string ts_node_has_error read_file
      (before ++ entry :: after) all_metrics =
    main_loop ts_parser_parse_string ts_node_has_error read_file
      (before ++ after) all_metrics.
Proof.
  intros H.
  induction before as [| e l IH]; intros all_metrics; cbn [app main_loop].
  - rewrite H. reflexivity.
  - destruct (analyzeFile _ _ _ e); cbn [bind]; [apply IH | reflexivity].
Qed.

(** The root node that [analyzeFile] asks for after a successful [parse]
    is never the null node. *)
Lemma parse_true_root (p : Parser) (sourceCode language : string) :
  fst (parse ts_parser_parse_string ts_node_has_error p sourceCode language)
    = true ->
  getRootNode
    (snd (parse ts_parser_parse_string ts_node_has_error p sourceCode language))
    <> None.
Proof.
  unfold parse, getRootNode.
  destruct (getLanguage language) as [g |]; cbn [fst snd tree];
    [| discriminate].
  destruct (ts_parser_parse_string g sourceCode); discriminate.
Qed.

(** C9: when the parser returns no tree for a file, or a tree with a
    syntax error, [parse] answers false, [analyzeFile] extracts nothing and
    returns the default report, and the loop of [main] goes on with the
    other files as if the file were not there, adding no report for it. *)
Theorem parse_failure_skipped (filePath sourceCode : string) (g : TSLanguage) :
  read_file filePath = Some sourceCode ->
  getLanguage (getLanguageFromFile filePath) = Some g ->
  (ts_parser_parse_string g sourceCode = None \/
   exists t, ts_parser_parse_string g sourceCode = Some t /\
             ts_node_has_error t = true) ->
  fst (parse ts_parser_parse_string ts_node_has_error Parser_new sourceCode
         (getLanguageFromFile filePath)) = false /\
  analyzeFile ts_parser_parse_string ts_node_has_error read_file filePath =
    Ok FileMetrics_default /\
  (forall before after all_metrics,
     main_loop ts_parser_parse_string ts_node_has_error read_file
       (before ++ filePath :: after) all_metrics =
     main_loop ts_parser_parse_string ts_node_has_error read_file
       (before ++ after) all_metrics).
Proof.
  intros Hread Hlang Hfail.
  assert (Hparse :
    fst (parse ts_parser_parse_string ts_node_has_error Parser_new sourceCode
           (getLanguageFromFile filePath)) = false).
  { unfold parse. rewrite Hlang. cbn [fst tree].
    destruct Hfail as [-> | [t [-> Ht]]]; [reflexivity | now rewrite Ht]. }
  assert (Hfile :
    analyzeFile ts_parser_parse_string ts_node_has_error read_file filePath =
    Ok FileMetrics_default).
  { unfold analyzeFile.
    destruct (String.eqb _ "unsupported"); [reflexivity |].
    rewrite Hread.
    destruct (parse ts_parser_parse_string ts_node_has_error Parser_new
                sourceCode (getLanguageFromFile filePath)) as [ok parser].
    cbn [fst] in Hparse. now rewrite Hparse. }
  split; [exact Hparse |]. split; [exact Hfile |].
  intros before after all_metrics. now apply main_loop_skip.
Qed.

(** C2 (amended): the ranking lists the reports of the run in another
    order, in which the index never grows; the sort stays inside the
    vector.  When there are 16 reports at most, reports with the same index
    keep the order in which they were found. *)
Theorem ranking_descending (entries : list string)
  (all_metrics : list FileMetrics) :
  main_loop ts_parser_parse_string ts_node_has_error read_file entries []
    = Ok all_metrics ->
  exists ranked,
    main_ranking ts_parser_parse_string ts_node_has_error read_file entries
      = Ok (Some ranked) /\
    Permutation all_metrics ranked /\
    (forall (i j : nat) (x y : FileMetrics),
       (i < j)%nat ->
       nth_error ranked i = Some x -> nth_error ranked j = Some y ->
       (shit_mountain_index y <= shit_mountain_index x)%Q) /\
    ((List.length all_metrics <= 16)%nat ->
     ties_keep_order all_metrics ranked).
Proof.
  intros Hloop. unfold main_ranking. rewrite Hloop. cbn [bind].
  destruct (std_sort_spec ranking_comp ranking_comp_irrefl ranking_comp_trans
              ranking_comp_negtrans all_metrics) as [a [E [Hp Hsmall]]].
  exists (insertion_sorted ranking_comp a).
  split; [now rewrite E |]. split; [| split].
  - rewrite Hp. apply insertion_sorted_perm.
  - intros i j x y Hij Hx Hy. apply ranking_comp_false.
    apply (StronglySorted_is_sorted ranking_comp
             (insertion_sorted ranking_comp a)) with i j;
      [| exact Hij | exact Hx | exact Hy].
    apply insertion_sorted_ordered;
      [exact ranking_comp_irrefl | exact ranking_comp_trans
       | exact ranking_comp_negtrans].
  - intros Hlen x y Heq Hprec. rewrite (Hsmall Hlen).
    apply insertion_sorted_stable; [| exact Hprec].
    apply ranking_comp_false. rewrite Heq. apply Qle_refl.
Qed.

End Run.

Lemma parse_failure_skipped_witness :
  fst (parse broken_files_parse error_flag Parser_new "("
         (getLanguageFromFile "b.py")) = false /\
  analyzeFile broken_files_parse error_flag broken_files_read "b.py" =
    Ok FileMetrics_default /\
  main_loop broken_files_parse error_flag broken_files_read
    (["a.txt"] ++ "b.py" :: ["c.md"]) [] =
  main_loop broken_files_parse error_flag broken_files_read
    (["a.txt"] ++ ["c.md"]) [].
Proof.
  destruct (parse_failure_skipped broken_files_parse error_flag
              broken_files_read "b.py" "(" tree_sitter_python
              eq_refl eq_refl
              (or_intror (ex_intro _ error_tree (conj eq_refl eq_refl))))
    as [H1 [H2 H3]].
  split; [exact H1 |]. split; [exact H2 |]. apply H3.
Defined.

Lemma ranking_descending_witness :
  (main_ranking noted_files_parse no_error noted_files_read
     ["a.py"; "b.py"; "c.py"]
   = Ok (Some [empty_report "b.py"; comment_report "a.py";
               comment_report "c.py"]) /\
   ties_keep_order
     [comment_report "a.py"; empty_report "b.py"; comment_report "c.py"]
     [empty_report "b.py"; comment_report "a.py"; comment_report "c.py"]) /\
  (main_ranking noted_files_parse no_error noted_files_read
     (seventeen_files ++ ["b.py"])
   = Ok (Some (empty_report "b.py" ::
               map comment_report
                 ["f10.py"; "f17.py"; "f16.py"; "f15.py"; "f14.py"; "f13.py";
                  "f12.py"; "f11.py"; "f01.py"; "f09.py"; "f08.py"; "f07.py";
                  "f06.py"; "f05.py"; "f04.py"; "f03.py"; "f02.py"])) /\
   Permutation
     (map comment_report seventeen_files ++ [empty_report "b.py"])
     (empty_report "b.py" ::
      map comment_report
        ["f10.py"; "f17.py"; "f16.py"; "f15.py"; "f14.py"; "f13.py";
         "f12.py"; "f11.py"; "f01.py"; "f09.py"; "f08.py"; "f07.py";
         "f06.py"; "f05.py"; "f04.py"; "f03.py"; "f02.py"])).
Proof.
  split.
  - destruct (ranking_descending noted_files_parse no_error noted_files_read
                ["a.py"; "b.py"; "c.py"]
                [comment_report "a.py"; empty_report "b.py";
                 comment_report "c.py"] eq_refl)
      as [ranked [E [_ [_ Hties]]]].
    assert (E' : main_ranking noted_files_parse no_error noted_files_read
                   ["a.py"; "b.py"; "c.py"]
                 = Ok (Some [empty_report "b.py"; comment_report "a.py";
                             comment_report "c.py"]))
      by (vm_compute; reflexivity).
    split; [exact E' |].
    rewrite E' in E. injection E as <-. apply Hties. cbn. lia.
  - destruct (ranking_descending noted_files_parse no_error noted_files_read
                (seventeen_files ++ ["b.py"])
                (map comment_report seventeen_files ++ [empty_report "b.py"])
                eq_refl)
      as [ranked [E [Hperm _]]].
    assert (E' : main_ranking noted_files_parse no_error noted_files_read
                   (seventeen_files ++ ["b.py"])
                 = Ok (Some (empty_report "b.py" ::
                             map comment_report
                               ["f10.py"; "f17.py"; "f16.py"; "f15.py";
                                "f14.py"; "f13.py"; "f12.py"; "f11.py";
                                "f01.py"; "f09.py"; "f08.py"; "f07.py";
                                "f06.py"; "f05.py"; "f04.py"; "f03.py";
                                "f02.py"])))
      by (vm_compute; reflexivity).
    split; [exact E' |].
    rewrite E' in E. injection E as <-. exact Hperm.
Defined.

Lemma precedes_occurs_before (l : list FileMetrics) (a b : FileMetrics) :
  precedes l a b ->
  occurs_before (map file_path l) (file_path a) (file_path b) = true.
Proof.
  induction l as [| z l IH]; intros H.
  - now apply precedes_nil in H.
  - apply precedes_cons in H. cbn [map occurs_before].
    destruct H as [[-> Hb] | H].
    + rewrite String.eqb_refl. cbn [andb].
      apply orb_true_iff. left. apply existsb_exists.
      exists (file_path b). split; [now apply in_map | apply String.eqb_refl].
    + apply orb_true_iff. right. now apply IH.
Qed.

(** C2, as stated, fails: of seventeen files with the same index, the
    ranking lists the ninth first, before the first eight. *)
Lemma ranking_not_stable :
  ~ (forall parse_string has_error read entries all_metrics ranked,
       main_loop parse_string has_error read entries [] = Ok all_metrics ->
       main_ranking parse_string has_error read entries = Ok (Some ranked) ->
       ties_keep_order all_metrics ranked).
Proof.
  intros H.
  assert (E : main_ranking empty_files_parse no_error empty_files_read
                seventeen_files
              = Ok (Some (map empty_report
                            ["f09.py"; "f17.py"; "f16.py"; "f15.py"; "f14.py";
                             "f13.py"; "f12.py"; "f11.py"; "f10.py"; "f01.py";
                             "f08.py"; "f07.py"; "f06.py"; "f05.py"; "f04.py";
                             "f03.py"; "f02.py"])))
    by (vm_compute; reflexivity).
  specialize (H empty_files_parse no_error empty_files_read seventeen_files
                (map empty_report seventeen_files) _ eq_refl E
                (empty_report "f01.py") (empty_report "f09.py")).
  apply precedes_occurs_before in H.
  - vm_compute in H. discriminate H.
  - reflexivity.
  - exists [], (map empty_report (firstn 7 (skipn 1 seventeen_files))),
      (map empty_report (skipn 9 seventeen_files)). reflexivity.
Qed.

(* ================================================================== *)
(** * The analysis returns

    [std::string::substr] throws only when a node starts beyond the end of
    the source text; on the trees of a parser it never does, and [analyze]
    returns a report. *)

Lemma spans_inside_children (src : string) (t c : Tree) :
  spans_inside src t = true -> In c (children_of t) ->
  spans_inside src c = true.
Proof.
  destruct t as [i cs]. cbn [spans_inside children_of]. intros H Hc.
  apply andb_true_iff in H. destruct H as [_ H].
  rewrite forallb_forall in H. now apply H.
Qed.

Lemma spans_inside_subnodes (src : string) (t : Tree) :
  forall anc h,
    spans_inside src t = true -> In h (subnodes_at anc t) ->
    spans_inside src (snd h) = true.
Proof.
  induction t as [i cs IH] using Tree_ind; intros anc h Ht.
  rewrite subnodes_at_eq. intros [<- | H]; [exact Ht |].
  apply in_flat_map in H. destruct H as [c [Hc H]].
  rewrite Forall_forall in IH.
  apply (IH c Hc (Node i cs :: anc) h); [| exact H].
  now apply (spans_inside_children src (Node i cs)).
Qed.

Lemma getNodeText_returns (src : string) (n : option TSNode) :
  (forall h, n = Some h -> spans_inside src (snd h) = true) ->
  exists x, getNodeText n src = Ok x.
Proof.
  destruct n as [[anc [i cs]] |]; [| now exists ""].
  intros H. specialize (H _ eq_refl). cbn [snd spans_inside] in H.
  apply andb_true_iff in H. destruct H as [H _]. apply Z.leb_le in H.
  unfold getNodeText, substr, ts_node_start_byte. cbn [snd info_of].
  destruct (Z.of_nat (String.length src) <? start_byte i) eqn:E.
  - apply Z.ltb_lt in E. lia.
  - eexists. reflexivity.
Qed.

Lemma child_by_field_name_spans (src : string) (node n : TSNode) (f : string) :
  spans_inside src (snd node) = true ->
  ts_node_child_by_field_name node f = Some n ->
  spans_inside src (snd n) = true.
Proof.
  intros Hs H. apply child_by_field_name_children in H.
  unfold ts_node_children in H. apply in_map_iff in H.
  destruct H as [c [<- Hc]]. cbn [snd].
  now apply (spans_inside_children src (snd node)).
Qed.

Lemma extractFunctionName_returns (s : LanguageStrategy) (src : string)
  (anc : list Tree) (t : Tree) :
  spans_inside src t = true ->
  Forall (fun p => spans_inside src p = true) anc ->
  exists nm, extractFunctionName s (anc, t) src = Ok nm.
Proof.
  intros Ht Hanc.
  assert (by_name : forall node,
    spans_inside src (snd node) = true ->
    exists nm,
      getNodeText (ts_node_child_by_field_name node "name") src = Ok nm).
  { intros node Hn. apply getNodeText_returns. intros h Hh.
    now apply (child_by_field_name_spans src node h "name"). }
  assert (c_like_case :
    exists nm, CStrategy_extractFunctionName (anc, t) src = Ok nm).
  { unfold CStrategy_extractFunctionName.
    destruct (ts_node_child_by_field_name (anc, t) "declarator")
      as [d |] eqn:Ed; [| now eexists].
    destruct (findIdentifierRecursive d) as [r |] eqn:Er; [| now eexists].
    apply getNodeText_returns. intros h [= <-].
    apply findIdentifierRecursive_at_subnodes in Er. destruct Er as [Er _].
    apply (spans_inside_subnodes src (snd d) (fst d) r); [| exact Er].
    now apply (child_by_field_name_spans src (anc, t) d "declarator"). }
  assert (js_like_case :
    exists nm, JSStrategy_extractFunctionName (anc, t) src = Ok nm).
  { unfold JSStrategy_extractFunctionName.
    destruct (ts_node_child_by_field_name (anc, t) "name") as [n |] eqn:En.
    - apply getNodeText_returns. intros h [= <-].
      now apply (child_by_field_name_spans src (anc, t) n "name").
    - destruct (String.eqb _ "arrow_function"); [| now eexists].
      unfold ts_node_parent. cbn [fst].
      destruct anc as [| p anc']; [now eexists |].
      destruct (String.eqb _ "variable_declarator"); [| now eexists].
      apply by_name. cbn [snd]. now inversion Hanc. }
  destruct s; cbn [extractFunctionName];
    try exact c_like_case; try exact js_like_case;
    now apply (by_name (anc, t)).
Qed.

Lemma analyzeFunctions_at_returns (s : LanguageStrategy) (src : string)
  (t : Tree) :
  forall anc m,
    spans_inside src t = true ->
    Forall (fun p => spans_inside src p = true) anc ->
    exists m', analyzeFunctions_at s anc t m src = Ok m'.
Proof.
  induction t as [i cs IH] using Tree_ind; intros anc m Ht Hanc.
  rewrite analyzeFunctions_at_eq.
  destruct (contains _ _).
  - destruct (negb _); [| now eexists].
    unfold analyzeSingleFunction.
    destruct (extractFunctionName_returns s src anc (Node i cs) Ht Hanc)
      as [nm ->].
    cbn [bind]. now eexists.
  - assert (Hanc' : Forall (fun p => spans_inside src p = true)
                      (Node i cs :: anc)) by now constructor.
    assert (Hcs : Forall (fun c => spans_inside src c = true) cs).
    { apply Forall_forall. intros c Hc.
      now apply (spans_inside_children src (Node i cs)). }
    revert m. generalize (Node i cs :: anc) Hanc'. clear Ht Hanc Hanc'.
    intros a Ha.
    induction IH as [| c l Hc _ IHl]; intros m; cbn [foldM];
      [now eexists |].
    inversion Hcs as [| ? ? Hc1 Hl1]; subst.
    destruct (Hc a m Hc1 Ha) as [m1 ->]. cbn [bind]. now apply IHl.
Qed.

Lemma analyzeNaming_at_returns (src : string) (t : Tree) :
  forall anc m,
    spans_inside src t = true ->
    exists m', analyzeNaming_at anc t m src = Ok m'.
Proof.
  induction t as [i cs IH] using Tree_ind; intros anc m Ht.
  cbn [analyzeNaming_at].
  assert (Hcs : Forall (fun c => spans_inside src c = true) cs).
  { apply Forall_forall. intros c Hc.
    now apply (spans_inside_children src (Node i cs)). }
  match goal with
  | |- exists m', bind ?r _ = _ => assert (E : exists m0, r = Ok m0)
  end.
  { destruct (String.eqb _ "identifier"); [| now eexists].
    destruct (getNodeText_returns src (Some (anc, Node i cs))) as [nm ->].
    - now intros h [= <-].
    - cbn [bind]. destruct (_ <=? _)%nat; [| now eexists].
      destruct (negb _); now eexists. }
  destruct E as [m0 ->]. cbn [bind]. clear Ht.
  generalize (Node i cs :: anc). intros a. revert m0.
  induction IH as [| c l Hc _ IHl]; intros m0; [now eexists |].
  inversion Hcs as [| ? ? Hc1 Hl1]; subst.
  destruct (Hc a m0 Hc1) as [m1 ->]. cbn [bind]. now apply IHl.
Qed.

(** X25: on a tree whose nodes all start inside the source text,
    [analyze] throws no exception and returns a report. *)
Theorem analyze_returns (langStrategy : option LanguageStrategy)
  (root : Tree) (filePath sourceCode : string) :
  spans_inside sourceCode root = true ->
  exists r, analyze langStrategy ([], root) filePath sourceCode = Ok r.
Proof.
  intros H. unfold analyze.
  destruct langStrategy as [s |]; [| cbn [bind]; now eexists].
  unfold analyzeFunctions, analyzeNaming. cbn [fst snd].
  destruct (analyzeFunctions_at_returns s sourceCode root []
              (set_file_path FileMetrics_default filePath) H (Forall_nil _))
    as [m1 ->].
  cbn [bind].
  destruct (analyzeNaming_at_returns sourceCode root []
              (analyzeFileWideMetrics ([], root) m1) H) as [m2 E].
  rewrite E. cbn [bind]. now eexists.
Qed.

Lemma analyze_returns_witness :
  exists r,
    analyze (Some CStrategy) ([], one_liner_tree) "main.c" one_liner_source
      = Ok r.
Proof.
  apply (analyze_returns (Some CStrategy) one_liner_tree "main.c"
           one_liner_source).
  reflexivity.
Defined.

(* ================================================================== *)
(** * The scenarios of section 8 of the specification *)

(** One function of 10 lines and complexity 1, 15% of comments, no naming
    violation: index 0. *)
Example scenario_ideal_file :
  (shit_mountain_index
     (calculateFinalScore
        (mkFileMetrics "a.c" [mkFunctionMetric "main" 1 10 10 1]
           0 0 20 3 0 0 0)) == 0)%Q.
Proof. reflexivity. Qed.

(** One function of 100 lines and complexity 20, no comment, no naming
    violation: index 80. *)
Example scenario_worst_function :
  (shit_mountain_index
     (calculateFinalScore
        (mkFileMetrics "a.c" [mkFunctionMetric "main" 1 100 100 20]
           0 0 100 0 0 0 0)) == 80)%Q.
Proof. reflexivity. Qed.

(** A header without functions, 30% of comments, no naming violation:
    index 0. *)
Example scenario_header :
  (shit_mountain_index
     (calculateFinalScore (mkFileMetrics "a.h" [] 0 0 10 3 0 0 0)) == 0)%Q.
Proof. reflexivity. Qed.

(** The identifier [i] is on the allowlist, the identifier [aa] is not. *)
Example scenario_allowlist :
  analyzeNaming ([], mk "identifier" None 0 1 0 0 []) FileMetrics_default "i"
    = Ok FileMetrics_default /\
  analyzeNaming ([], mk "identifier" None 0 2 0 0 []) FileMetrics_default "aa"
    = Ok (set_naming_violations FileMetrics_default 1).
Proof. split; reflexivity. Qed.

(* ================================================================== *)
(** * Further properties of the helper functions *)

Lemma find_app {A : Type} (p : A -> bool) (l1 l2 : list A) :
  find p (l1 ++ l2) =
  match find p l1 with
  | Some x => Some x
  | None => find p l2
  end.
Proof.
  induction l1 as [| a l1 IH]; [reflexivity |].
  cbn [app find]. now destruct (p a).
Qed.

Lemma findIdentifierRecursive_at_find (t : Tree) :
  forall anc,
    findIdentifierRecursive_at anc t =
    find (has_type "identifier") (subnodes_at anc t).
Proof.
  induction t as [i cs IH] using Tree_ind; intros anc.
  rewrite subnodes_at_eq. cbn [findIdentifierRecursive_at find].
  unfold has_type at 1. unfold ts_node_type. cbn [snd info_of].
  destruct (String.eqb (type i) "identifier"); [reflexivity |].
  generalize (Node i cs :: anc). intros a.
  induction IH as [| c l Hc _ IHl]; [reflexivity |].
  cbn [flat_map]. rewrite find_app, <- Hc.
  now destruct (findIdentifierRecursive_at a c).
Qed.

(** X1: [findIdentifierRecursive] returns the first node of type
    [identifier] that a pre-order walk of the subtree meets, and the null
    node when the subtree holds none. *)
Theorem findIdentifierRecursive_first (node : TSNode) :
  findIdentifierRecursive node =
  find (has_type "identifier") (subnodes node).
Proof.
  unfold findIdentifierRecursive, subnodes.
  apply findIdentifierRecursive_at_find.
Qed.

Lemma hasChildOfTypeRecursive_at_existsb (ty : string) (t : Tree) :
  forall anc,
    hasChildOfTypeRecursive_at t ty = existsb (has_type ty) (subnodes_at anc t).
Proof.
  induction t as [i cs IH] using Tree_ind; intros anc.
  rewrite subnodes_at_eq. cbn [hasChildOfTypeRecursive_at existsb].
  unfold has_type at 1. unfold ts_node_type. cbn [snd info_of].
  destruct (String.eqb (type i) ty); [reflexivity |]. cbn [orb].
  generalize (Node i cs :: anc). intros a.
  induction IH as [| c l Hc _ IHl]; [reflexivity |].
  cbn [flat_map]. rewrite existsb_app, <- (Hc a), <- IHl.
  now destruct (hasChildOfTypeRecursive_at c ty).
Qed.

(** X2: [hasChildOfTypeRecursive] answers true exactly when some node of
    the subtree, the node itself included, has the type asked for. *)
Theorem hasChildOfTypeRecursive_iff (node : TSNode) (ty : string) :
  hasChildOfTypeRecursive node ty = true <->
  exists h, In h (subnodes node) /\ ts_node_type h = ty.
Proof.
  unfold hasChildOfTypeRecursive, subnodes.
  rewrite (hasChildOfTypeRecursive_at_existsb ty (snd node) (fst node)).
  rewrite existsb_exists. split; intros [h [Hin Hty]]; exists h;
    (split; [exact Hin |]); unfold has_type in *;
    now apply String.eqb_eq.
Qed.

Lemma substring_spec (s : string) :
  forall n m,
    (n <= String.length s)%nat ->
    exists before after,
      s = before ++ String.substring n m s ++ after /\
      String.length before = n /\
      String.length (String.substring n m s) =
        Nat.min m (String.length s - n).
Proof.
  induction s as [| c s IH]; intros n m Hn.
  - cbn [String.length] in Hn. assert (n = 0%nat) by lia. subst n.
    exists "", "". destruct m; cbn; repeat split; reflexivity.
  - destruct n as [| n].
    + destruct m as [| m].
      * exists "", (String c s). cbn. repeat split; reflexivity.
      * destruct (IH 0%nat m (Nat.le_0_l _)) as [before [after [E [Hb Hl]]]].
        destruct before; [| discriminate Hb]. cbn [append] in E.
        exists "", after. cbn [String.substring append String.length].
        split; [now rewrite <- E |]. split; [reflexivity |].
        rewrite Hl. rewrite Nat.sub_0_r. lia.
    + cbn [String.length] in Hn.
      destruct (IH n m) as [before [after [E [Hb Hl]]]]; [lia |].
      exists (String c before), after.
      cbn [String.substring append String.length].
      split; [now rewrite <- E |]. split; [now rewrite Hb |].
      rewrite Hl. reflexivity.
Qed.

(** X3: for a node that starts at or before the end of the source text,
    [getNodeText] returns the bytes of the text from the start of the node
    on, as many as the node spans or as the text has left; for a node that
    starts beyond the end it throws [out_of_range]. *)
Theorem getNodeText_span (node : TSNode) (source : string) :
  0 <= ts_node_start_byte node ->
  (Z.of_nat (String.length source) < ts_node_start_byte node ->
   getNodeText (Some node) source = Throw out_of_range) /\
  (ts_node_start_byte node <= Z.of_nat (String.length source) ->
   exists text before after,
     getNodeText (Some node) source = Ok text /\
     source = before ++ text ++ after /\
     Z.of_nat (String.length before) = ts_node_start_byte node /\
     Z.of_nat (String.length text) =
       Z.min (uint32 (ts_node_end_byte node - ts_node_start_byte node))
             (Z.of_nat (String.length source) - ts_node_start_byte node)).
Proof.
  intros H0. unfold getNodeText, substr. split; intros H.
  - apply Z.ltb_lt in H. now rewrite H.
  - assert (E : (Z.of_nat (String.length source) <? ts_node_start_byte node)
                = false) by (apply Z.ltb_ge; exact H).
    rewrite E.
    set (n := Z.to_nat (ts_node_start_byte node)).
    set (m := Z.to_nat (uint32 (ts_node_end_byte node -
                                ts_node_start_byte node))).
    destruct (substring_spec source n m) as [before [after [Es [Hb Hl]]]];
      [unfold n; lia |].
    exists (String.substring n m source), before, after.
    split; [reflexivity |]. split; [exact Es |].
    split; [rewrite Hb; unfold n; lia |].
    rewrite Hl. unfold n, m.
    assert (0 <= uint32 (ts_node_end_byte node - ts_node_start_byte node)).
    { unfold uint32. apply Z.mod_pos_bound. lia. }
    lia.
Qed.

Lemma getNodeText_span_witness :
  exists text before after,
    getNodeText (Some ([], mk "identifier" None 32 36 19 19 []))
      one_liner_source = Ok text /\
    one_liner_source = before ++ text ++ after /\
    Z.of_nat (String.length before) = 32 /\
    Z.of_nat (String.length text) = Z.min (uint32 (36 - 32)) (49 - 32).
Proof.
  destruct (getNodeText_span ([], mk "identifier" None 32 36 19 19 [])
              one_liner_source) as [_ H].
  - vm_compute. discriminate.
  - apply H. vm_compute. discriminate.
Defined.

Lemma flat_map_segment {A B : Type} (f : A -> list B) (l : list A) (c : A) :
  In c l -> exists l1 l2, flat_map f l = (l1 ++ f c ++ l2)%list.
Proof.
  intros H. destruct (in_split c l H) as [pre [post ->]].
  exists (flat_map f pre), (flat_map f post).
  now rewrite flat_map_app.
Qed.

Lemma subnodes_at_segment (t : Tree) :
  forall anc h,
    In h (subnodes_at anc t) ->
    exists l1 l2, subnodes_at anc t = (l1 ++ subnodes h ++ l2)%list.
Proof.
  induction t as [i cs IH] using Tree_ind; intros anc h.
  rewrite subnodes_at_eq. intros [<- | H].
  - exists [], []. unfold subnodes. cbn [fst snd app].
    now rewrite subnodes_at_eq, app_nil_r.
  - apply in_flat_map in H. destruct H as [c [Hc H]].
    rewrite Forall_forall in IH.
    destruct (IH c Hc _ _ H) as [l1 [l2 E]].
    destruct (flat_map_segment (subnodes_at (Node i cs :: anc)) cs c Hc)
      as [k1 [k2 ->]].
    rewrite E.
    exists ((anc, Node i cs) :: k1 ++ l1)%list, (l2 ++ k2)%list.
    cbn [app]. f_equal. now rewrite <- !app_assoc.
Qed.

Lemma calculateComplexity_sum (s : LanguageStrategy) (h : TSNode) :
  calculateComplexity s h =
  sumZ (map (fun n => decision_point s n + base_point s n) (subnodes h)).
Proof. apply calculateComplexity_at_sum. Qed.

Lemma point_nonneg (s : LanguageStrategy) (n : TSNode) :
  0 <= decision_point s n + base_point s n.
Proof.
  pose proof (decision_point_range s n). pose proof (base_point_range s n).
  lia.
Qed.

(** X4: the complexity of a node is never negative and never below the
    complexity of a node of its subtree; the complexity of a function node
    exceeds that of every node below it, so that a function definition
    nested in a function adds its whole complexity to the outer one. *)
Theorem calculateComplexity_nested (s : LanguageStrategy) (node : TSNode) :
  (forall h, In h (subnodes node) ->
             0 <= calculateComplexity s h <= calculateComplexity s node) /\
  (is_function_node s node = true ->
   forall h, In h (tl (subnodes node)) ->
             calculateComplexity s h + 1 <= calculateComplexity s node).
Proof.
  assert (Hseg : forall l1 l2 h,
    subnodes node = (l1 ++ subnodes h ++ l2)%list ->
    calculateComplexity s node =
    sumZ (map (fun n => decision_point s n + base_point s n) l1) +
    calculateComplexity s h +
    sumZ (map (fun n => decision_point s n + base_point s n) l2)).
  { intros l1 l2 h E. rewrite !calculateComplexity_sum, E.
    rewrite !map_app, !sumZ_app. lia. }
  split.
  - intros h Hin. split.
    + rewrite calculateComplexity_sum. apply sumZ_map_nonneg.
      apply point_nonneg.
    + unfold subnodes in Hin.
      destruct (subnodes_at_segment _ _ _ Hin) as [l1 [l2 E]].
      rewrite (Hseg l1 l2 h E).
      pose proof (sumZ_map_nonneg _ l1 (point_nonneg s)).
      pose proof (sumZ_map_nonneg _ l2 (point_nonneg s)). lia.
  - intros Hf h Hin.
    assert (Hb : base_point s node = 1)
      by (unfold base_point; now rewrite Hf).
    pose proof (decision_point_range s node) as Hd.
    destruct node as [anc [i cs]].
    unfold subnodes in Hin, Hseg. cbn [fst snd] in Hin, Hseg.
    rewrite subnodes_at_eq in Hin, Hseg. cbn [tl] in Hin.
    apply in_flat_map in Hin. destruct Hin as [c [Hc Hin]].
    destruct (subnodes_at_segment _ _ _ Hin) as [l1 [l2 E]].
    destruct (flat_map_segment (subnodes_at (Node i cs :: anc)) cs c Hc)
      as [k1 [k2 Ek]].
    rewrite (Hseg ((anc, Node i cs) :: k1 ++ l1)%list (l2 ++ k2)%list h).
    + cbn [map sumZ fold_right]. change (fold_right Z.add 0) with sumZ.
      rewrite Hb.
      pose proof (sumZ_map_nonneg _ (k1 ++ l1)%list (point_nonneg s)).
      pose proof (sumZ_map_nonneg _ (l2 ++ k2)%list (point_nonneg s)).
      lia.
    + rewrite Ek, E. cbn [app]. f_equal. now rewrite <- !app_assoc.
Qed.

Lemma calculateComplexity_nested_witness :
  calculateComplexity JSStrategy
    ([nested_function_tree; nested_function_program], tok "function" 0 8 0)
    + 1 <= calculateComplexity JSStrategy nested_function_node.
Proof.
  apply (proj2 (calculateComplexity_nested JSStrategy nested_function_node)
           eq_refl).
  left. reflexivity.
Defined.

(* ================================================================== *)
(** * Further properties of the three traversals *)

Lemma set_functions_id (m : FileMetrics) :
  set_functions m (functions m ++ []) = m.
Proof. destruct m. cbn. now rewrite app_nil_r. Qed.

Lemma set_functions_twice (m : FileMetrics) (l1 l2 : list FunctionMetric) :
  set_functions (set_functions m (functions m ++ l1))
    (functions (set_functions m (functions m ++ l1)) ++ l2) =
  set_functions m (functions m ++ (l1 ++ l2)).
Proof. destruct m. cbn. now rewrite app_assoc. Qed.

Lemma analyzeSingleFunction_record (s : LanguageStrategy) (h : TSNode)
  (m : FileMetrics) (src : string) :
  analyzeSingleFunction s h m src =
  (f <- record_of s src h ;; Ok (set_functions m (functions m ++ [f]))).
Proof.
  unfold analyzeSingleFunction, record_of.
  now destruct (extractFunctionName s h src).
Qed.

(** The records of a subtree, or the exception that stops discovery; they
    do not depend on the metrics that discovery is given. *)
Lemma analyzeFunctions_at_records (s : LanguageStrategy) (src : string)
  (t : Tree) :
  forall anc,
    exists r : result (list FunctionMetric),
      forall m,
        analyzeFunctions_at s anc t m src =
        (fs <- r ;; Ok (set_functions m (functions m ++ fs))).
Proof.
  induction t as [i cs IH] using Tree_ind; intros anc.
  destruct (contains (getFunctionDefinitionTypes s) (type i)) eqn:Ef.
  - destruct (isSpecialFunction s (anc, Node i cs)) eqn:Es.
    + exists (Ok []). intros m. rewrite analyzeFunctions_at_eq, Ef, Es.
      cbn [negb bind]. now rewrite set_functions_id.
    + exists (f <- record_of s src (anc, Node i cs) ;; Ok [f]). intros m.
      rewrite analyzeFunctions_at_eq, Ef, Es. cbn [negb].
      rewrite analyzeSingleFunction_record.
      now destruct (record_of s src (anc, Node i cs)).
  - assert (H : exists r : result (list FunctionMetric), forall m,
      foldM (fun c m => analyzeFunctions_at s (Node i cs :: anc) c m src) cs m =
      (fs <- r ;; Ok (set_functions m (functions m ++ fs)))).
    { generalize (Node i cs :: anc). intros a.
      induction IH as [| c l Hc _ IHl].
      - exists (Ok []). intros m. cbn [foldM bind].
        now rewrite set_functions_id.
      - destruct (Hc a) as [r1 H1]. destruct IHl as [r2 H2].
        exists (fs1 <- r1 ;; fs2 <- r2 ;; Ok (fs1 ++ fs2)%list).
        intros m. cbn [foldM]. rewrite H1.
        destruct r1 as [fs1 | e]; cbn [bind]; [| reflexivity].
        rewrite H2. destruct r2 as [fs2 | e]; cbn [bind]; [| reflexivity].
        now rewrite set_functions_twice. }
    destruct H as [r H]. exists r. intros m.
    now rewrite analyzeFunctions_at_eq, Ef.
Qed.

(** X5: function discovery changes nothing of the metrics but the list of
    functions, to which it appends; the records it appends, or the exception
    it throws, are the same whatever metrics it is given. *)
Theorem analyzeFunctions_appends (s : LanguageStrategy) (node : TSNode)
  (src : string) :
  exists r : result (list FunctionMetric),
    forall m,
      analyzeFunctions s node m src =
      (fs <- r ;; Ok (set_functions m (functions m ++ fs))).
Proof. apply analyzeFunctions_at_records. Qed.

Lemma uint32_int_of_uint32 (z : Z) : uint32 (int_of_uint32 (uint32 z)) = uint32 z.
Proof.
  unfold int_of_uint32, uint32. change (2 ^ 32) with 4294967296.
  destruct (z mod 4294967296 <? 2 ^ 31); Z.div_mod_to_equations; lia.
Qed.

Lemma int_of_uint32_range (z : Z) : in_int_range (int_of_uint32 (uint32 z)).
Proof.
  unfold in_int_range, int_of_uint32, uint32.
  change (2 ^ 32) with 4294967296. change (2 ^ 31) with 2147483648.
  destruct (z mod 4294967296 <? 2147483648) eqn:E;
    [apply Z.ltb_lt in E | apply Z.ltb_ge in E];
    Z.div_mod_to_equations; lia.
Qed.

Lemma int_of_uint32_exact (z : Z) :
  in_int_range z -> int_of_uint32 (uint32 z) = z.
Proof.
  unfold in_int_range, int_of_uint32, uint32.
  change (2 ^ 32) with 4294967296. change (2 ^ 31) with 2147483648.
  intros H.
  destruct (z mod 4294967296 <? 2147483648) eqn:E;
    [apply Z.ltb_lt in E | apply Z.ltb_ge in E];
    Z.div_mod_to_equations; lia.
Qed.

Lemma add_comment_rows_mod (c : Z) (h : TSNode) :
  uint32 (add_comment_rows c h) = uint32 (c + rows_of h).
Proof.
  unfold add_comment_rows, rows_of. rewrite uint32_int_of_uint32.
  unfold uint32. change (2 ^ 32) with 4294967296.
  Z.div_mod_to_equations. lia.
Qed.

Lemma uint32_add_congr (a b c : Z) :
  uint32 a = uint32 b -> uint32 (a + c) = uint32 (b + c).
Proof.
  unfold uint32. change (2 ^ 32) with 4294967296. intros H.
  Z.div_mod_to_equations. lia.
Qed.

Lemma fold_add_comment_rows_mod (l : list TSNode) :
  forall c,
    uint32 (fold_left add_comment_rows l c) = uint32 (c + sumZ (map rows_of l)).
Proof.
  induction l as [| h l IH]; intros c; cbn [fold_left map sumZ fold_right].
  - now rewrite Z.add_0_r.
  - change (fold_right Z.add 0) with sumZ. rewrite IH.
    rewrite (uint32_add_congr _ _ _ (add_comment_rows_mod c h)).
    f_equal. lia.
Qed.

Lemma fold_add_comment_rows_range (l : list TSNode) :
  forall c, in_int_range c -> in_int_range (fold_left add_comment_rows l c).
Proof.
  induction l as [| h l IH]; intros c Hc; cbn [fold_left]; [exact Hc |].
  apply IH. apply int_of_uint32_range.
Qed.

Lemma set_comment_lines_id (m : FileMetrics) :
  set_comment_lines m (comment_lines m) = m.
Proof. now destruct m. Qed.

(** The walk of [analyzeFileWideMetrics] adds the rows of the comment nodes
    in pre-order, and sets [total_lines] at a node without parent only. *)
Lemma analyzeFileWideMetrics_at_fold (t : Tree) :
  forall anc m,
    analyzeFileWideMetrics_at anc t m =
    set_comment_lines
      (match anc with
       | [] => set_total_lines m
                 (int_of_uint32 (uint32 (end_row (info_of t) + 1)))
       | _ :: _ => m
       end)
      (fold_left add_comment_rows
         (filter (has_type "comment") (subnodes_at anc t)) (comment_lines m)).
Proof.
  induction t as [i cs IH] using Tree_ind; intros anc m.
  rewrite subnodes_at_eq. cbn [analyzeFileWideMetrics_at filter].
  unfold has_type at 1. unfold ts_node_type, ts_node_parent, ts_node_end_row.
  cbn [fst snd info_of ts_node_is_null].
  rewrite filter_flat_map.
  set (m1 := match anc with
             | [] => set_total_lines m
                       (int_of_uint32 (uint32 (end_row i + 1)))
             | _ :: _ => m
             end).
  assert (E1 : (if match anc with [] => true | _ :: _ => false end
                then set_total_lines m (int_of_uint32 (uint32 (end_row i + 1)))
                else m) = m1) by (unfold m1; now destruct anc).
  assert (Ec : comment_lines m1 = comment_lines m)
    by (unfold m1; now destruct anc).
  match goal with
  | |- context [ts_node_is_null ?x] =>
      replace (ts_node_is_null x)
        with (match anc with [] => true | _ :: _ => false end)
        by now destruct anc
  end.
  rewrite !E1. rewrite <- Ec.
  assert (L : forall a m0,
    (fix loop (l : list Tree) (metrics : FileMetrics) {struct l} : FileMetrics :=
       match l with
       | [] => metrics
       | c :: l' => loop l' (analyzeFileWideMetrics_at (a :: anc) c metrics)
       end) cs m0 =
    set_comment_lines m0
      (fold_left add_comment_rows
         (flat_map (fun c => filter (has_type "comment")
                               (subnodes_at (a :: anc) c)) cs)
         (comment_lines m0))).
  { intros a. induction IH as [| c l Hc _ IHl]; intros m0.
    - cbn. now rewrite set_comment_lines_id.
    - rewrite IHl, (Hc (a :: anc)). cbn [flat_map]. rewrite fold_left_app.
      now destruct m0. }
  rewrite L. generalize (flat_map (fun c => filter (has_type "comment")
                           (subnodes_at (Node i cs :: anc) c)) cs).
  intros l. destruct (String.eqb (type i) "comment"); cbn [fold_left].
  - now destruct m1.
  - reflexivity.
Qed.

(** X6: on the root of a tree, [analyzeFileWideMetrics] changes nothing but
    [total_lines] and [comment_lines]; [total_lines] becomes the last row of
    the root plus one, and [comment_lines] grows, modulo 2^32, by the rows of
    every comment node of the tree, a row that holds several comments
    counting once for each.  Within the range of [int] both are exact. *)
Theorem analyzeFileWideMetrics_counts (root : Tree) (m : FileMetrics) :
  let r := analyzeFileWideMetrics ([], root) m in
  let comments := filter (has_type "comment") (subnodes ([], root)) in
  r = set_comment_lines (set_total_lines m (total_lines r)) (comment_lines r) /\
  total_lines r = int_of_uint32 (uint32 (end_row (info_of root) + 1)) /\
  uint32 (comment_lines r) =
    uint32 (comment_lines m + sumZ (map rows_of comments)) /\
  (in_int_range (end_row (info_of root) + 1) ->
   total_lines r = end_row (info_of root) + 1) /\
  (in_int_range (comment_lines m) ->
   in_int_range (comment_lines m + sumZ (map rows_of comments)) ->
   comment_lines r = comment_lines m + sumZ (map rows_of comments)).
Proof.
  intros r comments. unfold r, comments, analyzeFileWideMetrics, subnodes.
  cbn [fst snd]. rewrite analyzeFileWideMetrics_at_fold.
  set (l := filter (has_type "comment") (subnodes_at [] root)).
  split; [now destruct m |]. split; [now destruct m |].
  cbn [comment_lines set_comment_lines total_lines set_total_lines].
  split; [apply fold_add_comment_rows_mod |].
  split; [apply int_of_uint32_exact |].
  intros H1 H2.
  pose proof (fold_add_comment_rows_range l _ H1) as H3.
  pose proof (fold_add_comment_rows_mod l (comment_lines m)) as H4.
  rewrite <- (int_of_uint32_exact _ H3), <- (int_of_uint32_exact _ H2).
  unfold int_of_uint32. now rewrite H4.
Qed.

Lemma analyzeFileWideMetrics_counts_witness :
  total_lines (analyzeFileWideMetrics ([], one_liner_tree) FileMetrics_default)
    = 19 + 1 /\
  comment_lines (analyzeFileWideMetrics ([], one_liner_tree) FileMetrics_default)
    = 0 + (1 + (1 + (1 + 0))).
Proof.
  destruct (analyzeFileWideMetrics_counts one_liner_tree FileMetrics_default)
    as [_ [_ [_ [H1 H2]]]].
  split.
  - apply H1. unfold in_int_range. simpl. lia.
  - apply H2; unfold in_int_range; simpl; lia.
Defined.

Lemma mapM_app {A B : Type} (f : A -> result B) (l1 l2 : list A) :
  mapM f (l1 ++ l2) =
  (a <- mapM f l1 ;; b <- mapM f l2 ;; Ok (a ++ b)%list).
Proof.
  induction l1 as [| x l1 IH]; cbn [app mapM bind].
  - now destruct (mapM f l2).
  - destruct (f x); cbn [bind]; [| reflexivity]. rewrite IH.
    destruct (mapM f l1); cbn [bind]; [| reflexivity].
    now destruct (mapM f l2).
Qed.

Lemma add_violations_nil (m : FileMetrics) : add_violations m [] = m.
Proof. destruct m. unfold add_violations. cbn. now rewrite Z.add_0_r. Qed.

Lemma add_violations_app (m : FileMetrics) (l1 l2 : list string) :
  add_violations (add_violations m l1) l2 = add_violations m (l1 ++ l2).
Proof.
  destruct m. unfold add_violations, set_naming_violations.
  cbn [file_path functions avg_function_length avg_function_complexity
       total_lines comment_lines comment_coverage_ratio naming_violations
       shit_mountain_index].
  f_equal. rewrite filter_app, length_app. lia.
Qed.

(** The walk of [analyzeNaming] reads the text of the identifier nodes in
    pre-order and counts the short names among them. *)
Lemma analyzeNaming_at_count (src : string) (t : Tree) :
  forall anc m,
    analyzeNaming_at anc t m src =
    (texts <- mapM (fun h => getNodeText (Some h) src)
                (filter (has_type "identifier") (subnodes_at anc t)) ;;
     Ok (add_violations m texts)).
Proof.
  induction t as [i cs IH] using Tree_ind; intros anc m.
  rewrite subnodes_at_eq. cbn [analyzeNaming_at filter].
  unfold has_type at 1. unfold ts_node_type. cbn [snd info_of].
  rewrite filter_flat_map.
  assert (L : forall a m0,
    (fix loop (l : list Tree) (metrics : FileMetrics) {struct l}
       : result FileMetrics :=
       match l with
       | [] => Ok metrics
       | c :: l' =>
           metrics0 <- analyzeNaming_at a c metrics src ;; loop l' metrics0
       end) cs m0 =
    (texts <- mapM (fun h => getNodeText (Some h) src)
                (flat_map (fun c => filter (has_type "identifier")
                                      (subnodes_at a c)) cs) ;;
     Ok (add_violations m0 texts))).
  { intros a. induction IH as [| c l Hc _ IHl]; intros m0.
    - cbn. now rewrite add_violations_nil.
    - rewrite (Hc a). cbn [flat_map]. rewrite mapM_app.
      destruct (mapM _ (filter _ (subnodes_at a c))) as [t1 |];
        cbn [bind]; [| reflexivity].
      rewrite IHl. destruct (mapM _ (flat_map _ l)) as [t2 |];
        cbn [bind]; [| reflexivity].
      now rewrite add_violations_app. }
  destruct (String.eqb (type i) "identifier").
  - cbn [mapM]. cbv beta. unfold TSNode in *.
    destruct (getNodeText (Some (anc, Node i cs)) src) as [nm |];
      cbn [bind]; [| reflexivity].
    assert (E : (if (String.length nm <=? 2)%nat
                 then if negb (contains whitelist nm)
                      then Ok (set_naming_violations m
                                 (naming_violations m + 1))
                      else Ok m
                 else Ok m) = Ok (add_violations m [nm])).
    { unfold add_violations, short_name. cbn [filter].
      destruct (String.length nm <=? 2)%nat; cbn [andb];
        [destruct (negb (contains whitelist nm)) |];
        cbn [List.length Z.of_nat]; try reflexivity;
        destruct m; cbn; now rewrite Z.add_0_r. }
    rewrite E. cbn [bind]. rewrite L.
    destruct (mapM _ _) as [t2 |]; cbn [bind]; [| reflexivity].
    now rewrite add_violations_app.
  - cbn [bind]. apply L.
Qed.

(** X7: [analyzeNaming] changes nothing but [naming_violations], which it
    raises by the number of identifier nodes whose text has at most two
    bytes and is not on the allowlist; an identifier of three bytes or more
    never counts. *)
Theorem analyzeNaming_counts (node : TSNode) (m m' : FileMetrics)
  (src : string) :
  analyzeNaming node m src = Ok m' ->
  exists texts,
    mapM (fun h => getNodeText (Some h) src)
      (filter (has_type "identifier") (subnodes node)) = Ok texts /\
    m' = set_naming_violations m
           (naming_violations m +
            Z.of_nat (List.length (filter short_name texts))) /\
    naming_violations m <= naming_violations m' /\
    (Forall (fun x => (3 <= String.length x)%nat) texts -> m' = m).
Proof.
  unfold analyzeNaming, subnodes. rewrite analyzeNaming_at_count.
  destruct (mapM _ _) as [texts |]; cbn [bind]; [| discriminate].
  intros [= <-]. exists texts. split; [reflexivity |].
  split; [reflexivity |]. split.
  - unfold add_violations. cbn [naming_violations set_naming_violations]. lia.
  - intros H.
    assert (E : filter short_name texts = []).
    { induction H as [| x l Hx _ IHl]; [reflexivity |].
      cbn [filter]. unfold short_name at 1.
      destruct (String.length x <=? 2)%nat eqn:L.
      - apply Nat.leb_le in L. lia.
      - exact IHl. }
    unfold add_violations. rewrite E. apply (add_violations_nil m).
Qed.

Lemma analyzeNaming_counts_witness :
  exists texts,
    mapM (fun h => getNodeText (Some h) "aa")
      (filter (has_type "identifier")
         (subnodes ([], mk "identifier" None 0 2 0 0 []))) = Ok texts /\
    set_naming_violations FileMetrics_default 1 =
    set_naming_violations FileMetrics_default
      (naming_violations FileMetrics_default +
       Z.of_nat (List.length (filter short_name texts))).
Proof.
  destruct (analyzeNaming_counts ([], mk "identifier" None 0 2 0 0 [])
              FileMetrics_default
              (set_naming_violations FileMetrics_default 1) "aa" eq_refl)
    as [texts [H1 [H2 _]]].
  exists texts. split; [exact H1 | exact H2].
Defined.

(* ------------------------------------------------------------------ *)
(** ** The only exception is [out_of_range] *)

Lemma getNodeText_throws (n : option TSNode) (src : string) (e : exn) :
  getNodeText n src = Throw e -> e = out_of_range.
Proof.
  destruct n as [n |]; cbn; [| discriminate].
  unfold substr. destruct (_ <? _); [now intros [= <-] | discriminate].
Qed.

Lemma extractFunctionName_throws (s : LanguageStrategy) (node : TSNode)
  (src : string) (e : exn) :
  extractFunctionName s node src = Throw e -> e = out_of_range.
Proof.
  assert (c_case : CStrategy_extractFunctionName node src = Throw e ->
                   e = out_of_range).
  { unfold CStrategy_extractFunctionName.
    destruct (ts_node_child_by_field_name node "declarator");
      [| discriminate].
    destruct (findIdentifierRecursive _); [| discriminate].
    apply getNodeText_throws. }
  assert (js_case : JSStrategy_extractFunctionName node src = Throw e ->
                    e = out_of_range).
  { unfold JSStrategy_extractFunctionName.
    destruct (ts_node_child_by_field_name node "name");
      [apply getNodeText_throws |].
    destruct (String.eqb _ "arrow_function"); [| discriminate].
    destruct (ts_node_parent node); [| discriminate].
    destruct (String.eqb _ "variable_declarator"); [| discriminate].
    apply getNodeText_throws. }
  destruct s; cbn [extractFunctionName]; try exact c_case; try exact js_case;
    apply getNodeText_throws.
Qed.

Lemma analyzeFunctions_at_throws (s : LanguageStrategy) (src : string)
  (t : Tree) :
  forall anc m e,
    analyzeFunctions_at s anc t m src = Throw e -> e = out_of_range.
Proof.
  induction t as [i cs IH] using Tree_ind; intros anc m e.
  rewrite analyzeFunctions_at_eq. destruct (contains _ _).
  - destruct (negb _); [| discriminate].
    unfold analyzeSingleFunction.
    destruct (extractFunctionName s (anc, Node i cs) src) eqn:E;
      cbn [bind]; [discriminate |].
    intros [= <-]. now apply extractFunctionName_throws in E.
  - generalize (Node i cs :: anc). intros a. revert m.
    induction IH as [| c l Hc _ IHl]; intros m; cbn [foldM];
      [discriminate |].
    destruct (analyzeFunctions_at s a c m src) eqn:E; cbn [bind].
    + apply IHl.
    + intros [= <-]. now apply Hc in E.
Qed.

Lemma mapM_getNodeText_throws (src : string) (l : list TSNode) (e : exn) :
  mapM (fun h => getNodeText (Some h) src) l = Throw e -> e = out_of_range.
Proof.
  induction l as [| h l IH]; cbn [mapM]; [discriminate |].
  destruct (getNodeText (Some h) src) eqn:E; cbn [bind].
  - destruct (mapM _ l); cbn [bind]; [discriminate |].
    intros [= <-]. now apply IH.
  - intros [= <-]. now apply getNodeText_throws in E.
Qed.

(** X8: the three traversals of [analyze] are independent: run on the same
    node in the opposite order, naming first and function discovery last,
    they give the same metrics, or throw the same exception. *)
Theorem traversals_commute (s : LanguageStrategy) (node : TSNode)
  (m : FileMetrics) (src : string) :
  (m1 <- analyzeFunctions s node m src ;;
   analyzeNaming node (analyzeFileWideMetrics node m1) src) =
  (m1 <- analyzeNaming node m src ;;
   analyzeFunctions s node (analyzeFileWideMetrics node m1) src).
Proof.
  destruct node as [anc t].
  unfold analyzeFunctions, analyzeNaming, analyzeFileWideMetrics.
  cbn [fst snd].
  destruct (analyzeFunctions_at_records s src t anc) as [r Hr].
  assert (Hthrow : forall e, r = Throw e -> e = out_of_range).
  { intros e ->. specialize (Hr m). cbn [bind] in Hr.
    now apply analyzeFunctions_at_throws in Hr. }
  rewrite (Hr m).
  rewrite (analyzeNaming_at_count src t anc m).
  destruct r as [fs | e1]; cbn [bind].
  - rewrite analyzeNaming_at_count.
    destruct (mapM _ _) as [texts | e2]; cbn [bind]; [| reflexivity].
    rewrite Hr. cbn [bind]. rewrite !analyzeFileWideMetrics_at_fold.
    f_equal. destruct m, anc; reflexivity.
  - destruct (mapM _ _) as [texts | e2] eqn:E; cbn [bind].
    + rewrite Hr. reflexivity.
    + apply mapM_getNodeText_throws in E.
      rewrite (Hthrow e1 eq_refl), E. reflexivity.
Qed.

Lemma analyzeEach_records (s : LanguageStrategy) (src : string)
  (hs : list TSNode) :
  forall m,
    analyzeEach s src hs m =
    (fs <- mapM (record_of s src) hs ;;
     Ok (set_functions m (functions m ++ fs))).
Proof.
  induction hs as [| h hs IH]; intros m; cbn [analyzeEach mapM bind].
  - now rewrite set_functions_id.
  - rewrite analyzeSingleFunction_record.
    destruct (record_of s src h) as [f |]; cbn [bind]; [| reflexivity].
    rewrite IH. destruct (mapM _ hs) as [fs |]; cbn [bind]; [| reflexivity].
    now rewrite set_functions_twice.
Qed.

(** X9: the report that [analyze] returns for a tree is the score of the
    raw metrics of the tree: the path, the records of the function nodes
    that discovery selects, in pre-order, the last row of the root plus one,
    the rows of the comment nodes, and the number of short identifiers. *)
Theorem analyze_report (s : LanguageStrategy) (root : Tree)
  (filePath sourceCode : string) (r : FileMetrics) :
  analyze (Some s) ([], root) filePath sourceCode = Ok r ->
  exists fs texts,
    mapM (record_of s sourceCode)
      (filter (emits s) (subnodes ([], root))) = Ok fs /\
    mapM (fun h => getNodeText (Some h) sourceCode)
      (filter (has_type "identifier") (subnodes ([], root))) = Ok texts /\
    r = calculateFinalScore
          (mkFileMetrics filePath fs 0 0
             (int_of_uint32 (uint32 (end_row (info_of root) + 1)))
             (fold_left add_comment_rows
                (filter (has_type "comment") (subnodes ([], root))) 0)
             0
             (Z.of_nat (List.length (filter short_name texts)))
             0).
Proof.
  unfold analyze, analyzeFunctions, analyzeNaming, analyzeFileWideMetrics,
    subnodes.
  cbn [fst snd].
  rewrite analyzeFunctions_at_emits by reflexivity.
  rewrite analyzeEach_records.
  destruct (mapM (record_of s sourceCode) _) as [fs |]; cbn [bind];
    [| discriminate].
  rewrite analyzeNaming_at_count.
  destruct (mapM (fun h => getNodeText (Some h) sourceCode) _) as [texts |];
    cbn [bind]; [| discriminate].
  intros [= <-]. exists fs, texts. split; [reflexivity |].
  split; [reflexivity |].
  rewrite analyzeFileWideMetrics_at_fold. reflexivity.
Qed.

Lemma analyze_report_witness :
  exists fs texts,
    mapM (record_of CStrategy one_liner_source)
      (filter (emits CStrategy) (subnodes ([], one_liner_tree))) = Ok fs /\
    mapM (fun h => getNodeText (Some h) one_liner_source)
      (filter (has_type "identifier") (subnodes ([], one_liner_tree)))
      = Ok texts.
Proof.
  destruct (analyze (Some CStrategy) ([], one_liner_tree) "main.c"
              one_liner_source) as [r |] eqn:E;
    [| vm_compute in E; discriminate E].
  destruct (analyze_report CStrategy one_liner_tree "main.c" one_liner_source
              r E) as [fs [texts [H1 [H2 _]]]].
  exists fs, texts. split; [exact H1 | exact H2].
Defined.

(* ================================================================== *)
(** * Further properties of the language tables *)

Lemma map_find_In {V : Type} (m : list (string * V)) (k : string) (v : V) :
  map_find m k = Some v -> In (k, v) m.
Proof.
  induction m as [| [k' v'] m IH]; cbn [map_find]; [discriminate |].
  destruct (String.eqb k k') eqn:E.
  - apply String.eqb_eq in E. subst k'. intros [= <-]. now left.
  - intros H. right. now apply IH.
Qed.

Lemma languages_tables_agree (language : string) :
  getLanguage language = None <-> createStrategy language = None.
Proof.
  unfold getLanguage, createStrategy, language_map. cbn [map_find].
  repeat match goal with
         | |- context [String.eqb language ?k] =>
             destruct (String.eqb language k)
         end; split; intros H; try discriminate H; reflexivity.
Qed.

(** X10: the parser and the strategy factory know the same languages, and
    every language that [getLanguageFromFile] gives for a path, other than
    ["unsupported"], has a grammar and a strategy: [analyzeFile] never
    meets an unsupported language in [parse], nor a null strategy. *)
Theorem languages_agree :
  (forall language,
     getLanguage language = None <-> createStrategy language = None) /\
  (forall filePath,
     getLanguageFromFile filePath <> "unsupported" ->
     exists g s,
       getLanguage (getLanguageFromFile filePath) = Some g /\
       createStrategy (getLanguageFromFile filePath) = Some s).
Proof.
  split.
  - apply languages_tables_agree.
  - intros filePath. unfold getLanguageFromFile.
    destruct (find_last_of filePath ".") as [pos |]; [| now intros []].
    destruct (map_find extension_map _) as [l |] eqn:E; [| now intros []].
    intros _. apply map_find_In in E.
    repeat (destruct E as [E | E];
            [injection E as _ <-; eexists; eexists; split; reflexivity |]).
    destruct E.
Qed.

Lemma languages_agree_witness :
  exists g s,
    getLanguage (getLanguageFromFile "src/main.cpp") = Some g /\
    createStrategy (getLanguageFromFile "src/main.cpp") = Some s.
Proof.
  apply (proj2 languages_agree "src/main.cpp"). vm_compute. discriminate.
Defined.

Lemma find_last_of_app (stem e : string) (c : ascii) :
  find_last_of e c = None ->
  find_last_of (stem ++ String c e) c = Some (String.length stem).
Proof.
  intros H. induction stem as [| a stem IH]; cbn [append find_last_of String.length].
  - now rewrite H, Ascii.eqb_refl.
  - now rewrite IH.
Qed.

Lemma substring_whole (x : string) :
  String.substring 0 (String.length x) x = x.
Proof. induction x as [| a x IH]; cbn; [reflexivity | now rewrite IH]. Qed.

Lemma substring_suffix (stem x : string) :
  String.substring (String.length stem)
    (String.length (stem ++ x) - String.length stem) (stem ++ x) = x.
Proof.
  induction stem as [| a stem IH]; cbn [append String.length String.substring].
  - rewrite Nat.sub_0_r. apply substring_whole.
  - exact IH.
Qed.

(** X11: a path that ends with one of the twelve extensions of the table
    gets the language of that extension, whatever comes before, dots and
    directory separators included; [.h] files are C++. *)
Theorem getLanguageFromFile_suffix (stem ext language : string) :
  In (ext, language) extension_map ->
  getLanguageFromFile (stem ++ ext) = language.
Proof.
  intros H.
  assert (G : forall e,
    find_last_of e "." = None ->
    map_find extension_map (String "." e) = Some language ->
    getLanguageFromFile (stem ++ String "." e) = language).
  { intros e He Hm. unfold getLanguageFromFile.
    rewrite (find_last_of_app stem e "." He), substring_suffix.
    now rewrite Hm. }
  repeat (destruct H as [H | H];
          [injection H as <- <-; apply G; reflexivity |]).
  destruct H.
Qed.

Lemma getLanguageFromFile_suffix_witness :
  getLanguageFromFile ("lib.v2/core.util" ++ ".h") = "cpp".
Proof.
  apply (getLanguageFromFile_suffix "lib.v2/core.util" ".h" "cpp").
  simpl. right. right. left. reflexivity.
Defined.

Lemma find_last_of_bound (s : string) (c : ascii) (pos : nat) :
  find_last_of s c = Some pos -> (pos < String.length s)%nat.
Proof.
  revert pos. induction s as [| a s IH]; intros pos; cbn [find_last_of];
    [discriminate |].
  destruct (find_last_of s c) as [p |].
  - intros [= <-]. specialize (IH p eq_refl). cbn [String.length]. lia.
  - destruct (Ascii.eqb a c); [| discriminate].
    intros [= <-]. cbn [String.length]. lia.
Qed.

Lemma append_length (a b : string) :
  String.length (a ++ b) = (String.length a + String.length b)%nat.
Proof. induction a as [| x a IH]; cbn; [reflexivity | now rewrite IH]. Qed.

Lemma length_zero_string (x : string) : String.length x = 0%nat -> x = "".
Proof. destruct x; [reflexivity | discriminate]. Qed.

Lemma append_empty_r (a : string) : a ++ "" = a.
Proof. induction a as [| x a IH]; cbn; [reflexivity | now rewrite IH]. Qed.

(** X12: a path gets a language other than ["unsupported"] only when it
    ends with an extension of the table, and the language is the one the
    table gives for it. *)
Theorem getLanguageFromFile_supported (filePath : string) :
  getLanguageFromFile filePath <> "unsupported" ->
  exists stem ext,
    filePath = stem ++ ext /\
    In (ext, getLanguageFromFile filePath) extension_map.
Proof.
  unfold getLanguageFromFile.
  destruct (find_last_of filePath ".") as [pos |] eqn:Ep; [| now intros []].
  destruct (map_find extension_map _) as [l |] eqn:E; [| now intros []].
  intros _. apply map_find_In in E. apply find_last_of_bound in Ep.
  destruct (substring_spec filePath pos (String.length filePath - pos))
    as [before [after [Es [Hb Hl]]]]; [lia |].
  set (ext := String.substring pos (String.length filePath - pos) filePath) in *.
  exists before, ext. split; [| exact E].
  assert (Ha : after = "").
  { apply length_zero_string.
    apply (f_equal String.length) in Es.
    rewrite !append_length in Es. lia. }
  rewrite Ha, append_empty_r in Es. exact Es.
Qed.

Lemma getLanguageFromFile_supported_witness :
  exists stem ext,
    "a/b.tar.rs" = stem ++ ext /\
    In (ext, getLanguageFromFile "a/b.tar.rs") extension_map.
Proof.
  apply (getLanguageFromFile_supported "a/b.tar.rs").
  vm_compute. discriminate.
Defined.

(* ================================================================== *)
(** * Further properties of the parser and of the run *)

Lemma calculateFinalScore_file_path (m : FileMetrics) :
  file_path (calculateFinalScore m) = file_path m.
Proof.
  unfold calculateFinalScore, aggregate.
  destruct (functions m) eqn:E; destruct (0 <? total_lines _); cbn;
    rewrite ?E; reflexivity.
Qed.

Lemma analyze_file_path (langStrategy : option LanguageStrategy)
  (node : TSNode) (filePath src : string) (r : FileMetrics) :
  analyze langStrategy node filePath src = Ok r -> file_path r = filePath.
Proof.
  unfold analyze. destruct langStrategy as [s |]; cbn [bind].
  - destruct node as [anc t].
    unfold analyzeFunctions, analyzeNaming, analyzeFileWideMetrics.
    cbn [fst snd].
    destruct (analyzeFunctions_at_records s src t anc) as [rs Hr].
    rewrite Hr. destruct rs as [fs |]; cbn [bind]; [| discriminate].
    rewrite analyzeNaming_at_count.
    destruct (mapM _ _) as [texts |]; cbn [bind]; [| discriminate].
    intros [= <-]. rewrite calculateFinalScore_file_path.
    rewrite analyzeFileWideMetrics_at_fold. now destruct anc.
  - intros [= <-]. now rewrite calculateFinalScore_file_path.
Qed.

Section RunFurther.

Variable ts_parser_parse_string : TSLanguage -> string -> option Tree.
Variable ts_node_has_error : Tree -> bool.
Variable read_file : string -> option string.

(** X13: [parse] answers true exactly when the language has a grammar, the
    runtime returns a tree and the tree has no error.  For a language without
    grammar the parser keeps the tree it had; otherwise it keeps the tree of
    the runtime, which [getRootNode] returns even when the answer is false
    because of a syntax error. *)
Theorem parse_verdict (p : Parser) (sourceCode language : string) :
  (fst (parse ts_parser_parse_string ts_node_has_error p sourceCode language)
     = true <->
   exists g t,
     getLanguage language = Some g /\
     ts_parser_parse_string g sourceCode = Some t /\
     ts_node_has_error t = false) /\
  (getLanguage language = None ->
   parse ts_parser_parse_string ts_node_has_error p sourceCode language
     = (false, p)) /\
  (forall g,
     getLanguage language = Some g ->
     getRootNode
       (snd (parse ts_parser_parse_string ts_node_has_error p sourceCode
               language)) =
     match ts_parser_parse_string g sourceCode with
     | Some t => Some ([], t)
     | None => None
     end).
Proof.
  unfold parse. split; [| split].
  - destruct (getLanguage language) as [g |]; cbn [fst tree].
    + destruct (ts_parser_parse_string g sourceCode) as [t |] eqn:Et.
      * split.
        -- intros H. exists g, t. split; [reflexivity |].
           split; [exact Et |]. now apply negb_true_iff in H.
        -- intros [g' [t' [[= <-] [Ht' H]]]].
           rewrite Et in Ht'. injection Ht' as <-. now rewrite H.
      * split; [discriminate |].
        intros [g' [t' [[= <-] [H _]]]]. rewrite Et in H. discriminate H.
    + split; [discriminate |]. intros [g [t [H _]]]. discriminate H.
  - now intros ->.
  - intros g ->. cbn [snd]. unfold getRootNode. cbn [tree].
    reflexivity.
Qed.

(** X14: for a readable file in a supported language that parses without
    error, [analyzeFile] returns what [analyze] returns for the root of the
    tree with the strategy of the language; the null root and the null
    strategy that it guards against do not occur. *)
Theorem analyzeFile_success (filePath sourceCode : string) (g : TSLanguage)
  (t : Tree) :
  read_file filePath = Some sourceCode ->
  getLanguage (getLanguageFromFile filePath) = Some g ->
  ts_parser_parse_string g sourceCode = Some t ->
  ts_node_has_error t = false ->
  exists s,
    createStrategy (getLanguageFromFile filePath) = Some s /\
    analyzeFile ts_parser_parse_string ts_node_has_error read_file filePath =
    analyze (Some s) ([], t) filePath sourceCode.
Proof.
  intros Hread Hlang Ht Herr.
  destruct (createStrategy (getLanguageFromFile filePath)) as [s |] eqn:Es.
  - exists s. split; [reflexivity |].
    unfold analyzeFile.
    destruct (String.eqb (getLanguageFromFile filePath) "unsupported") eqn:Eu.
    + apply String.eqb_eq in Eu. rewrite Eu in Hlang. discriminate Hlang.
    + rewrite Hread. unfold parse. rewrite Hlang, Ht. cbn [tree].
      rewrite Herr. cbn [negb getRootNode tree]. now rewrite Es.
  - exfalso. apply (proj2 (languages_tables_agree _)) in Es.
    rewrite Es in Hlang. discriminate Hlang.
Qed.

(** X15: a file whose extension is not in the table, or that cannot be
    opened, gets the default report and none in [all_metrics]; the loop goes
    on with the other files. *)
Theorem unsupported_or_unreadable_skipped (filePath : string) :
  getLanguageFromFile filePath = "unsupported" \/ read_file filePath = None ->
  analyzeFile ts_parser_parse_string ts_node_has_error read_file filePath =
    Ok FileMetrics_default /\
  (forall before after all_metrics,
     main_loop ts_parser_parse_string ts_node_has_error read_file
       (before ++ filePath :: after) all_metrics =
     main_loop ts_parser_parse_string ts_node_has_error read_file
       (before ++ after) all_metrics).
Proof.
  intros H.
  assert (E : analyzeFile ts_parser_parse_string ts_node_has_error read_file
                filePath = Ok FileMetrics_default).
  { unfold analyzeFile. destruct H as [-> | H]; [reflexivity |].
    destruct (String.eqb _ "unsupported"); [reflexivity |]. now rewrite H. }
  split; [exact E |].
  intros before after all_metrics. now apply main_loop_skip.
Qed.

Lemma analyzeFile_file_path (filePath : string) (r : FileMetrics) :
  analyzeFile ts_parser_parse_string ts_node_has_error read_file filePath
    = Ok r ->
  file_path r = "" \/ file_path r = filePath.
Proof.
  unfold analyzeFile.
  destruct (String.eqb _ "unsupported"); [intros [= <-]; now left |].
  destruct (read_file filePath) as [src |]; [| intros [= <-]; now left].
  destruct (parse _ _ _ _ _) as [ok parser].
  destruct ok; [| intros [= <-]; now left].
  destruct (getRootNode parser) as [root |]; [| discriminate].
  destruct (createStrategy _) as [s |]; [| intros [= <-]; now left].
  intros H. right. now apply analyze_file_path in H.
Qed.

(** X16: the reports that the loop of [main] adds to [all_metrics] are
    those of the entries for which [analyzeFile] returned a report with a
    path, one for each, in the order of the entries and under the path of
    the entry; no report without a path is ever added. *)
Theorem main_loop_reports (entries : list string)
  (all_metrics collected : list FileMetrics) :
  main_loop ts_parser_parse_string ts_node_has_error read_file entries
    all_metrics = Ok collected ->
  exists new,
    collected = (all_metrics ++ new)%list /\
    map file_path new =
      filter (fun e => reported (analyzeFile ts_parser_parse_string
                                   ts_node_has_error read_file e)) entries /\
    Forall (fun r => file_path r <> "") new.
Proof.
  revert all_metrics.
  induction entries as [| e l IH]; intros all_metrics; cbn [main_loop filter].
  - intros [= <-]. exists []. now rewrite app_nil_r.
  - destruct (analyzeFile _ _ _ e) as [r |] eqn:E; cbn [bind reported];
      [| discriminate].
    destruct (negb (String.length (file_path r) =? 0)%nat) eqn:Ep.
    + intros H. destruct (IH _ H) as [new [H1 [H2 H3]]].
      exists (r :: new). rewrite <- app_assoc in H1. split; [exact H1 |].
      cbn [map]. split.
      * rewrite H2. f_equal.
        destruct (analyzeFile_file_path e r E) as [H0 | H0]; [| exact H0].
        rewrite H0 in Ep. discriminate Ep.
      * constructor; [| exact H3]. intros H0. rewrite H0 in Ep.
        discriminate Ep.
    + intros H. destruct (IH _ H) as [new [H1 [H2 H3]]].
      exists new. now repeat split.
Qed.

(** X17: the loop over two lists of entries is the loop over the first
    followed by the loop over the second; nothing catches an exception, so
    the first file whose analysis throws ends the run, the reports
    collected so far being lost. *)
Theorem main_loop_app (l1 l2 : list string) (all_metrics : list FileMetrics) :
  main_loop ts_parser_parse_string ts_node_has_error read_file (l1 ++ l2)
    all_metrics =
  (collected <- main_loop ts_parser_parse_string ts_node_has_error read_file
                  l1 all_metrics ;;
   main_loop ts_parser_parse_string ts_node_has_error read_file l2 collected)
  /\
  (forall entry e collected,
     main_loop ts_parser_parse_string ts_node_has_error read_file l1
       all_metrics = Ok collected ->
     analyzeFile ts_parser_parse_string ts_node_has_error read_file entry
       = Throw e ->
     main_loop ts_parser_parse_string ts_node_has_error read_file
       (l1 ++ entry :: l2) all_metrics = Throw e).
Proof.
  assert (A : forall k1 k2 acc,
    main_loop ts_parser_parse_string ts_node_has_error read_file (k1 ++ k2) acc =
    (collected <- main_loop ts_parser_parse_string ts_node_has_error read_file
                    k1 acc ;;
     main_loop ts_parser_parse_string ts_node_has_error read_file k2 collected)).
  { induction k1 as [| x k1 IH]; intros k2 acc; cbn [app main_loop bind];
      [reflexivity |].
    destruct (analyzeFile _ _ _ x); cbn [bind]; [apply IH | reflexivity]. }
  split; [apply A |].
  intros entry e collected H1 H2. rewrite A, H1. cbn [bind main_loop].
  now rewrite H2.
Qed.

End RunFurther.

Lemma parse_verdict_witness :
  getRootNode
    (snd (parse empty_files_parse no_error Parser_new "" "python")) =
  Some ([], empty_module).
Proof.
  apply (proj2 (proj2 (parse_verdict empty_files_parse no_error Parser_new
                         "" "python")) tree_sitter_python).
  reflexivity.
Defined.

Lemma analyzeFile_success_witness :
  exists s,
    createStrategy (getLanguageFromFile "a.py") = Some s /\
    analyzeFile empty_files_parse no_error empty_files_read "a.py" =
    analyze (Some s) ([], empty_module) "a.py" "".
Proof.
  apply (analyzeFile_success empty_files_parse no_error empty_files_read
           "a.py" "" tree_sitter_python empty_module);
    reflexivity.
Defined.

Lemma unsupported_or_unreadable_skipped_witness :
  analyzeFile empty_files_parse no_error empty_files_read "README" =
  Ok FileMetrics_default.
Proof.
  apply (unsupported_or_unreadable_skipped empty_files_parse no_error
           empty_files_read "README").
  left. reflexivity.
Defined.

Lemma main_loop_reports_witness :
  exists new,
    [empty_report "a.py"; empty_report "b.py"] = ([] ++ new)%list /\
    map file_path new =
      filter (fun e => reported (analyzeFile empty_files_parse no_error
                                   empty_files_read e))
        ["a.py"; "notes.txt"; "b.py"].
Proof.
  destruct (main_loop_reports empty_files_parse no_error empty_files_read
              ["a.py"; "notes.txt"; "b.py"] []
              [empty_report "a.py"; empty_report "b.py"] eq_refl)
    as [new [H1 [H2 _]]].
  exists new. split; [exact H1 | exact H2].
Defined.

Lemma main_loop_app_witness :
  main_loop overrun_parse no_error empty_files_read
    (["notes.txt"] ++ "a.py" :: ["b.py"]) [] = Throw out_of_range.
Proof.
  apply (proj2 (main_loop_app overrun_parse no_error empty_files_read
                  ["notes.txt"] ["b.py"] []) "a.py" out_of_range []);
    reflexivity.
Defined.

(* ================================================================== *)
(** * Further properties of the scoring model *)

(** Reduction of the projections and updates of [FileMetrics]. *)
Ltac metrics_fields :=
  cbn [file_path functions avg_function_length avg_function_complexity
       total_lines comment_lines comment_coverage_ratio naming_violations
       shit_mountain_index set_file_path set_functions set_averages
       set_total_lines set_comment_lines set_comment_coverage_ratio
       set_naming_violations set_shit_mountain_index].

Tactic Notation "metrics_fields" "in" hyp(H) :=
  cbn [file_path functions avg_function_length avg_function_complexity
       total_lines comment_lines comment_coverage_ratio naming_violations
       shit_mountain_index set_file_path set_functions set_averages
       set_total_lines set_comment_lines set_comment_coverage_ratio
       set_naming_violations set_shit_mountain_index] in H.

(** X18: scoring is idempotent, and what it derives it derives anew: the
    index a report came with never matters, nor the averages it came with
    when the file has functions, nor the comment coverage it came with when
    the file has lines. *)
Theorem calculateFinalScore_from_scratch (m : FileMetrics) :
  calculateFinalScore (calculateFinalScore m) = calculateFinalScore m /\
  (forall x, calculateFinalScore (set_shit_mountain_index m x) =
             calculateFinalScore m) /\
  (functions m <> [] ->
   forall a b, calculateFinalScore (set_averages m a b) =
               calculateFinalScore m) /\
  (0 < total_lines m ->
   forall x, calculateFinalScore (set_comment_coverage_ratio m x) =
             calculateFinalScore m).
Proof.
  destruct m as [p fs al ac tl cl cr nv smi].
  unfold calculateFinalScore, aggregate.
  split; [| split; [| split]].
  - destruct fs as [| f fs]; destruct (0 <? tl) eqn:El; metrics_fields;
      rewrite ?El; metrics_fields; rewrite ?El; reflexivity.
  - intros x. destruct fs as [| f fs]; destruct (0 <? tl) eqn:El;
      metrics_fields; rewrite ?El; reflexivity.
  - intros Hf a b. destruct fs as [| f fs]; [now destruct Hf |].
    destruct (0 <? tl) eqn:El; metrics_fields; rewrite ?El; reflexivity.
  - intros Hl x. metrics_fields in Hl. apply Z.ltb_lt in Hl.
    destruct fs as [| f fs]; metrics_fields; rewrite ?Hl; reflexivity.
Qed.

Lemma calculateFinalScore_from_scratch_witness :
  calculateFinalScore
    (set_averages (mkFileMetrics "a.c" [mkFunctionMetric "main" 1 10 10 1]
                     0 0 20 3 0 0 0) 7 9) =
  calculateFinalScore
    (mkFileMetrics "a.c" [mkFunctionMetric "main" 1 10 10 1] 0 0 20 3 0 0 0).
Proof.
  apply (proj1 (proj2 (proj2 (calculateFinalScore_from_scratch
           (mkFileMetrics "a.c" [mkFunctionMetric "main" 1 10 10 1]
              0 0 20 3 0 0 0))))).
  discriminate.
Defined.

Lemma fold_left_total_lower (g : FunctionMetric -> Z) (fs : list FunctionMetric) :
  Forall (fun f => 1 <= g f) fs ->
  forall a : Q,
    (a + inject_Z (Z.of_nat (List.length fs)) <=
     fold_left (fun acc f => acc + double_of_int (g f)) fs a)%Q.
Proof.
  induction 1 as [| f fs Hf _ IH]; intros a; cbn [fold_left List.length].
  - change (inject_Z (Z.of_nat 0)) with 0%Q. lra.
  - specialize (IH (a + double_of_int (g f))%Q).
    rewrite Nat2Z.inj_succ. unfold Z.succ. rewrite inject_Z_plus.
    assert (H1 : (1 <= double_of_int (g f))%Q).
    { unfold double_of_int. change 1%Q with (inject_Z 1).
      now rewrite <- Zle_Qle. }
    change (inject_Z 1) with 1%Q. lra.
Qed.

Lemma average_lower (g : FunctionMetric -> Z) (f : FunctionMetric)
  (fs : list FunctionMetric) :
  Forall (fun f => 1 <= g f) (f :: fs) ->
  (1 <= fold_left (fun acc f => acc + double_of_int (g f)) (f :: fs) 0 /
        double_of_size (f :: fs))%Q.
Proof.
  intros H. pose proof (fold_left_total_lower g (f :: fs) H 0%Q) as L.
  unfold double_of_size.
  assert (Hn : (0 < inject_Z (Z.of_nat (List.length (f :: fs))))%Q).
  { change 0%Q with (inject_Z 0). rewrite <- Zlt_Qlt.
    cbn [List.length]. lia. }
  apply Qle_shift_div_l; [exact Hn |]. lra.
Qed.

(** X19: for a file with at least one line, no negative count, and
    functions of at least one line and of complexity at least 1, the index
    lies between -1.5 and 100; without functions it lies between 0
    and 100. *)
Theorem index_range_of_file (m : FileMetrics) :
  0 < total_lines m ->
  0 <= comment_lines m ->
  0 <= naming_violations m ->
  Forall (fun f => 1 <= complexity f /\ 1 <= line_count f) (functions m) ->
  (- (3 # 2) <= shit_mountain_index (calculateFinalScore m) <= 100)%Q /\
  (functions m = [] ->
   (0 <= shit_mountain_index (calculateFinalScore m))%Q).
Proof.
  intros Hl Hc Hn Hf.
  assert (Hr : (0 <= comment_coverage_ratio (aggregate m))%Q).
  { unfold aggregate. apply Z.ltb_lt in Hl as Hl'.
    destruct (functions m); metrics_fields; rewrite Hl'; metrics_fields.
    all: unfold double_of_int.
    all: assert (H1 : (0 <= inject_Z (comment_lines m))%Q)
           by (change 0%Q with (inject_Z 0); now rewrite <- Zle_Qle).
    all: assert (H2 : (0 < inject_Z (total_lines m))%Q)
           by (change 0%Q with (inject_Z 0); now rewrite <- Zlt_Qlt).
    all: assert (H3 : (0 <= inject_Z (comment_lines m) /
                             inject_Z (total_lines m))%Q)
           by (apply Qle_shift_div_l; [exact H2 | lra]).
    all: lra. }
  apply index_range; [exact Hn | exact Hr |].
  intros Hne. unfold aggregate.
  destruct (functions m) as [| f fs] eqn:Ef; [now destruct Hne |].
  destruct (0 <? total_lines _); metrics_fields.
  all: split;
    [apply (average_lower complexity) | apply (average_lower line_count)];
    eapply Forall_impl; try exact Hf; intros x [H1 H2]; assumption.
Qed.

Lemma index_range_of_file_witness :
  (- (3 # 2) <=
   shit_mountain_index
     (calculateFinalScore
        (mkFileMetrics "main.c" [mkFunctionMetric "main" 20 20 1 1]
           0 0 20 3 0 0 0)) <= 100)%Q.
Proof.
  apply (index_range_of_file
           (mkFileMetrics "main.c" [mkFunctionMetric "main" 20 20 1 1]
              0 0 20 3 0 0 0)).
  - reflexivity.
  - simpl. lia.
  - simpl. lia.
  - repeat constructor; simpl; lia.
Defined.

Lemma naming_score_linear (v : Z) :
  0 <= v <= 20 -> (naming_score v == 100 - 5 * inject_Z v)%Q.
Proof.
  intros [H0 H20]. unfold naming_score, double_of_int.
  assert (H1 : (inject_Z v <= 20)%Q).
  { change 20%Q with (inject_Z 20). now rewrite <- Zle_Qle. }
  destruct (std_max_cases 0 (100 - inject_Z v * 5))
    as [[H ->] | [H ->]]; lra.
Qed.

Lemma naming_score_zero (v : Z) : 20 <= v -> naming_score v = 0%Q.
Proof.
  intros H. unfold naming_score, double_of_int.
  assert (H1 : (20 <= inject_Z v)%Q).
  { change 20%Q with (inject_Z 20). now rewrite <- Zle_Qle. }
  destruct (std_max_cases 0 (100 - inject_Z v * 5))
    as [[H2 _] | [_ ->]]; [lra | reflexivity].
Qed.

Lemma naming_score_mono (v v' : Z) :
  v <= v' -> (naming_score v' <= naming_score v)%Q.
Proof.
  intros H. unfold naming_score, double_of_int. apply std_max_mono.
  assert (H1 : (inject_Z v <= inject_Z v')%Q) by now rewrite <- Zle_Qle.
  lra.
Qed.

(** X20: a naming violation more never lowers the index, and from twenty
    violations on it changes nothing; below twenty, in a file with at least
    one line, one violation more makes the index greater. *)
Theorem naming_violation_cost (m : FileMetrics) :
  (forall v,
     naming_violations m <= v ->
     (shit_mountain_index (calculateFinalScore m) <=
      shit_mountain_index
        (calculateFinalScore (set_naming_violations m v)))%Q) /\
  (20 <= naming_violations m ->
   forall v,
     naming_violations m <= v ->
     shit_mountain_index (calculateFinalScore (set_naming_violations m v)) =
     shit_mountain_index (calculateFinalScore m)) /\
  (0 < total_lines m -> 0 <= naming_violations m < 20 ->
   (shit_mountain_index (calculateFinalScore m) <
    shit_mountain_index
      (calculateFinalScore
         (set_naming_violations m (naming_violations m + 1))))%Q).
Proof.
  destruct m as [p fs al ac tl cl cr nv smi]. metrics_fields.
  unfold calculateFinalScore, aggregate. split; [| split].
  - intros v Hv.
    pose proof (naming_score_mono nv v Hv) as E.
    destruct fs as [| f fs]; metrics_fields; destruct (0 <? tl);
      metrics_fields;
      unfold COMPLEXITY_WEIGHT, LENGTH_WEIGHT, COMMENT_WEIGHT, NAMING_WEIGHT;
      lra.
  - intros H v Hv.
    assert (E : naming_score v = naming_score nv).
    { rewrite (naming_score_zero nv H). apply naming_score_zero. lia. }
    destruct fs as [| f fs]; metrics_fields; destruct (0 <? tl);
      metrics_fields; rewrite E; reflexivity.
  - intros _ H.
    pose proof (naming_score_linear nv ltac:(lia)) as E1.
    pose proof (naming_score_linear (nv + 1) ltac:(lia)) as E2.
    rewrite inject_Z_plus in E2. change (inject_Z 1) with 1%Q in E2.
    destruct fs as [| f fs]; metrics_fields; destruct (0 <? tl);
      metrics_fields;
      unfold COMPLEXITY_WEIGHT, LENGTH_WEIGHT, COMMENT_WEIGHT, NAMING_WEIGHT;
      lra.
Qed.

Lemma naming_violation_cost_witness :
  (shit_mountain_index
     (calculateFinalScore (mkFileMetrics "a.h" [] 0 0 10 3 0 4 0)) <
   shit_mountain_index
     (calculateFinalScore
        (set_naming_violations (mkFileMetrics "a.h" [] 0 0 10 3 0 4 0)
           (4 + 1))))%Q /\
  shit_mountain_index
    (calculateFinalScore
       (set_naming_violations (mkFileMetrics "a.h" [] 0 0 10 3 0 25 0) 40)) =
  shit_mountain_index
    (calculateFinalScore (mkFileMetrics "a.h" [] 0 0 10 3 0 25 0)).
Proof.
  split.
  - apply (proj2 (proj2 (naming_violation_cost
                           (mkFileMetrics "a.h" [] 0 0 10 3 0 4 0)))).
    + reflexivity.
    + simpl. lia.
  - apply (proj1 (proj2 (naming_violation_cost
                           (mkFileMetrics "a.h" [] 0 0 10 3 0 25 0)))).
    + simpl. lia.
    + simpl. lia.
Defined.

Lemma std_min_mono (a b b' : Q) :
  (b <= b')%Q -> (std_min a b <= std_min a b')%Q.
Proof.
  intros H.
  destruct (std_min_cases a b) as [[H1 ->] | [H1 ->]];
    destruct (std_min_cases a b') as [[H2 ->] | [H2 ->]]; lra.
Qed.

(** X21: the comment score of a file without functions grows with the
    comment coverage, is 0 without comments and exactly 100 from a coverage
    of 30 on. *)
Theorem comment_score_A_shape :
  (forall a b, (a <= b)%Q -> (comment_score_A a <= comment_score_A b)%Q) /\
  (comment_score_A 0 == 0)%Q /\
  (forall ratio, (30 <= ratio)%Q -> comment_score_A ratio = 100%Q).
Proof.
  unfold comment_score_A. split; [| split].
  - intros a b H. apply std_min_mono.
    assert (H1 : (a / 30 <= b / 30)%Q) by (apply Qdiv_le_compat_r; lra).
    lra.
  - reflexivity.
  - intros ratio H.
    assert (H1 : (1 <= ratio / 30)%Q) by (apply Qle_shift_div_l; lra).
    destruct (std_min_cases 100 (ratio / 30 * 100))
      as [[H2 _] | [_ ->]]; [lra | reflexivity].
Qed.

Lemma comment_score_A_shape_witness :
  (comment_score_A 10 <= comment_score_A 20)%Q /\ comment_score_A 45 = 100%Q.
Proof.
  split.
  - apply (proj1 comment_score_A_shape 10%Q 20%Q). vm_compute. discriminate.
  - apply (proj2 (proj2 comment_score_A_shape) 45%Q). vm_compute. discriminate.
Defined.

Lemma comment_score_B_abs (ratio d : Q) :
  (0 <= d)%Q -> (Qabs (ratio - 15) == d)%Q ->
  (comment_score_B ratio == Qmax 0 (100 - d / 15 * 100))%Q.
Proof.
  intros Hd E. unfold comment_score_B, std_abs.
  rewrite std_max_Qmax, E. reflexivity.
Qed.

(** X22: the comment score of a file with functions is symmetric around a
    coverage of 15, where alone it reaches 100, and is 0 for a coverage of 0
    or less and of 30 or more. *)
Theorem comment_score_B_shape :
  (forall d, (comment_score_B (15 + d) == comment_score_B (15 - d))%Q) /\
  (forall ratio, (comment_score_B ratio == 100)%Q <-> (ratio == 15)%Q) /\
  (forall ratio,
     (ratio <= 0)%Q \/ (30 <= ratio)%Q -> comment_score_B ratio = 0%Q).
Proof.
  split; [| split].
  - intros d.
    rewrite (comment_score_B_abs (15 + d) (Qabs d) (Qabs_nonneg d)).
    + rewrite (comment_score_B_abs (15 - d) (Qabs d) (Qabs_nonneg d));
        [reflexivity |].
      assert (E : (15 - d - 15 == - d)%Q) by lra.
      rewrite E. apply Qabs_opp.
    + assert (E : (15 + d - 15 == d)%Q) by lra. now rewrite E.
  - intros ratio. unfold comment_score_B, std_abs.
    pose proof (Qabs_nonneg (ratio - 15)) as Hn.
    assert (Hdiv : (0 <= Qabs (ratio - 15) / 15)%Q)
      by (apply Qle_shift_div_l; lra).
    split.
    + intros H.
      destruct (std_max_cases 0 (100 - Qabs (ratio - 15) / 15 * 100))
        as [[H1 E] | [H1 E]]; rewrite E in H; [| lra].
      assert (H0 : (Qabs (ratio - 15) / 15 == 0)%Q) by lra.
      assert (Ha : (Qabs (ratio - 15) == 0)%Q).
      { assert (E15 : (Qabs (ratio - 15) ==
                       Qabs (ratio - 15) / 15 * 15)%Q) by (field; lra).
        rewrite E15, H0. reflexivity. }
      destruct (Qlt_le_dec (ratio - 15) 0) as [Hs | Hs].
      * rewrite Qabs_neg in Ha by lra. lra.
      * rewrite Qabs_pos in Ha by lra. lra.
    + intros H.
      assert (Ha : (Qabs (ratio - 15) == 0)%Q).
      { assert (E : (ratio - 15 == 0)%Q) by lra. rewrite E. reflexivity. }
      assert (H0 : (Qabs (ratio - 15) / 15 == 0)%Q).
      { rewrite Ha. reflexivity. }
      destruct (std_max_cases 0 (100 - Qabs (ratio - 15) / 15 * 100))
        as [[H1 ->] | [H1 ->]]; lra.
  - intros ratio H. unfold comment_score_B, std_abs.
    assert (Ha : (15 <= Qabs (ratio - 15))%Q).
    { destruct H as [H | H].
      - rewrite Qabs_neg by lra. lra.
      - rewrite Qabs_pos by lra. lra. }
    assert (H1 : (1 <= Qabs (ratio - 15) / 15)%Q)
      by (apply Qle_shift_div_l; lra).
    destruct (std_max_cases 0 (100 - Qabs (ratio - 15) / 15 * 100))
      as [[H2 _] | [_ ->]]; [lra | reflexivity].
Qed.

Lemma comment_score_B_shape_witness :
  comment_score_B 40 = 0%Q.
Proof.
  apply (proj2 (proj2 comment_score_B_shape) 40%Q).
  right. vm_compute. discriminate.
Defined.

(** X23: the length score is exactly 100 for an average of 10 lines and
    exactly 0 from 100 lines on; it is at least 100 for an average of 10
    lines at most, and at least 110 for functions of one line. *)
Theorem length_score_boundary (avg : Q) :
  ((avg == 10)%Q -> (length_score avg == 100)%Q) /\
  ((100 <= avg)%Q -> length_score avg = 0%Q) /\
  ((avg <= 10)%Q -> (100 <= length_score avg)%Q) /\
  ((avg <= 1)%Q -> (110 <= length_score avg)%Q).
Proof.
  unfold length_score.
  assert (E : (100 - 10 == 90)%Q) by reflexivity.
  split; [| split; [| split]]; intros H.
  - destruct (std_max_cases 0 (100 - (avg - 10) / (100 - 10) * 100))
      as [[H1 ->] | [H1 ->]].
    + rewrite H. reflexivity.
    + rewrite H in H1. exfalso. revert H1. vm_compute. intros H1.
      now apply H1.
  - assert (H2 : (1 <= (avg - 10) / 90)%Q) by (apply Qle_shift_div_l; lra).
    destruct (std_max_cases 0 (100 - (avg - 10) / (100 - 10) * 100))
      as [[H1 _] | [_ ->]]; [| reflexivity].
    rewrite E in H1. lra.
  - assert (H2 : ((avg - 10) / 90 <= 0)%Q) by (apply Qle_shift_div_r; lra).
    destruct (std_max_cases 0 (100 - (avg - 10) / (100 - 10) * 100))
      as [[H1 ->] | [H1 ->]]; rewrite E in H1; rewrite ?E; lra.
  - assert (H2 : ((avg - 10) / 90 <= - (1 # 10))%Q)
      by (apply Qle_shift_div_r; lra).
    destruct (std_max_cases 0 (100 - (avg - 10) / (100 - 10) * 100))
      as [[H1 ->] | [H1 ->]]; rewrite E in H1; rewrite ?E; lra.
Qed.

Lemma length_score_boundary_witness :
  (110 <= length_score 1)%Q /\ length_score 250 = 0%Q.
Proof.
  split.
  - apply (proj2 (proj2 (proj2 (length_score_boundary 1)))). vm_compute.
    discriminate.
  - apply (proj1 (proj2 (length_score_boundary 250))). vm_compute.
    discriminate.
Defined.

(* ================================================================== *)
(** * Properties of [ends_with] *)

Lemma std_equal_prefix (l1 l2 : list ascii) :
  std_equal l1 l2 = true <-> exists r, l2 = (l1 ++ r)%list.
Proof.
  revert l2. induction l1 as [| a l1 IH]; intros l2; cbn [std_equal app].
  - split; [intros _; now exists l2 | reflexivity].
  - destruct l2 as [| b l2].
    + split; [discriminate | intros [r H]; discriminate H].
    + destruct (Ascii.eqb a b) eqn:E.
      * apply Ascii.eqb_eq in E. subst b. rewrite IH.
        split; intros [r H]; exists r; [now rewrite H | now injection H].
      * split; [discriminate |]. intros [r H]. injection H as H _.
        subst b. now rewrite Ascii.eqb_refl in E.
Qed.

Lemma list_ascii_of_string_app (a b : string) :
  list_ascii_of_string (a ++ b) =
  (list_ascii_of_string a ++ list_ascii_of_string b)%list.
Proof. induction a as [| x a IH]; cbn; [reflexivity | now rewrite IH]. Qed.

Lemma string_of_list_ascii_app (a b : list ascii) :
  string_of_list_ascii (a ++ b) =
  string_of_list_ascii a ++ string_of_list_ascii b.
Proof. induction a as [| x a IH]; cbn; [reflexivity | now rewrite IH]. Qed.

(** X24: [ends_with] answers true exactly when the value is some text
    followed by the ending. *)
Theorem ends_with_iff (value ending : string) :
  ends_with value ending = true <-> exists stem, value = stem ++ ending.
Proof.
  unfold ends_with. split.
  - destruct (String.length value <? String.length ending)%nat;
      [discriminate |].
    intros H. apply std_equal_prefix in H. destruct H as [r H].
    apply (f_equal (@rev ascii)) in H.
    rewrite rev_involutive, rev_app_distr, rev_involutive in H.
    exists (string_of_list_ascii (rev r)).
    rewrite <- (string_of_list_ascii_of_string value), H.
    now rewrite string_of_list_ascii_app, string_of_list_ascii_of_string.
  - intros [stem ->].
    assert (L : (String.length (stem ++ ending) <? String.length ending)%nat
                = false).
    { apply Nat.ltb_ge. rewrite append_length. lia. }
    rewrite L. apply std_equal_prefix.
    exists (rev (list_ascii_of_string stem)).
    now rewrite list_ascii_of_string_app, rev_app_distr.
Qed.

(* ================================================================== *)
(** * Further properties of the strategies *)

Lemma hasChildOfTypeRecursive_subnodes (node : TSNode) (ty : string) :
  hasChildOfTypeRecursive node ty = true <->
  exists h, In h (subnodes node) /\ ts_node_type h = ty.
Proof.
  unfold hasChildOfTypeRecursive, subnodes.
  rewrite (hasChildOfTypeRecursive_at_existsb ty (snd node) (fst node)).
  rewrite existsb_exists. split; intros [h [Hin Hty]]; exists h;
    (split; [exact Hin |]); unfold has_type in *;
    now apply String.eqb_eq.
Qed.

(** X26: only the strategies of C and C++ find special functions, and they
    look at the declarator alone: a function node is special exactly when
    the subtree of its [declarator] child, or of its [abstract_declarator]
    child when it has no declarator, holds an [operator_name] or a
    [destructor_name] node.  What the body holds never matters. *)
Theorem isSpecialFunction_iff (s : LanguageStrategy) (node : TSNode) :
  isSpecialFunction s node = true <->
  c_like s /\
  exists d h,
    (ts_node_child_by_field_name node "declarator" = Some d \/
     (ts_node_child_by_field_name node "declarator" = None /\
      ts_node_child_by_field_name node "abstract_declarator" = Some d)) /\
    In h (subnodes d) /\
    (ts_node_type h = "operator_name" \/ ts_node_type h = "destructor_name").
Proof.
  assert (C : CStrategy_isSpecialFunction node = true <->
    exists d h,
      (ts_node_child_by_field_name node "declarator" = Some d \/
       (ts_node_child_by_field_name node "declarator" = None /\
        ts_node_child_by_field_name node "abstract_declarator" = Some d)) /\
      In h (subnodes d) /\
      (ts_node_type h = "operator_name" \/ ts_node_type h = "destructor_name")).
  { unfold CStrategy_isSpecialFunction.
    assert (D : forall d,
      hasChildOfTypeRecursive d "operator_name" ||
      hasChildOfTypeRecursive d "destructor_name" = true <->
      exists h, In h (subnodes d) /\
                (ts_node_type h = "operator_name" \/
                 ts_node_type h = "destructor_name")).
    { intros d. rewrite orb_true_iff, !hasChildOfTypeRecursive_subnodes.
      split.
      - intros [[h [H1 H2]] | [h [H1 H2]]]; exists h; tauto.
      - intros [h [H1 [H2 | H2]]]; [left | right]; now exists h. }
    destruct (ts_node_child_by_field_name node "declarator") as [d |].
    - rewrite D. split.
      + intros [h H]. exists d, h. split; [now left | exact H].
      + intros [d' [h [[[= <-] | [H _]] H2]]]; [now exists h | discriminate H].
    - destruct (ts_node_child_by_field_name node "abstract_declarator")
        as [d |].
      + rewrite D. split.
        * intros [h H]. exists d, h. split; [now right | exact H].
        * intros [d' [h [[H | [_ [= <-]]] H2]]];
            [discriminate H | now exists h].
      + split; [discriminate |].
        intros [d' [h [[H | [_ H]] _]]]; discriminate H. }
  unfold c_like.
  destruct s; cbn [isSpecialFunction]; unfold LanguageStrategy_isSpecialFunction;
    try (rewrite C; split; [intros H; split; [auto | exact H] | tauto]);
    (split; [discriminate | intros [[H | H] _]; discriminate H]).
Qed.
